(** * redjohnsh/http: the request execution engine, verified against its
      specification.

    The repository ships two variants of the client in [src/index.ts]:
    - the result-returning variant ([tryRequest], [mergeSignals]), embedded
      in module [Legacy];
    - the throwing [Builder] variant ([Builder.response],
      [shouldRetryRequest], [mergeAbortSignals], [HttpClient.#pathname]),
      embedded in module [Client].

    Modules [Client] and [Legacy] describe the attempts of a request the
    platform accepts; module [Platform] keeps [AbortSignal.timeout] and
    [new Request], which throw on the arguments the platform refuses, where
    the sources call them.

    Numbers are embedded as [Z]: the options [retry], [retryDelay],
    [timeout], HTTP statuses and numeric path segments are integer valued.
    Strings are sequences of code units below 256 ([string]). *)

From Stdlib Require Import ZArith String Ascii List Bool Lia DecimalString.
From Stdlib Require DecimalPos.
From stdpp Require Import base list strings.
Import ListNotations.

Local Open Scope string_scope.
Local Open Scope Z_scope.

(** ** JavaScript primitives used by the sources *)

Module JS.

(** [WhiteSpace] and [LineTerminator] code units below 256: the characters
    removed by [String.prototype.trim] and skipped by [parseInt]. *)
Definition isWhiteSpace (c : ascii) : bool :=
  existsb (N.eqb (N_of_ascii c)) [9; 10; 11; 12; 13; 32; 160]%N.

Fixpoint trimStart (s : string) : string :=
  match s with
  | EmptyString => EmptyString
  | String c r => if isWhiteSpace c then trimStart r else s
  end.

Fixpoint trimEnd (s : string) : string :=
  match s with
  | EmptyString => EmptyString
  | String c r =>
      match trimEnd r with
      | EmptyString => if isWhiteSpace c then EmptyString else String c EmptyString
      | r' => String c r'
      end
  end.

(** [s.trim()] *)
Definition trim (s : string) : string := trimStart (trimEnd s).

Definition strlen (s : string) : Z := Z.of_nat (String.length s).

(** [s.startsWith(p)] *)
Definition startsWith (s p : string) : bool := String.prefix p s.

(** [s.endsWith(p)] *)
Definition endsWith (s p : string) : bool :=
  let n := String.length s in
  let m := String.length p in
  (m <=? n)%nat && String.eqb (String.substring (n - m) m s) p.

(** [s.slice(start, end)], [end] omitted when [None]; negative indices
    count from the end of the string. *)
Definition slice (s : string) (start : Z) (end_ : option Z) : string :=
  let len := strlen s in
  let from := if start <? 0 then Z.max (len + start) 0 else Z.min start len in
  let e := match end_ with Some e => e | None => len end in
  let to := if e <? 0 then Z.max (len + e) 0 else Z.min e len in
  String.substring (Z.to_nat from) (Z.to_nat (Z.max (to - from) 0)) s.

(** [parts.join(sep)] *)
Fixpoint join (sep : string) (parts : list string) : string :=
  match parts with
  | [] => EmptyString
  | [p] => p
  | p :: rest => p ++ sep ++ join sep rest
  end.

(** [s.includes(p)] *)
Fixpoint includes (s p : string) : bool :=
  String.prefix p s ||
  match s with
  | EmptyString => false
  | String _ r => includes r p
  end.

(** [String(n)] for an integer valued number below [10 ^ 21] in absolute
    value, which [String] writes in plain decimal digits. *)
Definition String_of (n : Z) : string := NilZero.string_of_int (Z.to_int n).

Definition digit (c : ascii) : option Z :=
  let n := N_of_ascii c in
  if (48 <=? n)%N && (n <=? 57)%N then Some (Z.of_N n - 48) else None.

Fixpoint parseDigits (acc : option Z) (s : string) : option Z :=
  match s with
  | EmptyString => acc
  | String c r =>
      match digit c with
      | Some d => parseDigits (Some (10 * default 0 acc + d)) r
      | None => acc
      end
  end.

(** [parseInt(s, 10)]: leading white space is skipped, an optional sign is
    read, then the longest prefix of decimal digits; [None] is [NaN]. *)
Definition parseInt (s : string) : option Z :=
  match trimStart s with
  | String "-" r => option_map Z.opp (parseDigits None r)
  | String "+" r => parseDigits None r
  | r => parseDigits None r
  end.

End JS.

(** ** Values, responses and abort signals *)

(** Constructors of the error objects that reach the engine: the platform's
    [Error], [TypeError] and [DOMException], and the classes the [Builder]
    variant declares. *)
Inductive ErrorClass :=
| ErrorC | TypeErrorC | DOMExceptionC
| ServerErrorC | AbortErrorC | NetworkErrorC | TimeoutErrorC | UnknownErrorC.

(** A [Response], as far as the engine reads it: [status], the value of
    [headers.get("Retry-After")] and the body. *)
Record Response := mkResponse {
  status : Z;
  retryAfter : option string;
  body : string
}.

#[global] Instance Response_eq_dec : EqDecision Response.
Proof. solve_decision. Defined.

(** [response.ok] *)
Definition ok (r : Response) : bool := (200 <=? status r) && (status r <=? 299).

(** Thrown values and abort reasons. *)
#[warnings="-register-all"]
Inductive JsValue :=
| JsString (s : string)
| JsOther
| JsError (cls : ErrorClass) (name message : string)
          (cause : option JsValue) (response : option Response).

#[global] Instance ErrorClass_eq_dec : EqDecision ErrorClass.
Proof. solve_decision. Defined.

(** [err instanceof C] for a platform class [C]. *)
Definition instanceof (err : JsValue) (c : ErrorClass) : bool :=
  match err with
  | JsError cls _ _ _ _ => bool_decide (cls = c)
  | _ => false
  end.

(** [err.name] and [err.message] of an error object. *)
Definition err_name (err : JsValue) : string :=
  match err with
  | JsError _ name _ _ _ => name
  | _ => EmptyString
  end.

Definition err_message (err : JsValue) : string :=
  match err with
  | JsError _ _ message _ _ => message
  | _ => EmptyString
  end.

(** [err.response]: the field a [ServerError] keeps its response in. *)
Definition err_response (err : JsValue) : option Response :=
  match err with
  | JsError _ _ _ _ response => response
  | _ => None
  end.

(** [new DOMException(message, name)] *)
Definition DOMException (message name : string) : JsValue :=
  JsError DOMExceptionC name message None None.

(** The reason [controller.abort()] records when called without argument. *)
Definition defaultAbortReason : JsValue :=
  DOMException "signal is aborted without reason" "AbortError".

(** The reason of a signal made by [AbortSignal.timeout]. *)
Definition timeoutReason : JsValue :=
  DOMException "signal timed out" "TimeoutError".

(** Listeners the two signal composers register.  [OnAbort target fwd] is
    the closure [onAbort] of the composition whose controller owns signal
    [target]; it forwards the reason of the event target when [fwd].
    [Cleanup target fwd sources] removes that closure from [sources]. *)
Inductive Listener :=
| OnAbort (target : nat) (fwd : bool)
| Cleanup (target : nat) (fwd : bool) (sources : list nat).

#[global] Instance Listener_eq_dec : EqDecision Listener.
Proof. solve_decision. Defined.

Record AbortSignal := mkSignal {
  aborted : bool;
  reason : option JsValue;
  listeners : list (Listener * bool)   (* callback, [once] *)
}.

(** The signals of the program, addressed by allocation order. *)
Definition Store := list AbortSignal.

Definition registered (st : Store) (id : nat) (l : Listener) : bool :=
  match st !! id with
  | Some s => bool_decide (l ∈ (listeners s).*1)
  | None => false
  end.

(** [signal.addEventListener("abort", l, { once })]: a callback already
    registered is not added again. *)
Definition addEventListener (st : Store) (id : nat) (l : Listener) (once : bool) : Store :=
  if registered st id l then st
  else alter (fun s => mkSignal (aborted s) (reason s) (listeners s ++ [(l, once)])%list) id st.

(** [signal.removeEventListener("abort", l)] *)
Definition removeEventListener (st : Store) (id : nat) (l : Listener) : Store :=
  alter (fun s => mkSignal (aborted s) (reason s)
                    (filter (fun e => e.1 ≠ l) (listeners s))) id st.

(** The body of the cleanup closures: [l] is removed from every source. *)
Definition removeFromAll (st : Store) (sources : list nat) (l : Listener) : Store :=
  fold_left (fun st' src => removeEventListener st' src l) sources st.

(** [controller.abort(reason)] on the controller owning signal [id]: a no-op
    on a fired signal; otherwise the reason is recorded and the abort event
    is dispatched to the listeners registered at that time, skipping those
    removed meanwhile and unregistering the [once] ones before the call.
    [fuel] bounds the nesting of dispatches. *)
Fixpoint abort (fuel : nat) (st : Store) (id : nat) (r : option JsValue) : Store :=
  match fuel with
  | O => st
  | S fuel' =>
      match st !! id with
      | None => st
      | Some s =>
          if aborted s then st
          else
            let st1 := <[id := mkSignal true (Some (default defaultAbortReason r)) (listeners s)]> st in
            fold_left
              (fun st' (e : Listener * bool) =>
                 if registered st' id e.1 then
                   let st'' := if e.2 then removeEventListener st' id e.1 else st' in
                   match e.1 with
                   | OnAbort target fwd =>
                       abort fuel' st'' target
                         (if fwd then (st'' !! id) ≫= reason else None)
                   | Cleanup target fwd sources =>
                       removeFromAll st'' sources (OnAbort target fwd)
                   end
                 else st')
              (listeners s) st1
      end
  end.

(** The number of signals that have not fired. *)
Definition unfired (st : Store) : nat :=
  sum_list (map (fun s => if aborted s then O else 1%nat) st).

(** Every nested dispatch fires a signal that had not fired, so the number
    of signals bounds the nesting: [abort_fuel] shows that more fuel changes
    nothing. *)
Definition AbortController_abort (st : Store) (id : nat) (r : option JsValue) : Store :=
  abort (S (length st)) st id r.

(** [new AbortController()]: a fresh unfired signal. *)
Definition AbortController_new (st : Store) : nat * Store :=
  (length st, (st ++ [mkSignal false None []])%list).

Definition signal_aborted (st : Store) (id : nat) : bool :=
  match st !! id with
  | Some s => aborted s
  | None => false
  end.

Definition signal_reason (st : Store) (id : nat) : option JsValue :=
  (st !! id) ≫= reason.

Definition signal_listeners (st : Store) (id : nat) : list Listener :=
  match st !! id with
  | Some s => (listeners s).*1
  | None => []
  end.

(** ** Requests, the environment and the execution monad *)

Definition toUpper (c : ascii) : ascii :=
  let n := N_of_ascii c in
  if (97 <=? n)%N && (n <=? 122)%N then ascii_of_N (n - 32) else c.

Fixpoint toUpperCase (s : string) : string :=
  match s with
  | EmptyString => EmptyString
  | String c r => String (toUpper c) (toUpperCase r)
  end.

(** The [Request] constructor upper-cases the methods the Fetch standard
    normalizes and leaves the others as given. *)
Definition normalizeMethod (m : string) : string :=
  let u := toUpperCase m in
  if existsb (String.eqb u) ["DELETE"; "GET"; "HEAD"; "OPTIONS"; "POST"; "PUT"]
  then u else m.

(** A [Request], as far as the engine and its collaborators tell requests
    apart: the method and the signal it carries.  URL, headers and body
    are the builder's and the same on every attempt. *)
Record Request := mkRequest {
  method : string;
  signal : nat
}.

#[global] Instance Request_eq_dec : EqDecision Request.
Proof. solve_decision. Defined.

(** The [Request] the constructor returns for a method and an init it
    accepts; [Platform.Request_new] has the cases in which it throws. *)
Definition Request_new (m : string) (sig : nat) : Request :=
  mkRequest (normalizeMethod m) sig.

(** What a transport call settles to. *)
Inductive FetchOutcome :=
| Resolve (response : Response)
| Reject (err : JsValue).

(** The transport capability: the outcome of the [k]-th call of an
    execution (counted from 1) on the request it receives. *)
Definition Fetch := nat -> Request -> FetchOutcome.

Inductive Event :=
| EvBeforeSend (request : Request)
| EvFetch (request : Request)
| EvOnResponse (response : Response)
| EvWarn (message : string)
| EvDelay (ms : Z)
| EvSetTimeout (timer : nat) (ms : Z)
| EvClearTimeout (timer : nat).

(** The state an execution runs in: the signals, the number of transport
    calls made, and the observable actions in the order they happened.
    There is no clock: an execution arms and awaits timers without running
    them, and a signal fires by [AbortController_abort] on a store. *)
Record World := mkWorld {
  signals : Store;
  calls : nat;
  trace : list Event
}.

(** How a computation completes.  [Diverge] marks a recursion cut short by
    its fuel; [run_total] and [tryRequest_returns] show it never happens. *)
Inductive Completion (A : Type) :=
| Normal (a : A)
| Throw (e : JsValue)
| Diverge.
Arguments Normal {A} a.
Arguments Throw {A} e.
Arguments Diverge {A}.

Definition M (A : Type) : Type := World -> World * Completion A.

Definition ret {A} (a : A) : M A := fun w => (w, Normal a).

Definition throw {A} (e : JsValue) : M A := fun w => (w, Throw e).

Definition bind {A B} (m : M A) (k : A -> M B) : M B :=
  fun w =>
    match m w with
    | (w', Normal a) => k a w'
    | (w', Throw e) => (w', Throw e)
    | (w', Diverge) => (w', Diverge)
    end.

(** [try { m } catch (err) { handler err }] *)
Definition try_catch {A} (m : M A) (handler : JsValue -> M A) : M A :=
  fun w =>
    match m w with
    | (w', Throw e) => handler e w'
    | r => r
    end.

(** [try { m } finally { f }]: the completion of [m] stands unless [f]
    throws. *)
Definition try_finally {A} (m : M A) (f : M unit) : M A :=
  fun w =>
    match m w with
    | (w', c) =>
        match f w' with
        | (w'', Normal _) => (w'', c)
        | (w'', Throw e) => (w'', Throw e)
        | (w'', Diverge) => (w'', Diverge)
        end
    end.

(** With these instances, [x ← m; k] and [m;; k] sequence computations. *)
#[global] Instance M_ret : MRet M := @ret.
#[global] Instance M_bind : MBind M := fun A B k m => bind m k.

(** [w] with [evs] observed next. *)
Definition log (w : World) (evs : list Event) : World :=
  mkWorld (signals w) (calls w) (trace w ++ evs)%list.

Definition emit (e : Event) : M unit :=
  fun w => (log w [e], Normal tt).

(** A step on the signals alone. *)
Definition on_signals {A} (f : Store -> A * Store) : M A :=
  fun w => let (a, st) := f (signals w) in
           (mkWorld st (calls w) (trace w), Normal a).

(** [await fetch(request)] *)
Definition call_fetch (fetch : Fetch) (request : Request) : M Response :=
  fun w =>
    let k := S (calls w) in
    let w' := log (mkWorld (signals w) k (trace w)) [EvFetch request] in
    match fetch k request with
    | Resolve response => (w', Normal response)
    | Reject err => (w', Throw err)
    end.

(** An optional hook [hook?.(x)]: [Some e] is the value it throws. *)
Definition call_hook {X} (hook : option (X -> option JsValue)) (ev : X -> Event) (x : X) : M unit :=
  match hook with
  | None => ret tt
  | Some h =>
      emit (ev x);;
      match h x with
      | None => ret tt
      | Some e => throw e
      end
  end.

(** [await delay(ms)] *)
Definition delay (ms : Z) : M unit := emit (EvDelay ms).

(** ** The [Builder] variant *)

Module Client.

(** [PathSegments]: [readonly (number | string | null | undefined)[]] *)
Inductive PathSegment :=
| SegNumber (n : Z)
| SegString (s : string)
| SegNull
| SegUndefined.

(** [HttpClient.#pathname]: the loop pushes onto [segments]. *)
Definition pathname_loop (path : list PathSegment) : list string :=
  fold_left
    (fun (segments : list string) (segment : PathSegment) =>
       match segment with
       | SegUndefined | SegNull => segments
       | SegNumber n => (segments ++ [JS.String_of n])%list
       | SegString segment =>
           let segment := JS.trim segment in
           let segment :=
             if JS.startsWith segment "/" then JS.slice segment 1 None else segment in
           let segment :=
             if JS.endsWith segment "/" then JS.slice segment 0 (Some (-1)) else segment in
           if JS.strlen segment >? 0 then (segments ++ [segment])%list else segments
       end)
    path [].

Definition pathname (path : list PathSegment) : string :=
  JS.join "/" (pathname_loop path).

Definition MIN_RETRY_DELAY : Z := 200.
Definition MAX_RETRY_DELAY : Z := 10000.
Definition RETRY_CODE_LIST : list Z := [408; 409; 425; 429; 500; 502; 503; 504].

Definition shouldRetryRequest (request : Request) (response : Response)
    (currentAttempt maxAttempts : Z) : bool :=
  (currentAttempt <? maxAttempts)
  && String.eqb (method request) "GET"
  && existsb (Z.eqb (status response)) RETRY_CODE_LIST.

(** The error classes of the module.  None of them sets [name], so their
    instances inherit ["Error"] from [Error.prototype]. *)
Definition ServerError (response : Response) : JsValue :=
  JsError ServerErrorC "Error"
    ("Server replied with status: " ++ JS.String_of (status response))
    None (Some response).

Definition AbortError (message : string) (cause : option JsValue) : JsValue :=
  JsError AbortErrorC "Error" message cause None.

Definition NetworkError (message : string) (cause : option JsValue) : JsValue :=
  JsError NetworkErrorC "Error" message cause None.

Definition TimeoutError (message : string) (cause : option JsValue) : JsValue :=
  JsError TimeoutErrorC "Error" message cause None.

Definition UnknownError (message : string) : JsValue :=
  JsError UnknownErrorC "Error" message None None.

(** [Builder.#handleError] *)
Definition handleError (error : JsValue) : JsValue :=
  match error with
  | JsError ServerErrorC _ _ _ _ => error
  | JsError _ name message _ _ =>
      if String.eqb name "AbortError" then AbortError message (Some error)
      else if String.eqb name "NetworkError"
              || String.eqb name "ConnectionRefused"
              || String.eqb name "TypeError"
      then NetworkError message (Some error)
      else if String.eqb name "TimeoutError" then TimeoutError message (Some error)
      else UnknownError "An unknown error occurred."
  | _ => UnknownError "An unknown error occurred."
  end.

(** [Options] without [baseUrl], restricted to what [response] reads.
    A hook returns [Some e] when it throws (or, for the awaited
    [beforeSend], rejects with) [e]. *)
Record BuilderOptions := mkOptions {
  beforeSend : option (Request -> option JsValue);
  fetch : Fetch;
  onResponse : option (Response -> option JsValue);
  retry : option Z;
  retryDelay : option Z;
  timeout : option Z
}.

Record Builder := mkBuilder {
  b_method : string;
  b_options : BuilderOptions;
  b_signal : option nat
}.

(** [AbortSignal.timeout(ms)] for a delay the platform accepts: a fresh
    unfired signal.  [Platform.AbortSignal_timeout] has the cases in which
    it throws. *)
Definition AbortSignal_timeout (ms : Z) (st : Store) : nat * Store :=
  AbortController_new st.

(** [mergeAbortSignals(timeoutSignal, userSignal)] *)
Definition mergeAbortSignals (timeoutSignal : nat) (userSignal : option nat)
    (st : Store) : nat * Store :=
  let (signal, st) := AbortController_new st in
  let onAbort := OnAbort signal false in
  let st :=
    if signal_aborted st timeoutSignal
    then AbortController_abort st signal None
    else addEventListener st timeoutSignal onAbort false in
  let st :=
    match userSignal with
    | Some userSignal =>
        if signal_aborted st userSignal
        then AbortController_abort st signal None
        else addEventListener st userSignal onAbort false
    | None => st
    end in
  let st :=
    addEventListener st signal
      (Cleanup signal false (timeoutSignal :: option_list userSignal)) false in
  (signal, st).

(** The delay of the retry after attempt [currentAttempt], which is at least
    1 in every execution: [response] starts [run] at 1.  The arithmetic is
    that of the integers; [backoff_is_number] says where the code computes
    a number. *)
Definition backoffDelay (retryDelay currentAttempt : Z) (response : Response) : Z :=
  let backoffDelay := retryDelay * 2 ^ (currentAttempt - 1) in
  let retryAfter := retryAfter response in
  let backoffDelay :=
    match retryAfter with
    | Some (String c r) =>
        match JS.parseInt (String c r) with
        | Some retryAfterSeconds => Z.max (retryAfterSeconds * 1000) backoffDelay
        | None => backoffDelay
        end
    | _ => backoffDelay
    end in
  Z.min MAX_RETRY_DELAY (Z.max MIN_RETRY_DELAY backoffDelay).

Definition warning (currentAttempt retry : Z) (response : Response) (backoffDelay : Z) : string :=
  "Attempt " ++ JS.String_of currentAttempt ++ "/" ++ JS.String_of retry
  ++ " failed with status " ++ JS.String_of (status response)
  ++ ". Retrying in " ++ JS.String_of backoffDelay ++ "ms...".

(** The body of [run] in [Builder.response]; [self] is the recursive call. *)
Definition run_body (b : Builder) (self : Z -> M Response) (currentAttempt : Z) : M Response :=
  let o := b_options b in
  let retry := default 0 (retry o) in
  let retryDelay := default 500 (retryDelay o) in
  let timeout := default 10000 (timeout o) in
  timeoutSignal ← on_signals (AbortSignal_timeout timeout);
  signal ← on_signals (mergeAbortSignals timeoutSignal (b_signal b));
  let request := Request_new (b_method b) signal in
  call_hook (beforeSend o) EvBeforeSend request;;
  try_catch
    (response ← call_fetch (fetch o) request;
     call_hook (onResponse o) EvOnResponse response;;
     if ok response then ret response
     else if negb (shouldRetryRequest request response currentAttempt retry)
     then throw (ServerError response)
     else
       let backoffDelay := backoffDelay retryDelay currentAttempt response in
       emit (EvWarn (warning currentAttempt retry response backoffDelay));;
       delay backoffDelay;;
       self (currentAttempt + 1))
    (fun err => throw (handleError err)).

Fixpoint run_fuel (fuel : nat) (b : Builder) (currentAttempt : Z) : M Response :=
  match fuel with
  | O => run_body b (fun _ w => (w, Diverge)) currentAttempt
  | S fuel' => run_body b (run_fuel fuel' b) currentAttempt
  end.

(** [run]: a retry happens only while [currentAttempt < retry], which
    bounds the depth of the recursion. *)
Definition run (b : Builder) (currentAttempt : Z) : M Response :=
  run_fuel (Z.to_nat (default 0 (retry (b_options b)) - currentAttempt)) b currentAttempt.

(** [Builder.response()] *)
Definition response (b : Builder) : M Response := run b 1.

End Client.

(** ** The result-returning variant *)

Module Legacy.

Inductive HttpError :=
| SERVER_ERROR (response : Response)
| CLIENT_ERROR (message : string).

Inductive Result (T E : Type) :=
| success (value : T)
| failure (reason : E).
Arguments success {T E} value.
Arguments failure {T E} reason.

Definition clientError (message : string) : HttpError := CLIENT_ERROR message.
Definition serverError (response : Response) : HttpError := SERVER_ERROR response.

Abbreviation HttpResult T := (M (Result T HttpError)).

(** [RequestContext], restricted to what [tryRequest] reads. *)
Record RequestContext := mkContext {
  fetch : Fetch;
  c_method : string;
  retries : option Z;
  retryDelay : option Z;
  c_signal : option nat;
  timeout : option Z
}.

Definition TIMEOUT_MESSAGE : string := "Request timed out".

(** [mergeSignals(signals)] *)
Definition mergeSignals (sources : list nat) (st : Store) : nat * Store :=
  let (csignal, st) := AbortController_new st in
  let onAbort := OnAbort csignal true in
  let st :=
    fold_left
      (fun st' src =>
         if signal_aborted st' src
         then AbortController_abort st' csignal (signal_reason st' src)
         else addEventListener st' src onAbort true)
      sources st in
  let st :=
    if signal_aborted st csignal
    then removeFromAll st sources onAbort
    else addEventListener st csignal (Cleanup csignal true sources) true in
  (csignal, st).

(** The body of [tryRequest]; [self] is the recursive call. *)
Definition tryRequest_body (context : RequestContext)
    (self : Z -> HttpResult Response) (currentAttempt : Z) : HttpResult Response :=
  let retries := default 1 (retries context) in
  let retryDelay := default 1000 (retryDelay context) in
  let userSignal := c_signal context in
  let timeout := default 10000 (timeout context) in
  timeoutSignal ← on_signals AbortController_new;
  let availableSignals := (timeoutSignal :: option_list userSignal) in
  emit (EvSetTimeout timeoutSignal timeout);;
  mergedSignal ← on_signals (mergeSignals availableSignals);
  let request := Request_new (c_method context) mergedSignal in
  try_finally
    (try_catch
       (response ← call_fetch (fetch context) request;
        if negb (ok response) then ret (failure (serverError response))
        else ret (success response))
       (fun err =>
          match err with
          | JsString err =>
              if JS.includes err TIMEOUT_MESSAGE then
                if currentAttempt <? retries then
                  delay (retryDelay * 2 ^ currentAttempt);;
                  self (currentAttempt + 1)
                else ret (failure (clientError TIMEOUT_MESSAGE))
              else ret (failure (clientError ("Request was aborted: " ++ err)))
          | _ =>
              if instanceof err DOMExceptionC && String.eqb (err_name err) "AbortError"
              then ret (failure (clientError (err_message err)))
              else if instanceof err TypeErrorC
                      && JS.includes (err_message err) "Failed to fetch."
              then
                if currentAttempt <? retries then
                  delay (retryDelay * 2 ^ currentAttempt);;
                  self (currentAttempt + 1)
                else ret (failure (clientError "Network error."))
              else ret (failure (clientError "Unknown error."))
          end))
    (emit (EvClearTimeout timeoutSignal)).

Fixpoint tryRequest_fuel (fuel : nat) (context : RequestContext)
    (currentAttempt : Z) : HttpResult Response :=
  match fuel with
  | O => tryRequest_body context (fun _ w => (w, Diverge)) currentAttempt
  | S fuel' => tryRequest_body context (tryRequest_fuel fuel' context) currentAttempt
  end.

(** [tryRequest]: a retry happens only while [currentAttempt < retries]. *)
Definition tryRequest (context : RequestContext) (currentAttempt : Z) : HttpResult Response :=
  tryRequest_fuel (Z.to_nat (default 1 (retries context) - currentAttempt))
    context currentAttempt.

End Legacy.

(** ** Observations on executions *)

(** The world an execution starts in: no call made, nothing observed. *)
Definition initial (st : Store) : World := mkWorld st 0 [].

Definition delays (tr : list Event) : list Z :=
  omap (fun e => match e with EvDelay ms => Some ms | _ => None end) tr.

(** The request an attempt started in world [w] builds: [AbortSignal.timeout]
    allocates one signal, [mergeAbortSignals] the next. *)
Definition attempt_request (m : string) (w : World) : Request :=
  Request_new m (S (length (signals w))).

(** The signals once an attempt of [Builder.response] has composed its
    signal. *)
Definition attempt_store (b : Client.Builder) (st : Store) : Store :=
  (Client.mergeAbortSignals (length st) (Client.b_signal b)
     (Client.AbortSignal_timeout
        (default 10000 (Client.timeout (Client.b_options b))) st).2).2.

Definition attempt_world (b : Client.Builder) (w : World) : World :=
  mkWorld (attempt_store b (signals w)) (calls w) (trace w).

(** The event of an optional hook, when it is configured. *)
Definition hook_events {X} (hook : option (X -> option JsValue)) (ev : X -> Event) (x : X) : list Event :=
  match hook with
  | Some _ => [ev x]
  | None => []
  end.

(** What the hook throws, if anything. *)
Definition hook_throws {X} (hook : option (X -> option JsValue)) (x : X) : option JsValue :=
  hook ≫= (fun h => h x).

(** The completion of a caller of [run]: the [catch] block passes a thrown
    value through [handleError]. *)
Definition rethrown {A} (r : World * Completion A) : World * Completion A :=
  match r with
  | (w, Throw e) => (w, Throw (Client.handleError e))
  | _ => r
  end.

(** [w] once the next transport call has been made on [request]. *)
Definition called (w : World) (request : Request) : World :=
  log (mkWorld (signals w) (S (calls w)) (trace w)) [EvFetch request].

(** The path in the words of the specification: a number is stringified
    unchanged; a string is trimmed, loses at most one leading and at most
    one trailing slash, and is dropped when nothing is left; the surviving
    segments are joined with a slash. *)
Definition strip_leading_slash (s : string) : string :=
  match s with
  | String "/" r => r
  | _ => s
  end.

Fixpoint strip_trailing_slash (s : string) : string :=
  match s with
  | EmptyString => EmptyString
  | String c EmptyString => if Ascii.eqb c "/" then EmptyString else s
  | String c r => String c (strip_trailing_slash r)
  end.

Definition spec_segment (seg : Client.PathSegment) : option string :=
  match seg with
  | Client.SegNumber n => Some (JS.String_of n)
  | Client.SegString s =>
      match strip_trailing_slash (strip_leading_slash (JS.trim s)) with
      | EmptyString => None
      | u => Some u
      end
  | Client.SegNull | Client.SegUndefined => None
  end.

Definition spec_pathname (path : list Client.PathSegment) : string :=
  JS.join "/" (omap spec_segment path).

(** A string segment is tidy when, once trimmed, it neither begins nor ends
    with two slashes. *)
Definition tidy (seg : Client.PathSegment) : Prop :=
  match seg with
  | Client.SegString s =>
      JS.startsWith (JS.trim s) "//" = false /\ JS.endsWith (JS.trim s) "//" = false
  | _ => True
  end.

(** The world in which an attempt of [tryRequest] started in [w] calls the
    transport: the timeout controller and the merged signal are allocated
    and the timer is armed. *)
Definition legacy_world (c : Legacy.RequestContext) (w : World) : World :=
  let t := length (signals w) in
  mkWorld
    (Legacy.mergeSignals (t :: option_list (Legacy.c_signal c))
       (AbortController_new (signals w)).2).2
    (calls w)
    (trace w ++ [EvSetTimeout t (default 10000 (Legacy.timeout c))])%list.

(** The [finally] block of [tryRequest]: the timer is cleared once the
    [try] statement, nested attempts included, has completed. *)
Definition finished {A} (timer : nat) (r : World * Completion A) : World * Completion A :=
  (log r.1 [EvClearTimeout timer], r.2).

(** [clamp(x, lo, hi)] *)
Definition clamp (x lo hi : Z) : Z :=
  if x <? lo then lo else if hi <? x then hi else x.

(** Decimal digits, the digits a string begins with, and the number a
    sequence of digits denotes. *)
Definition is_digit (c : ascii) : bool :=
  (48 <=? N_of_ascii c)%N && (N_of_ascii c <=? 57)%N.

Definition digit_value (c : ascii) : Z := Z.of_N (N_of_ascii c) - 48.

Fixpoint leading_digits (s : string) : list ascii :=
  match s with
  | String c r => if is_digit c then c :: leading_digits r else []
  | EmptyString => []
  end.

Definition decimal (ds : list ascii) : Z :=
  fold_left (fun n c => 10 * n + digit_value c) ds 0.

(** The sign a string begins with, if any, and what follows it. *)
Definition split_sign (s : string) : bool * string :=
  match s with
  | String "-" r => (true, r)
  | String "+" r => (false, r)
  | _ => (false, s)
  end.

Definition signed (negative : bool) (n : Z) : Z := if negative then - n else n.

(** A header value is an integer when it is an optional sign followed by
    decimal digits and by nothing else; [integer_value] is that integer. *)
Definition integer_value (s : string) : option Z :=
  let (negative, digits) := split_sign s in
  let ds := leading_digits digits in
  if (0 <? length ds)%nat && (length ds =? String.length digits)%nat
  then Some (signed negative (decimal ds)) else None.

(** The integer a header value begins with: white space is skipped, an
    optional sign and the longest run of decimal digits are read, and what
    follows the digits is not looked at. *)
Definition leading_integer (s : string) : option Z :=
  let (negative, rest) := split_sign (JS.trimStart s) in
  match leading_digits rest with
  | [] => None
  | ds => Some (signed negative (decimal ds))
  end.

(** The retry delay after attempt [k] when [seconds] reads the [Retry-After]
    header: the clamped exponential backoff, unless the header gives a
    number of seconds that, in milliseconds, exceeds the computed backoff;
    then that value, clamped too. *)
Definition delay_reading (seconds : string -> option Z) (retryDelay k : Z) (r : Response) : Z :=
  let computed := retryDelay * 2 ^ (k - 1) in
  match retryAfter r ≫= seconds with
  | Some seconds =>
      if computed <? seconds * 1000
      then clamp (seconds * 1000) 200 10000
      else clamp computed 200 10000
  | None => clamp computed 200 10000
  end.

(** The retry delay in the words of the specification: the header counts
    when its value is an integer, and is ignored otherwise. *)
Definition claimed_delay : Z -> Z -> Response -> Z := delay_reading integer_value.

(** The retry delay as amended: the header counts when its value begins
    with an integer, whatever follows, and is ignored otherwise. *)
Definition spec_delay : Z -> Z -> Response -> Z := delay_reading leading_integer.

(** The options are JavaScript numbers.  In the code [2 ** (n - 1)] is
    [Infinity] from [n = 1025] on, [0 * Infinity] is [NaN], and [Math.max]
    and [Math.min] pass [NaN] on; every other product of an integer by a
    power of two is that integer product or an infinity of its sign, which
    the bounds 200 and 10000 treat alike.  So the integer arithmetic of
    [Client.backoffDelay] is that of the code when [retryDelay] is not 0 or
    the attempt is at most 1024. *)
Definition backoff_is_number (retryDelay currentAttempt : Z) : Prop :=
  retryDelay <> 0 \/ currentAttempt <= 1024.

(** A trace follows the retry schedule when no delay precedes the first
    transport call, exactly one delay separates two consecutive calls, and
    the delay after call [k] is [spec_delay] of the response call [k]
    resolved with.  The checker reads the trace with the number of calls
    seen and whether a call is waiting for its delay. *)
Inductive Phase :=
| Idle
| Called (o : FetchOutcome).

Definition sched_step (fetch : Fetch) (retryDelay : Z)
    (s : option (nat * Phase)) (ev : Event) : option (nat * Phase) :=
  match s with
  | None => None
  | Some (k, ph) =>
      match ev, ph with
      | EvFetch req, Idle => Some (S k, Called (fetch (S k) req))
      | EvFetch _, Called _ => None
      | EvDelay ms, Called (Resolve r) =>
          if ms =? spec_delay retryDelay (Z.of_nat k) r then Some (k, Idle) else None
      | EvDelay _, _ => None
      | _, _ => Some (k, ph)
      end
  end.

Definition sched_run (fetch : Fetch) (retryDelay : Z) (tr : list Event) : option (nat * Phase) :=
  fold_left (sched_step fetch retryDelay) tr (Some (O, Idle)).

Definition follows_schedule (fetch : Fetch) (retryDelay : Z) (tr : list Event) : Prop :=
  is_Some (sched_run fetch retryDelay tr).






(** Signal [m] is the output of a composition over [sources]: its cleanup
    is registered on it, it has fired exactly when one of the sources has,
    and while it has not fired [onAbort] is registered on every source. *)
Definition composed (st : Store) (m : nat) (sources : list nat) : Prop :=
  Cleanup m false sources ∈ signal_listeners st m
  /\ signal_aborted st m = existsb (signal_aborted st) sources
  /\ (signal_aborted st m = false ->
      forall s, s ∈ sources -> OnAbort m false ∈ signal_listeners st s).

(** A request the trace shows to [beforeSend] or to the transport. *)
Definition sent (request : Request) (tr : list Event) : Prop :=
  EvBeforeSend request ∈ tr \/ EvFetch request ∈ tr.

(** [Builder.retry(value)] *)
Definition Builder_retry (b : Client.Builder) (value : Z) : Client.Builder :=
  let o := Client.b_options b in
  Client.mkBuilder (Client.b_method b)
    (Client.mkOptions (Client.beforeSend o) (Client.fetch o) (Client.onResponse o)
       (Some value) (Client.retryDelay o) (Client.timeout o))
    (Client.b_signal b).

(** ** Scenarios *)

Definition response_503 : Response := mkResponse 503 None "Service Unavailable".
Definition response_200 : Response := mkResponse 200 None "OK".

(** A transport that always rejects the way [fetch] does on a connectivity
    failure. *)
Definition failing_transport : Fetch :=
  fun _ _ => Reject (JsError TypeErrorC "TypeError" "Failed to fetch" None None).

(** [retry: 2] over the failing transport. *)
Definition network_scenario : Client.Builder :=
  Client.mkBuilder "GET"
    (Client.mkOptions None failing_transport None (Some 2) None None) None.

(** A transport that always answers 503. *)
Definition unavailable_transport : Fetch := fun _ _ => Resolve response_503.

(** [retry: 0] over a server that always answers 503. *)
Definition no_retry_scenario : Client.Builder :=
  Client.mkBuilder "GET"
    (Client.mkOptions None unavailable_transport None (Some 0) None None) None.

(** 503 on the first two calls, 200 on the third. *)
Definition recovering_transport : Fetch :=
  fun k _ => match k with
             | 1%nat | 2%nat => Resolve response_503
             | _ => Resolve response_200
             end.

(** [{timeout: 5000, retry: 3, retryDelay: 100}], GET, over the recovering
    transport. *)
Definition recovering_scenario : Client.Builder :=
  Client.mkBuilder "GET"
    (Client.mkOptions None recovering_transport None (Some 3) (Some 100) (Some 5000)) None.

(** The same scenario with both hooks configured and a caller signal. *)
Definition hooked_scenario : Client.Builder :=
  Client.mkBuilder "GET"
    (Client.mkOptions (Some (fun _ => None)) recovering_transport (Some (fun _ => None))
       (Some 3) (Some 100) (Some 5000)) (Some 0%nat).

(** [tryRequest] with [retries: 3] over a server that always answers 503. *)
Definition legacy_scenario : Legacy.RequestContext :=
  Legacy.mkContext unavailable_transport "GET" (Some 3) (Some 100) None None.

(** A timeout signal that has fired next to a caller signal that has not. *)
Definition fired_timeout_store : Store :=
  [mkSignal true (Some timeoutReason) []; mkSignal false None []].

(** Two source signals, neither fired. *)
Definition unfired_store : Store :=
  [mkSignal false None []; mkSignal false None []].

(** [retry: 3], [retryDelay: 1000] and a lower-case method over a server
    that always answers 503. *)
Definition exhausted_scenario : Client.Builder :=
  Client.mkBuilder "get"
    (Client.mkOptions None unavailable_transport None (Some 3) (Some 1000) None) None.

(** 503 on the first call, a connectivity failure on the next ones. *)
Definition flaky_transport : Fetch :=
  fun k _ => match k with
             | 1%nat => Resolve response_503
             | _ => Reject (JsError TypeErrorC "TypeError" "Failed to fetch" None None)
             end.

(** [retry: 2] over the flaky transport. *)
Definition flaky_scenario : Client.Builder :=
  Client.mkBuilder "GET"
    (Client.mkOptions None flaky_transport None (Some 2) None None) None.




(** A transport that always times out, and [tryRequest] with [retries: 3]
    and [retryDelay: 100] over it. *)
Definition timing_out_transport : Fetch :=
  fun _ _ => Reject (JsString "Request timed out").

Definition timing_out_scenario : Legacy.RequestContext :=
  Legacy.mkContext timing_out_transport "GET" (Some 3) (Some 100) (Some 0%nat) None.

(** ** The other two copies of [#pathname] *)

(** [HttpClient.#pathname] of the result-returning variant and of [mod.ts],
    which are the same text: [Path] is [readonly (number | string)[]], and
    the loop has no case for [null] and [undefined]. *)
Module Paths.

Inductive PathItem :=
| ItemNumber (n : Z)
| ItemString (s : string).

Definition pathname_loop (path : list PathItem) : list string :=
  fold_left
    (fun (segments : list string) (segment : PathItem) =>
       match segment with
       | ItemNumber n => (segments ++ [JS.String_of n])%list
       | ItemString segment =>
           let segment := JS.trim segment in
           let segment :=
             if JS.startsWith segment "/" then JS.slice segment 1 None else segment in
           let segment :=
             if JS.endsWith segment "/" then JS.slice segment 0 (Some (-1)) else segment in
           if JS.strlen segment >? 0 then (segments ++ [segment])%list else segments
       end)
    path [].

Definition pathname (path : list PathItem) : string :=
  JS.join "/" (pathname_loop path).

End Paths.

(** A [Path] read as [PathSegments]. *)
Definition as_segment (item : Paths.PathItem) : Client.PathSegment :=
  match item with
  | Paths.ItemNumber n => Client.SegNumber n
  | Paths.ItemString s => Client.SegString s
  end.

(** [PathSegments] without the [null] and [undefined] entries. *)
Definition present (seg : Client.PathSegment) : bool :=
  match seg with
  | Client.SegNull | Client.SegUndefined => false
  | _ => true
  end.

(** ** Observations on the dispatch of abort events *)

(** What [abort] does with one listener of the signal [id] it has fired. *)
Definition dispatch_step (fuel : nat) (id : nat) (st' : Store) (e : Listener * bool) : Store :=
  if registered st' id e.1 then
    let st'' := if e.2 then removeEventListener st' id e.1 else st' in
    match e.1 with
    | OnAbort target fwd =>
        abort fuel st'' target (if fwd then (st'' !! id) ≫= reason else None)
    | Cleanup target fwd sources =>
        removeFromAll st'' sources (OnAbort target fwd)
    end
  else st'.

(** The controller a listener acts for. *)
Definition listener_target (l : Listener) : nat :=
  match l with
  | OnAbort target _ => target
  | Cleanup target _ _ => target
  end.

(** A store is closed when the listeners in it act for controllers of the
    store. *)
Definition closed (st : Store) : Prop :=
  forall j l, l ∈ signal_listeners st j -> (listener_target l < length st)%nat.

(** [st'] comes from [st] by firing signals and removing listeners. *)
Definition evolves (st st' : Store) : Prop :=
  length st' = length st
  /\ (unfired st' <= unfired st)%nat
  /\ (forall j, signal_aborted st j = true ->
        signal_aborted st' j = true /\ signal_reason st' j = signal_reason st j)
  /\ (forall j l, l ∈ signal_listeners st' j -> l ∈ signal_listeners st j).

(** The composition owning signal [m] over [sources], seen from its source
    [s]: either [m] has fired and [onAbort] is gone from every source, or
    [m] has not fired, its cleanup is registered on it and [onAbort] is
    registered on [s]. *)
Definition linked (m : nat) (fwd : bool) (sources : list nat) (s : nat) (st : Store) : Prop :=
  (signal_aborted st m = true
   /\ forall s', s' ∈ sources -> OnAbort m fwd ∉ signal_listeners st s')
  \/ (signal_aborted st m = false
      /\ Cleanup m fwd sources ∈ signal_listeners st m
      /\ OnAbort m fwd ∈ signal_listeners st s).

(** The cleanups of [m] are registered on [m] only. *)
Definition cleanup_at_home (m : nat) (st : Store) : Prop :=
  forall j f sources, Cleanup m f sources ∈ signal_listeners st j -> j = m.

(** Every [onAbort] of [m] is registered on a source and forwards as [fwd]
    says. *)
Definition onAbort_at_sources (m : nat) (fwd : bool) (sources : list nat) (st : Store) : Prop :=
  forall j f, OnAbort m f ∈ signal_listeners st j -> f = fwd /\ j ∈ sources.

(** ** Building the request: [param], [header] and [body] *)

(** The methods of [Builder] and of [RequestBuilder] that fill in the URL
    parameters, the headers and the body, over the [URLSearchParams] and
    [Headers] of the platform.  A header operation returns [None] when it
    throws a [TypeError], and so does [body] when it throws. *)
Module Fluent.

(** [string | number | boolean] *)
Inductive Scalar :=
| ScalarString (s : string)
| ScalarNumber (n : Z)
| ScalarBoolean (b : bool).

(** [String(value)] *)
Definition String_of_scalar (value : Scalar) : string :=
  match value with
  | ScalarString s => s
  | ScalarNumber n => JS.String_of n
  | ScalarBoolean true => "true"
  | ScalarBoolean false => "false"
  end.

(** An optional flag read as a condition: [undefined] is falsy. *)
Definition truthy (flag : option bool) : bool := default false flag.

(** [URLSearchParams]: the list of name-value pairs. *)
Definition URLSearchParams := list (string * string).

Definition URLSearchParams_append (p : URLSearchParams) (name value : string)
    : URLSearchParams :=
  (p ++ [(name, value)])%list.

(** [set]: the first pair named [name] takes [value] and the other pairs of
    that name are removed; without such a pair, the pair is appended. *)
Fixpoint URLSearchParams_set (p : URLSearchParams) (name value : string)
    : URLSearchParams :=
  match p with
  | [] => [(name, value)]
  | (n, v) :: rest =>
      if String.eqb n name
      then (n, value) :: List.filter (fun e => negb (String.eqb e.1 name)) rest
      else (n, v) :: URLSearchParams_set rest name value
  end.

Definition URLSearchParams_getAll (p : URLSearchParams) (name : string) : list string :=
  map snd (List.filter (fun e => String.eqb e.1 name) p).

(** [Builder.param] and [RequestBuilder.param], on [url.searchParams] *)
Definition param (p : URLSearchParams) (key : string) (value : Scalar)
    (append : option bool) : URLSearchParams :=
  let v := String_of_scalar value in
  if truthy append then URLSearchParams_append p key v
  else URLSearchParams_set p key v.

(** [Builder.params]: [init] stands for the pairs of
    [new URLSearchParams(init)], which [forEach] visits in order. *)
Definition params (p : URLSearchParams) (init : URLSearchParams)
    (append : option bool) : URLSearchParams :=
  fold_left (fun p' e => param p' e.1 (ScalarString e.2) append) init p.

(** [RequestBuilder.params]: [values] stands for [Object.entries(values)]. *)
Definition params_of_entries (p : URLSearchParams) (values : list (string * Scalar))
    (append : option bool) : URLSearchParams :=
  fold_left (fun p' e => param p' e.1 e.2 append) values p.

(** Header names are compared byte-case-insensitively. *)
Definition toLower (c : ascii) : ascii :=
  let n := N_of_ascii c in
  if (65 <=? n)%N && (n <=? 90)%N then ascii_of_N (n + 32) else c.

Fixpoint byteLowercase (s : string) : string :=
  match s with
  | EmptyString => EmptyString
  | String c r => String (toLower c) (byteLowercase r)
  end.

Definition same_name (a b : string) : bool :=
  String.eqb (byteLowercase a) (byteLowercase b).

(** The [token] characters of a header name. *)
Definition isTchar (c : ascii) : bool :=
  let n := N_of_ascii c in
  existsb (N.eqb n) [33; 35; 36; 37; 38; 39; 42; 43; 45; 46; 94; 95; 96; 124; 126]%N
  || ((48 <=? n)%N && (n <=? 57)%N)
  || ((65 <=? n)%N && (n <=? 90)%N)
  || ((97 <=? n)%N && (n <=? 122)%N).

Fixpoint all_chars (f : ascii -> bool) (s : string) : bool :=
  match s with
  | EmptyString => true
  | String c r => f c && all_chars f r
  end.

Definition isHeaderName (name : string) : bool :=
  negb (String.eqb name "") && all_chars isTchar name.

(** HTTP whitespace: tab, line feed, carriage return, space. *)
Definition isHttpWhitespace (c : ascii) : bool :=
  existsb (N.eqb (N_of_ascii c)) [9; 10; 13; 32]%N.

Fixpoint stripLeading (s : string) : string :=
  match s with
  | EmptyString => EmptyString
  | String c r => if isHttpWhitespace c then stripLeading r else s
  end.

Fixpoint stripTrailing (s : string) : string :=
  match s with
  | EmptyString => EmptyString
  | String c r =>
      match stripTrailing r with
      | EmptyString => if isHttpWhitespace c then EmptyString else String c EmptyString
      | r' => String c r'
      end
  end.

(** A header value is normalized before it is stored. *)
Definition normalize (value : string) : string := stripLeading (stripTrailing value).

(** A header value holds no NUL, line feed or carriage return. *)
Definition isHeaderValue (value : string) : bool :=
  all_chars (fun c => negb (existsb (N.eqb (N_of_ascii c)) [0; 10; 13]%N)) value.

(** [Headers]: the header list. *)
Definition Headers := list (string * string).

Definition contains (h : Headers) (name : string) : bool :=
  existsb (fun e => same_name e.1 name) h.

(** The header list operation behind [set]: the first header named [name]
    takes [value] and the other headers of that name are removed; without
    such a header, the header is appended. *)
Fixpoint header_list_set (h : Headers) (name value : string) : Headers :=
  match h with
  | [] => [(name, value)]
  | (n, v) :: rest =>
      if same_name n name
      then (n, value) :: List.filter (fun e => negb (same_name e.1 name)) rest
      else (n, v) :: header_list_set rest name value
  end.

(** The header list operation behind [append]: the header takes the casing
    of the first header of that name and goes last. *)
Definition header_list_append (h : Headers) (name value : string) : Headers :=
  let name :=
    match List.find (fun e => same_name e.1 name) h with
    | Some e => e.1
    | None => name
    end in
  (h ++ [(name, value)])%list.

Definition Headers_set (h : Headers) (name value : string) : option Headers :=
  let value := normalize value in
  if isHeaderName name && isHeaderValue value
  then Some (header_list_set h name value) else None.

Definition Headers_append (h : Headers) (name value : string) : option Headers :=
  let value := normalize value in
  if isHeaderName name && isHeaderValue value
  then Some (header_list_append h name value) else None.

Definition Headers_has (h : Headers) (name : string) : option bool :=
  if isHeaderName name then Some (contains h name) else None.

(** [get]: the values of the headers named [name], joined by a comma and a
    space; [Some None] is [null]. *)
Definition Headers_get (h : Headers) (name : string) : option (option string) :=
  if isHeaderName name then
    Some (if contains h name
          then Some (JS.join ", " (map snd (List.filter (fun e => same_name e.1 name) h)))
          else None)
  else None.

(** What [body] accepts.  An [ArrayBuffer] is given by its [byteLength], a
    [Blob] by its [size] and [type], and a value that is none of the
    [BodyInit] classes nor a string by what [JSON.stringify] does with it:
    it returns the text [json], it throws [e] (a cyclic value, a [BigInt], a
    [toJSON] that throws), or it returns [undefined] (a function, a symbol,
    [undefined] itself). *)
Inductive BodyValue :=
| ArrayBufferValue (byteLength : Z)
| BlobValue (size : Z) (type : string)
| ReadableStreamValue
| FormDataValue
| URLSearchParamsValue (entries : URLSearchParams)
| StringValue (s : string)
| JSONValue (json : string)
| UnserializableValue (e : JsValue)
| UndefinedValue.

(** [#body] and [#headers] of a builder. *)
Record Builder := mkBuilder {
  b_body : option BodyValue;
  b_headers : Headers
}.

(** [Builder.body] and [RequestBuilder.body]; for a JSON value the stored
    body is the string [json].  Where [JSON.stringify] throws, so does
    [body]; where it returns [undefined], reading [json.length] throws a
    [TypeError].  A call that throws returns [None]: what it has assigned
    before throwing is not returned. *)
Definition body (b : Builder) (value : BodyValue) : option Builder :=
  let h := b_headers b in
  match value with
  | ArrayBufferValue byteLength =>
      h ← Headers_set h "content-length" (JS.String_of byteLength);
      Some (mkBuilder (Some value) h)
  | BlobValue size type =>
      h ← Headers_set h "content-length" (JS.String_of size);
      h ← Headers_set h "content-type"
            (if String.eqb type "" then "application/octet-stream" else type);
      Some (mkBuilder (Some value) h)
  | ReadableStreamValue => Some (mkBuilder (Some value) h)
  | FormDataValue => Some (mkBuilder (Some value) h)
  | URLSearchParamsValue _ =>
      h ← Headers_set h "content-type" "application/x-www-form-urlencoded;charset=utf-8";
      Some (mkBuilder (Some value) h)
  | StringValue s =>
      h ← Headers_set h "content-length" (JS.String_of (JS.strlen s));
      has ← Headers_has h "content-type";
      h ← (if negb has then Headers_set h "content-type" "text/plain;charset=utf-8"
           else Some h);
      Some (mkBuilder (Some value) h)
  | JSONValue json =>
      h ← Headers_set h "content-length" (JS.String_of (JS.strlen json));
      has ← Headers_has h "content-type";
      h ← (if negb has then Headers_set h "content-type" "application/json;charset=utf-8"
           else Some h);
      Some (mkBuilder (Some (StringValue json)) h)
  | UnserializableValue _ => None
  | UndefinedValue => None
  end.

(** [Builder.header] and [RequestBuilder.header] *)
Definition header (b : Builder) (key : string) (value : Scalar) (append : option bool)
    : option Builder :=
  let h := b_headers b in
  let v := String_of_scalar value in
  h ← (if truthy append then Headers_append h key v else Headers_set h key v);
  Some (mkBuilder (b_body b) h).

(** [RequestBuilder.headers]: [values] stands for [Object.entries(values)];
    the loop stops at the first call of [header] that throws. *)
Definition headers (b : Builder) (values : list (string * Scalar)) (append : option bool)
    : option Builder :=
  fold_left (fun b' e => b' ← b'; header b' e.1 e.2 append) values (Some b).

End Fluent.

(** The number of bytes of the UTF-8 encoding of a string of code units
    below 256: one byte below 128, two from there on. *)
Fixpoint utf8_length (s : string) : Z :=
  match s with
  | EmptyString => 0
  | String c r => (if (N_of_ascii c <? 128)%N then 1 else 2) + utf8_length r
  end.

(** The values of the headers named [name], in order. *)
Definition header_values (h : Fluent.Headers) (name : string) : list string :=
  map snd (List.filter (fun e => Fluent.same_name e.1 name) h).

(** The values [values] gives the header [name], as [header] stores them. *)
Definition given_values (values : list (string * Fluent.Scalar)) (name : string)
    : list string :=
  map (fun e => Fluent.normalize (Fluent.String_of_scalar e.2))
      (List.filter (fun e => Fluent.same_name e.1 name) values).

(** The code units below 128. *)
Definition isAscii (c : ascii) : bool := (N_of_ascii c <? 128)%N.

(** The last value [init] gives a name, if any. *)
Definition last_value (init : list (string * string)) (name : string) : option string :=
  last (Fluent.URLSearchParams_getAll init name).

(** ** The platform's checks *)

(** [AbortSignal.timeout(ms)] and [new Request(url, init)] throw on the
    arguments the platform refuses, and the sources call both before the
    [try] block of an attempt.  What is thrown depends on the runtime and,
    for the constructor, on parts of the request that are not represented
    here (a URL with credentials, [mode: "navigate"], a body on GET or HEAD,
    a stream without [duplex]).  A [Runtime] says what the platform throws,
    if anything: [timeout_refused ms] for [AbortSignal.timeout(ms)], and
    [request_refused m] for [new Request(url, init)] on the URL and the init
    of the request at hand when its method is [m]. *)
Record Runtime := mkRuntime {
  timeout_refused : Z -> option JsValue;
  request_refused : string -> option JsValue
}.

(** [new TypeError(message)] *)
Definition TypeError (message : string) : JsValue :=
  JsError TypeErrorC "TypeError" message None None.

(** The methods the Fetch standard forbids, compared byte-case-insensitively. *)
Definition forbiddenMethod (m : string) : bool :=
  existsb (String.eqb (toUpperCase m)) ["CONNECT"; "TRACE"; "TRACK"].

(** A method is a token. *)
Definition isMethod (m : string) : bool :=
  negb (String.eqb m "") && Fluent.all_chars Fluent.isTchar m.

Module Platform.

(** What [AbortSignal.timeout(ms)] throws, if anything: every runtime
    refuses a negative delay. *)
Definition timeout_refusal (rt : Runtime) (ms : Z) : option JsValue :=
  match timeout_refused rt ms with
  | Some e => Some e
  | None =>
      if ms <? 0
      then Some (TypeError "Value is outside the 'unsigned long long' value range.")
      else None
  end.

(** What [new Request(url, init)] throws, if anything: every runtime refuses
    a method that is not a token, and the forbidden methods. *)
Definition Request_refusal (rt : Runtime) (m : string) : option JsValue :=
  match request_refused rt m with
  | Some e => Some e
  | None =>
      if negb (isMethod m)
      then Some (TypeError ("'" ++ m ++ "' is not a valid HTTP method."))
      else if forbiddenMethod m
      then Some (TypeError ("'" ++ m ++ "' HTTP method is unsupported."))
      else None
  end.

(** [AbortSignal.timeout(ms)] *)
Definition AbortSignal_timeout (rt : Runtime) (ms : Z) : M nat :=
  match timeout_refusal rt ms with
  | Some e => throw e
  | None => on_signals (Client.AbortSignal_timeout ms)
  end.

(** [new Request(url, { ...init, method: m, signal: sig })] *)
Definition Request_new (rt : Runtime) (m : string) (sig : nat) : M Request :=
  match Request_refusal rt m with
  | Some e => throw e
  | None => ret (Request_new m sig)
  end.

(** The body of [run] in [Builder.response]; [self] is the recursive call. *)
Definition run_body (rt : Runtime) (b : Client.Builder) (self : Z -> M Response)
    (currentAttempt : Z) : M Response :=
  let o := Client.b_options b in
  let retry := default 0 (Client.retry o) in
  let retryDelay := default 500 (Client.retryDelay o) in
  let timeout := default 10000 (Client.timeout o) in
  timeoutSignal ← AbortSignal_timeout rt timeout;
  signal ← on_signals (Client.mergeAbortSignals timeoutSignal (Client.b_signal b));
  request ← Request_new rt (Client.b_method b) signal;
  call_hook (Client.beforeSend o) EvBeforeSend request;;
  try_catch
    (response ← call_fetch (Client.fetch o) request;
     call_hook (Client.onResponse o) EvOnResponse response;;
     if ok response then ret response
     else if negb (Client.shouldRetryRequest request response currentAttempt retry)
     then throw (Client.ServerError response)
     else
       let backoffDelay := Client.backoffDelay retryDelay currentAttempt response in
       emit (EvWarn (Client.warning currentAttempt retry response backoffDelay));;
       delay backoffDelay;;
       self (currentAttempt + 1))
    (fun err => throw (Client.handleError err)).

Fixpoint run_fuel (rt : Runtime) (fuel : nat) (b : Client.Builder) (currentAttempt : Z)
    : M Response :=
  match fuel with
  | O => run_body rt b (fun _ w => (w, Diverge)) currentAttempt
  | S fuel' => run_body rt b (run_fuel rt fuel' b) currentAttempt
  end.

(** [run]: a retry happens only while [currentAttempt < retry], which
    bounds the depth of the recursion. *)
Definition run (rt : Runtime) (b : Client.Builder) (currentAttempt : Z) : M Response :=
  run_fuel rt (Z.to_nat (default 0 (Client.retry (Client.b_options b)) - currentAttempt))
    b currentAttempt.

(** [Builder.response()] *)
Definition response (rt : Runtime) (b : Client.Builder) : M Response := run rt b 1.

(** What the platform throws before the [try] block of an attempt of
    [Builder.response], if anything. *)
Definition refusal (rt : Runtime) (b : Client.Builder) : option JsValue :=
  match timeout_refusal rt (default 10000 (Client.timeout (Client.b_options b))) with
  | Some e => Some e
  | None => Request_refusal rt (Client.b_method b)
  end.

(** The body of [tryRequest]; [self] is the recursive call.  The request is
    constructed once the timer is armed, outside the [try] statement. *)
Definition tryRequest_body (rt : Runtime) (context : Legacy.RequestContext)
    (self : Z -> Legacy.HttpResult Response) (currentAttempt : Z)
    : Legacy.HttpResult Response :=
  let retries := default 1 (Legacy.retries context) in
  let retryDelay := default 1000 (Legacy.retryDelay context) in
  let userSignal := Legacy.c_signal context in
  let timeout := default 10000 (Legacy.timeout context) in
  timeoutSignal ← on_signals AbortController_new;
  let availableSignals := (timeoutSignal :: option_list userSignal) in
  emit (EvSetTimeout timeoutSignal timeout);;
  mergedSignal ← on_signals (Legacy.mergeSignals availableSignals);
  request ← Request_new rt (Legacy.c_method context) mergedSignal;
  try_finally
    (try_catch
       (response ← call_fetch (Legacy.fetch context) request;
        if negb (ok response) then ret (Legacy.failure (Legacy.serverError response))
        else ret (Legacy.success response))
       (fun err =>
          match err with
          | JsString err =>
              if JS.includes err Legacy.TIMEOUT_MESSAGE then
                if currentAttempt <? retries then
                  delay (retryDelay * 2 ^ currentAttempt);;
                  self (currentAttempt + 1)
                else ret (Legacy.failure (Legacy.clientError Legacy.TIMEOUT_MESSAGE))
              else ret (Legacy.failure (Legacy.clientError ("Request was aborted: " ++ err)))
          | _ =>
              if instanceof err DOMExceptionC && String.eqb (err_name err) "AbortError"
              then ret (Legacy.failure (Legacy.clientError (err_message err)))
              else if instanceof err TypeErrorC
                      && JS.includes (err_message err) "Failed to fetch."
              then
                if currentAttempt <? retries then
                  delay (retryDelay * 2 ^ currentAttempt);;
                  self (currentAttempt + 1)
                else ret (Legacy.failure (Legacy.clientError "Network error."))
              else ret (Legacy.failure (Legacy.clientError "Unknown error."))
          end))
    (emit (EvClearTimeout timeoutSignal)).

Fixpoint tryRequest_fuel (rt : Runtime) (fuel : nat) (context : Legacy.RequestContext)
    (currentAttempt : Z) : Legacy.HttpResult Response :=
  match fuel with
  | O => tryRequest_body rt context (fun _ w => (w, Diverge)) currentAttempt
  | S fuel' => tryRequest_body rt context (tryRequest_fuel rt fuel' context) currentAttempt
  end.

(** [tryRequest]: a retry happens only while [currentAttempt < retries]. *)
Definition tryRequest (rt : Runtime) (context : Legacy.RequestContext) (currentAttempt : Z)
    : Legacy.HttpResult Response :=
  tryRequest_fuel rt (Z.to_nat (default 1 (Legacy.retries context) - currentAttempt))
    context currentAttempt.

End Platform.

(** A runtime that refuses what the standards say and nothing else: a delay
    beyond [2 ^ 53 - 1], next to what every runtime refuses. *)
Definition standard : Runtime :=
  mkRuntime
    (fun ms =>
       if 2 ^ 53 - 1 <? ms
       then Some (TypeError "Value is outside the 'unsigned long long' value range.")
       else None)
    (fun _ => None).

(** The standard runtime on a request whose URL carries credentials. *)
Definition credentials_in_url : Runtime :=
  mkRuntime (timeout_refused standard)
    (fun _ =>
       Some (TypeError "Request cannot be constructed from a URL that includes credentials.")).

(** ** Further scenarios *)

(** [retry: 0] and the forbidden method TRACE over a server that always
    answers 503. *)
Definition trace_scenario : Client.Builder :=
  Client.mkBuilder "TRACE"
    (Client.mkOptions None unavailable_transport None (Some 0) None None) None.

(** An [onResponse] hook that throws, with [retry: 3], over a server that
    always answers 503. *)
Definition throwing_hook_scenario : Client.Builder :=
  Client.mkBuilder "GET"
    (Client.mkOptions None unavailable_transport
       (Some (fun _ => Some (JsError ErrorC "Error" "not now" None None)))
       (Some 3) None None) None.

(** 503 with [Retry-After: 5 apples] on the first call, 200 on the next
    ones, and [retry: 2], [retryDelay: 100] over that transport. *)
Definition response_apples : Response :=
  mkResponse 503 (Some "5 apples") "Service Unavailable".

Definition apples_transport : Fetch :=
  fun k _ => match k with
             | 1%nat => Resolve response_apples
             | _ => Resolve response_200
             end.

Definition apples_scenario : Client.Builder :=
  Client.mkBuilder "GET"
    (Client.mkOptions None apples_transport None (Some 2) (Some 100) None) None.

(** A caller signal aborted with the reason ["stop"] before the request is
    sent, and a request with that signal. *)
Definition aborted_caller_store : Store :=
  [mkSignal true (Some (JsString "stop")) []].

Definition aborted_caller_scenario : Client.Builder :=
  Client.mkBuilder "GET"
    (Client.mkOptions None unavailable_transport None None None None) (Some 0%nat).

(** * Proofs *)

(** ** Sanity checks of the primitives *)

Example trim_example : JS.trim "  /a b/ " = "/a b/".
Proof. reflexivity. Qed.

Example slice_examples :
  JS.slice "/abc/" 1 None = "abc/" /\ JS.slice "abc/" 0 (Some (-1)) = "abc"
  /\ JS.slice "" 0 (Some (-1)) = "".
Proof. repeat split. Qed.

Example parseInt_examples :
  JS.parseInt " 12abc" = Some 12 /\ JS.parseInt "abc" = None
  /\ JS.parseInt "-5" = Some (-5) /\ JS.parseInt "" = None.
Proof. repeat split. Qed.

Example String_of_examples :
  JS.String_of 503 = "503" /\ JS.String_of (-7) = "-7" /\ JS.String_of 0 = "0".
Proof. repeat split. Qed.

Example pathname_example :
  Client.pathname [Client.SegString " /users/ "; Client.SegNumber 42; Client.SegUndefined;
                   Client.SegString "/"; Client.SegString "posts"] = "users/42/posts".
Proof. reflexivity. Qed.

Example handleError_examples :
  Client.handleError (DOMException "The operation was aborted." "AbortError")
    = Client.AbortError "The operation was aborted."
        (Some (DOMException "The operation was aborted." "AbortError"))
  /\ Client.handleError (JsString "boom") = Client.UnknownError "An unknown error occurred."
  /\ Client.handleError (Client.ServerError response_503) = Client.ServerError response_503.
Proof. repeat split. Qed.

(** ** Strings *)

Lemma append_cons c (q p : string) : String c q ++ p = String c (q ++ p).
Proof. reflexivity. Qed.

Lemma append_nil (p : string) : "" ++ p = p.
Proof. reflexivity. Qed.

Lemma append_assoc3 (a b c : string) : (a ++ b) ++ c = a ++ (b ++ c).
Proof.
  induction a as [|x a IH]; [reflexivity|].
  rewrite !append_cons, IH. reflexivity.
Qed.

Lemma length_append (q p : string) :
  String.length (q ++ p) = (String.length q + String.length p)%nat.
Proof.
  induction q as [|c q IH]; [reflexivity|].
  rewrite append_cons. cbn. rewrite IH. reflexivity.
Qed.

Lemma substring_0_length s : String.substring 0 (String.length s) s = s.
Proof. induction s as [|c s IH]; cbn; [reflexivity|]. rewrite IH. reflexivity. Qed.

Lemma substring_skip q : forall m p,
  String.substring (String.length q) m (q ++ p) = String.substring 0 m p.
Proof.
  induction q as [|c q IH]; intros m p; [reflexivity|].
  rewrite append_cons. cbn. apply IH.
Qed.

Lemma substring_take q : forall p,
  String.substring 0 (String.length q) (q ++ p) = q.
Proof.
  induction q as [|c q IH]; intros p.
  - rewrite append_nil. destruct p; reflexivity.
  - rewrite append_cons. cbn. rewrite IH. reflexivity.
Qed.

Lemma substring_split s : forall n m,
  (n + m = String.length s)%nat ->
  s = String.substring 0 n s ++ String.substring n m s.
Proof.
  induction s as [|c s IH]; intros n m H; cbn in H.
  - destruct n, m; try discriminate. reflexivity.
  - destruct n as [|n]; cbn.
    + destruct m as [|m]; [discriminate|]. cbn. injection H as H.
      subst m. rewrite substring_0_length. reflexivity.
    + rewrite append_cons. f_equal. apply IH. lia.
Qed.

(** [endsWith] and [startsWith] say what they should. *)
Lemma endsWith_iff s p : JS.endsWith s p = true <-> exists q, s = q ++ p.
Proof.
  unfold JS.endsWith. split.
  - intros H. apply andb_true_iff in H as [Hle He].
    apply Nat.leb_le in Hle. apply String.eqb_eq in He.
    exists (String.substring 0 (String.length s - String.length p) s).
    pose proof (substring_split s (String.length s - String.length p) (String.length p)
                  ltac:(lia)) as Hs.
    rewrite He in Hs. exact Hs.
  - intros [q ->]. rewrite length_append. apply andb_true_iff. split.
    + apply Nat.leb_le. lia.
    + replace (String.length q + String.length p - String.length p)%nat
        with (String.length q) by lia.
      rewrite substring_skip, substring_0_length. apply String.eqb_refl.
Qed.

Lemma startsWith_iff s p : JS.startsWith s p = true <-> exists q, s = p ++ q.
Proof.
  unfold JS.startsWith. revert s. induction p as [|c p IH]; intros s.
  - split; [intros _; exists s; reflexivity|intros _; destruct s; reflexivity].
  - destruct s as [|d s]; [split; [discriminate|intros [q Hq]; discriminate]|].
    cbn [String.prefix]. destruct (ascii_dec c d) as [->|Hne].
    + rewrite IH. split; intros [q Hq]; exists q.
      * rewrite Hq. reflexivity.
      * rewrite append_cons in Hq. injection Hq as Hq. exact Hq.
    + split; [discriminate|]. intros [q Hq]. rewrite append_cons in Hq.
      injection Hq as H1 H2. congruence.
Qed.

(** The two slices [#pathname] takes. *)
Lemma slice_1 c r : JS.slice (String c r) 1 None = r.
Proof.
  unfold JS.slice, JS.strlen. cbn [String.length].
  replace (1 <? 0) with false by reflexivity.
  replace (Z.of_nat (S (String.length r)) <? 0) with false by (symmetry; apply Z.ltb_ge; lia).
  replace (Z.to_nat (Z.min 1 (Z.of_nat (S (String.length r))))) with 1%nat by lia.
  replace (Z.to_nat _) with (String.length r) by lia.
  cbn. apply substring_0_length.
Qed.

Lemma slice_0_m1 q c : JS.slice (q ++ String c "") 0 (Some (-1)) = q.
Proof.
  unfold JS.slice, JS.strlen. rewrite length_append. cbn [String.length].
  replace (0 <? 0) with false by reflexivity.
  replace (-1 <? 0) with true by reflexivity.
  replace (Z.to_nat (Z.min 0 _)) with 0%nat by lia.
  replace (Z.to_nat _) with (String.length q) by lia.
  apply substring_take.
Qed.

(** ** [HttpClient.#pathname] *)

Lemma strip_leading_other c r : c <> "/"%char -> strip_leading_slash (String c r) = String c r.
Proof.
  intros Hc. destruct c as [[] [] [] [] [] [] [] []]; try reflexivity. congruence.
Qed.

Lemma strip_leading_source t :
  (if JS.startsWith t "/" then JS.slice t 1 None else t) = strip_leading_slash t.
Proof.
  destruct t as [|c r]; [reflexivity|].
  unfold JS.startsWith. cbn [String.prefix].
  destruct (ascii_dec "/" c) as [<-|Hne].
  - destruct r; rewrite slice_1; reflexivity.
  - rewrite strip_leading_other by congruence. reflexivity.
Qed.

Lemma strip_trailing_cases t :
  (exists q, t = q ++ "/" /\ strip_trailing_slash t = q)
  \/ (JS.endsWith t "/" = false /\ strip_trailing_slash t = t).
Proof.
  induction t as [|c r IH]; [right; split; reflexivity|].
  destruct r as [|d r'].
  - cbn [strip_trailing_slash]. destruct (Ascii.eqb_spec c "/") as [->|Hne].
    + left. exists "". split; reflexivity.
    + right. split; [|reflexivity].
      apply not_true_is_false. intros H. apply endsWith_iff in H as [q Hq].
      destruct q as [|c' [|c'' q]]; inversion Hq; congruence.
  - change (strip_trailing_slash (String c (String d r')))
      with (String c (strip_trailing_slash (String d r'))).
    destruct IH as [(q & Hq & Hs)|[He Hs]].
    + left. exists (String c q). rewrite Hs, Hq. split; reflexivity.
    + right. rewrite Hs. split; [|reflexivity].
      apply not_true_is_false. intros H. apply endsWith_iff in H as [q Hq].
      destruct q as [|c' q]; [inversion Hq|].
      rewrite append_cons in Hq. injection Hq as _ Hq.
      assert (JS.endsWith (String d r') "/" = true) by (apply endsWith_iff; eauto).
      congruence.
Qed.

Lemma strip_trailing_source t :
  (if JS.endsWith t "/" then JS.slice t 0 (Some (-1)) else t) = strip_trailing_slash t.
Proof.
  destruct (strip_trailing_cases t) as [(q & Hq & Hs)|[He Hs]].
  - assert (He : JS.endsWith t "/" = true) by (apply endsWith_iff; eauto).
    rewrite He, Hs, Hq. apply slice_0_m1.
  - rewrite He, Hs. reflexivity.
Qed.

(** One iteration of the loop pushes what the description keeps. *)
Lemma pathname_step (segments : list string) seg :
  match seg with
  | Client.SegUndefined | Client.SegNull => segments
  | Client.SegNumber n => (segments ++ [JS.String_of n])%list
  | Client.SegString segment =>
      let segment := JS.trim segment in
      let segment :=
        if JS.startsWith segment "/" then JS.slice segment 1 None else segment in
      let segment :=
        if JS.endsWith segment "/" then JS.slice segment 0 (Some (-1)) else segment in
      if JS.strlen segment >? 0 then (segments ++ [segment])%list else segments
  end = (segments ++ option_list (spec_segment seg))%list.
Proof.
  destruct seg as [n|s| |]; cbn [spec_segment option_list]; rewrite ?app_nil_r; try reflexivity.
  cbv zeta. rewrite strip_leading_source, strip_trailing_source.
  destruct (strip_trailing_slash _) as [|c u]; cbn; rewrite ?app_nil_r; reflexivity.
Qed.

Lemma pathname_loop_spec path : Client.pathname_loop path = omap spec_segment path.
Proof.
  unfold Client.pathname_loop.
  enough (H : forall acc, fold_left
     (fun (segments : list string) (segment : Client.PathSegment) =>
         match segment with
         | Client.SegUndefined | Client.SegNull => segments
         | Client.SegNumber n => (segments ++ [JS.String_of n])%list
         | Client.SegString segment =>
             let segment := JS.trim segment in
             let segment :=
               if JS.startsWith segment "/" then JS.slice segment 1 None else segment in
             let segment :=
               if JS.endsWith segment "/" then JS.slice segment 0 (Some (-1)) else segment in
             if JS.strlen segment >? 0 then (segments ++ [segment])%list else segments
         end) path acc = (acc ++ omap spec_segment path)%list) by apply (H []).
  induction path as [|seg path IH]; intros acc; cbn [fold_left omap list_omap].
  - rewrite app_nil_r. reflexivity.
  - rewrite pathname_step, IH, <- app_assoc. f_equal.
    destruct (spec_segment seg); reflexivity.
Qed.

(** A stringified integer holds no slash. *)
Lemma uint_no_slash d : forall q r, NilEmpty.string_of_uint d <> q ++ String "/" r.
Proof.
  induction d as [|d IH|d IH|d IH|d IH|d IH|d IH|d IH|d IH|d IH|d IH];
    intros q r H; cbn [NilEmpty.string_of_uint] in H.
  all: destruct q as [|c q]; [discriminate H|].
  all: try discriminate H.
  all: rewrite append_cons in H; injection H as _ H; exact (IH _ _ H).
Qed.

Lemma String_of_no_slash n q r : JS.String_of n <> q ++ String "/" r.
Proof.
  unfold JS.String_of, NilZero.string_of_int. intros H.
  assert (Hu : forall d q r, NilZero.string_of_uint d <> q ++ String "/" r).
  { intros d q' r' Hd. unfold NilZero.string_of_uint in Hd.
    destruct d; try (exact (uint_no_slash _ _ _ Hd)).
    destruct q' as [|c [|c' q']]; discriminate Hd. }
  destruct (Z.to_int n) as [d|d].
  - exact (Hu _ _ _ H).
  - destruct q as [|c q]; [discriminate H|].
    rewrite append_cons in H. injection H as _ H. exact (Hu _ _ _ H).
Qed.

Lemma String_of_nonempty n : JS.String_of n <> "".
Proof.
  unfold JS.String_of, NilZero.string_of_int, NilZero.string_of_uint.
  destruct (Z.to_int n) as [d|d]; [|discriminate].
  destruct d; discriminate.
Qed.

Lemma spec_segment_nonempty seg u : spec_segment seg = Some u -> u <> "".
Proof.
  destruct seg as [n|s| |]; cbn [spec_segment]; intros H; try discriminate.
  - injection H as <-. apply String_of_nonempty.
  - destruct (strip_trailing_slash _); [discriminate|]. injection H as <-. discriminate.
Qed.

Lemma strip_tidy t :
  JS.startsWith t "//" = false -> JS.endsWith t "//" = false ->
  JS.startsWith (strip_trailing_slash (strip_leading_slash t)) "/" = false
  /\ JS.endsWith (strip_trailing_slash (strip_leading_slash t)) "/" = false.
Proof.
  intros H1 H2.
  assert (HA : JS.startsWith (strip_leading_slash t) "/" = false).
  { apply not_true_is_false. intros H. apply startsWith_iff in H as [q Hq].
    destruct t as [|c r]; [discriminate Hq|].
    destruct (ascii_dec c "/") as [->|Hne].
    - cbn [strip_leading_slash] in Hq. subst r.
      assert (JS.startsWith (String "/" ("/" ++ q)) "//" = true)
        by (apply startsWith_iff; exists q; reflexivity).
      congruence.
    - rewrite strip_leading_other in Hq by assumption. inversion Hq. congruence. }
  assert (HB : JS.endsWith (strip_leading_slash t) "//" = false).
  { apply not_true_is_false. intros H. apply endsWith_iff in H as [q Hq].
    destruct t as [|c r]; [destruct q; discriminate Hq|].
    destruct (ascii_dec c "/") as [->|Hne].
    - cbn [strip_leading_slash] in Hq. subst r.
      assert (JS.endsWith (String "/" (q ++ "//")) "//" = true)
        by (apply endsWith_iff; exists (String "/" q); reflexivity).
      congruence.
    - rewrite strip_leading_other in Hq by assumption.
      assert (JS.endsWith (String c r) "//" = true) by (apply endsWith_iff; eauto).
      congruence. }
  destruct (strip_trailing_cases (strip_leading_slash t)) as [(q & Hq & Hs)|[He Hs]];
    rewrite Hs; clear Hs; [|auto].
  split; apply not_true_is_false; intros H.
  - apply startsWith_iff in H as [q' Hq']. rewrite Hq' in Hq.
    assert (JS.startsWith (strip_leading_slash t) "/" = true).
    { apply startsWith_iff. exists (q' ++ "/"). rewrite Hq. apply append_assoc3. }
    congruence.
  - apply endsWith_iff in H as [q' Hq']. rewrite Hq' in Hq.
    assert (JS.endsWith (strip_leading_slash t) "//" = true).
    { apply endsWith_iff. exists q'. rewrite Hq. apply append_assoc3. }
    congruence.
Qed.

Lemma spec_segment_tidy seg u :
  tidy seg -> spec_segment seg = Some u ->
  JS.startsWith u "/" = false /\ JS.endsWith u "/" = false.
Proof.
  destruct seg as [n|s| |]; cbn [spec_segment tidy]; intros Ht H; try discriminate.
  - injection H as <-. split; apply not_true_is_false; intros H.
    + apply startsWith_iff in H as [q Hq]. exact (String_of_no_slash n "" q Hq).
    + apply endsWith_iff in H as [q Hq]. exact (String_of_no_slash n q "" Hq).
  - destruct Ht as [H1 H2]. pose proof (strip_tidy _ H1 H2) as Hu.
    destruct (strip_trailing_slash _); [discriminate|]. injection H as <-. exact Hu.
Qed.

Lemma join_startsWith (pieces : list string) :
  Forall (fun p => p <> "" /\ JS.startsWith p "/" = false) pieces ->
  JS.startsWith (JS.join "/" pieces) "/" = false.
Proof.
  intros H. destruct H as [|p rest [Hne Hp] _]; [reflexivity|].
  destruct p as [|c p]; [congruence|].
  assert (Hc : c <> "/"%char).
  { intros ->. assert (JS.startsWith (String "/" p) "/" = true)
      by (apply startsWith_iff; exists p; reflexivity). congruence. }
  apply not_true_is_false. intros Hs. apply startsWith_iff in Hs as [q Hq].
  cbn [JS.join] in Hq. destruct rest.
  - inversion Hq. congruence.
  - rewrite append_cons in Hq. inversion Hq. congruence.
Qed.

Lemma Forall_omap_spec (P : string -> Prop) path :
  (forall seg u, In seg path -> spec_segment seg = Some u -> P u) ->
  Forall P (omap spec_segment path).
Proof.
  induction path as [|seg path IH]; intros H; cbn [omap list_omap]; [constructor|].
  destruct (spec_segment seg) as [u|] eqn:E.
  - constructor; [apply (H seg); [left; reflexivity|exact E]|].
    apply IH. intros s' u' Hin. apply H. right. exact Hin.
  - apply IH. intros s' u' Hin. apply H. right. exact Hin.
Qed.

(** C8 (amended).  For every list of path segments, [#pathname] skips
    [null] and [undefined], stringifies a number unchanged, trims a string
    and removes at most one leading and at most one trailing slash from it,
    drops what became empty and joins the rest with a slash; every joined
    segment is non-empty.  When no string segment, once trimmed, begins or
    ends with two slashes, the pathname does not begin with a slash and no
    joined segment begins or ends with one, so no empty segment arises where
    two segments meet. *)
Theorem C8_pathname_refines_description (path : list Client.PathSegment) :
  Client.pathname path = spec_pathname path
  /\ Forall (fun p => p <> "") (Client.pathname_loop path)
  /\ (Forall tidy path ->
        JS.startsWith (Client.pathname path) "/" = false
        /\ Forall (fun p => JS.startsWith p "/" = false /\ JS.endsWith p "/" = false)
             (Client.pathname_loop path)).
Proof.
  unfold Client.pathname, spec_pathname. rewrite pathname_loop_spec.
  split; [reflexivity|]. split.
  - apply Forall_omap_spec. intros seg u _. apply spec_segment_nonempty.
  - intros Ht. rewrite Forall_forall in Ht. split.
    + apply join_startsWith. apply Forall_omap_spec. intros seg u Hin Hu. split.
      * eapply spec_segment_nonempty; eassumption.
      * eapply spec_segment_tidy; [|eassumption]. apply Ht. apply list_elem_of_In. exact Hin.
    + apply Forall_omap_spec. intros seg u Hin Hu.
      eapply spec_segment_tidy; [|eassumption]. apply Ht. apply list_elem_of_In. exact Hin.
Qed.

Lemma C8_tidy_path :
  Forall tidy [Client.SegString " /users/ "; Client.SegNumber 42; Client.SegNull;
               Client.SegString "posts/"]
  /\ Client.pathname [Client.SegString " /users/ "; Client.SegNumber 42; Client.SegNull;
                      Client.SegString "posts/"] = "users/42/posts"
  /\ JS.startsWith
       (Client.pathname [Client.SegString " /users/ "; Client.SegNumber 42; Client.SegNull;
                         Client.SegString "posts/"]) "/" = false.
Proof.
  assert (Ht : Forall tidy [Client.SegString " /users/ "; Client.SegNumber 42; Client.SegNull;
                            Client.SegString "posts/"]).
  { repeat constructor. }
  split; [exact Ht|]. split; [reflexivity|].
  exact (proj1 (proj2 (proj2 (C8_pathname_refines_description _)) Ht)).
Defined.

(** C8 as stated fails: a segment with two leading slashes keeps one, and a
    segment with two trailing slashes leaves an empty segment at the
    boundary. *)
Lemma C8_counterexample :
  JS.startsWith (Client.pathname [Client.SegString "//a"]) "/" = true
  /\ Client.pathname [Client.SegString "a//"; Client.SegString "b"] = "a//b".
Proof. split; reflexivity. Qed.

(** ** Abort signals *)

Lemma fold_left_preserves {A B} (P : A -> Prop) (f : A -> B -> A) (l : list B) :
  (forall a x, P a -> P (f a x)) -> forall a, P a -> P (fold_left f l a).
Proof. intros Hf. induction l as [|x l IH]; cbn; auto. Qed.

Lemma fold_left_agree {A B} (P : A -> Prop) (f g : A -> B -> A) (l : list B) :
  (forall a x, P a -> f a x = g a x /\ P (f a x)) ->
  forall a, P a -> fold_left f l a = fold_left g l a.
Proof.
  intros H. induction l as [|x l IH]; intros a Ha; cbn; [reflexivity|].
  destruct (H a x Ha) as [He Hp]. rewrite <- He. apply IH. exact Hp.
Qed.

(** No operation on listeners creates or drops a signal. *)
Lemma length_removeEventListener st id l :
  length (removeEventListener st id l) = length st.
Proof. unfold removeEventListener. apply length_alter. Qed.

Lemma length_addEventListener st id l once :
  length (addEventListener st id l once) = length st.
Proof.
  unfold addEventListener. destruct (registered st id l); [reflexivity|apply length_alter].
Qed.

Lemma length_removeFromAll st sources l :
  length (removeFromAll st sources l) = length st.
Proof.
  unfold removeFromAll.
  apply (fold_left_preserves (fun s => length s = length st)); [|reflexivity].
  intros a x Ha. rewrite length_removeEventListener. exact Ha.
Qed.

Lemma length_abort fuel : forall st id r, length (abort fuel st id r) = length st.
Proof.
  induction fuel as [|fuel IH]; intros st id r; cbn [abort]; [reflexivity|].
  destruct (st !! id) as [s|]; [|reflexivity].
  destruct (aborted s); [reflexivity|].
  apply (fold_left_preserves (fun s' => length s' = length st)).
  - intros a [l once] Ha. cbn [fst snd].
    destruct (registered a id l); [|exact Ha].
    destruct l as [target fwd|target fwd sources].
    + rewrite IH. destruct once; [rewrite length_removeEventListener|]; exact Ha.
    + rewrite length_removeFromAll.
      destruct once; [rewrite length_removeEventListener|]; exact Ha.
  - apply length_insert.
Qed.

Lemma mergeAbortSignals_fst t u st : (Client.mergeAbortSignals t u st).1 = length st.
Proof. reflexivity. Qed.

Lemma length_mergeAbortSignals t u st :
  length (Client.mergeAbortSignals t u st).2 = S (length st).
Proof.
  unfold Client.mergeAbortSignals, AbortController_new, AbortController_abort.
  cbn [snd]. rewrite length_addEventListener.
  assert (H1 : forall s : Store, length s = S (length st) ->
     length (if signal_aborted s t then abort (S (length s)) s (length st) None
             else addEventListener s t (OnAbort (length st) false) false) = S (length st)).
  { intros s Hs. destruct (signal_aborted s t);
      [rewrite length_abort|rewrite length_addEventListener]; exact Hs. }
  destruct u as [u|].
  - destruct (signal_aborted _ u);
      [rewrite length_abort|rewrite length_addEventListener];
      apply H1; rewrite length_app; cbn; lia.
  - apply H1. rewrite length_app; cbn; lia.
Qed.

Lemma length_attempt_store b st : length (attempt_store b st) = S (S (length st)).
Proof.
  unfold attempt_store. rewrite length_mergeAbortSignals.
  cbn. rewrite length_app. cbn. lia.
Qed.

(** The dispatch terminates: a nested dispatch needs a signal that has not
    fired, and firing leaves one fewer. *)
Lemma unfired_le_length st : (unfired st <= length st)%nat.
Proof.
  unfold unfired. induction st as [|s st IH]; cbn; [lia|].
  destruct (aborted s); lia.
Qed.

Lemma unfired_alter f i st :
  (forall s, aborted (f s) = aborted s) -> unfired (alter f i st) = unfired st.
Proof.
  intros Hf. unfold unfired. revert i.
  induction st as [|s st IH]; intros [|i]; cbn; try reflexivity.
  - rewrite Hf. reflexivity.
  - f_equal. apply IH.
Qed.

Lemma unfired_fire st : forall id s s',
  st !! id = Some s -> aborted s = false -> aborted s' = true ->
  S (unfired (<[id := s']> st)) = unfired st.
Proof.
  unfold unfired. induction st as [|x st IH]; intros [|id] s s' Hl Hs Hs'; cbn in *;
    try discriminate.
  - injection Hl as ->. rewrite Hs, Hs'. reflexivity.
  - specialize (IH id s s' Hl Hs Hs').
    destruct (aborted x); cbn [Nat.add]; [exact IH|f_equal; exact IH].
Qed.

Lemma unfired_removeEventListener st id l :
  unfired (removeEventListener st id l) = unfired st.
Proof. apply unfired_alter. reflexivity. Qed.

Lemma unfired_removeFromAll st sources l :
  unfired (removeFromAll st sources l) = unfired st.
Proof.
  unfold removeFromAll.
  apply (fold_left_preserves (fun s => unfired s = unfired st)); [|reflexivity].
  intros a x Ha. rewrite unfired_removeEventListener. exact Ha.
Qed.

Lemma unfired_abort fuel : forall st id r, (unfired (abort fuel st id r) <= unfired st)%nat.
Proof.
  induction fuel as [|fuel IH]; intros st id r; cbn [abort]; [lia|].
  destruct (st !! id) as [s|] eqn:El; [|lia].
  destruct (aborted s) eqn:Es; [lia|].
  pose proof (unfired_fire st id s
                (mkSignal true (Some (default defaultAbortReason r)) (listeners s))
                El Es eq_refl) as Hfire.
  apply (fold_left_preserves (fun s' => (unfired s' <= unfired st)%nat)); [|lia].
  intros a [l once] Ha. cbn [fst snd].
  destruct (registered a id l); [|exact Ha].
  assert (Hb : (unfired (if once then removeEventListener a id l else a) <= unfired st)%nat)
    by (destruct once; rewrite ?unfired_removeEventListener; exact Ha).
  destruct l as [target fwd|target fwd sources].
  - etransitivity; [apply IH|exact Hb].
  - rewrite unfired_removeFromAll. exact Hb.
Qed.

Lemma abort_fuel : forall fuel1 fuel2 st id r,
  (unfired st < fuel1)%nat -> (unfired st < fuel2)%nat ->
  abort fuel1 st id r = abort fuel2 st id r.
Proof.
  induction fuel1 as [|fuel1 IH]; intros [|fuel2] st id r H1 H2; try lia.
  cbn [abort].
  destruct (st !! id) as [s|] eqn:El; [|reflexivity].
  destruct (aborted s) eqn:Es; [reflexivity|].
  pose proof (unfired_fire st id s
                (mkSignal true (Some (default defaultAbortReason r)) (listeners s))
                El Es eq_refl) as Hfire.
  apply (fold_left_agree (fun s' => (S (unfired s') <= unfired st)%nat)); [|lia].
  intros a [l once] Ha. cbn [fst snd].
  destruct (registered a id l); [|auto].
  assert (Hb : (S (unfired (if once then removeEventListener a id l else a)) <= unfired st)%nat)
    by (destruct once; rewrite ?unfired_removeEventListener; exact Ha).
  destruct l as [target fwd|target fwd sources].
  - split; [apply IH; lia|].
    etransitivity; [|exact Hb]. apply le_n_S, unfired_abort.
  - split; [reflexivity|]. rewrite unfired_removeFromAll. exact Hb.
Qed.

(** [controller.abort] is the dispatch run with any fuel above the number
    of signals. *)
Lemma AbortController_abort_fuel st id r fuel :
  (length st < fuel)%nat -> abort fuel st id r = AbortController_abort st id r.
Proof.
  intros H. pose proof (unfired_le_length st). apply abort_fuel; lia.
Qed.

(** C5.  The composer called on two source signals that have not fired,
    the first of which then fires with reason [r]: the output fires and the
    listeners of the composition are detached from both sources, but the
    reason of the output is the default [AbortError], whatever [r] is. *)
Theorem C5_first_fire_drops_reason (r : JsValue) :
  signal_aborted (Client.mergeAbortSignals 0 (Some 1%nat) unfired_store).2 2 = false
  /\ signal_listeners (Client.mergeAbortSignals 0 (Some 1%nat) unfired_store).2 0
     = [OnAbort 2 false]
  /\ signal_listeners (Client.mergeAbortSignals 0 (Some 1%nat) unfired_store).2 1
     = [OnAbort 2 false]
  /\ signal_aborted
       (AbortController_abort
          (Client.mergeAbortSignals 0 (Some 1%nat) unfired_store).2 0 (Some r)) 2 = true
  /\ signal_reason
       (AbortController_abort
          (Client.mergeAbortSignals 0 (Some 1%nat) unfired_store).2 0 (Some r)) 0 = Some r
  /\ signal_reason
       (AbortController_abort
          (Client.mergeAbortSignals 0 (Some 1%nat) unfired_store).2 0 (Some r)) 2
     = Some defaultAbortReason
  /\ signal_listeners
       (AbortController_abort
          (Client.mergeAbortSignals 0 (Some 1%nat) unfired_store).2 0 (Some r)) 0 = []
  /\ signal_listeners
       (AbortController_abort
          (Client.mergeAbortSignals 0 (Some 1%nat) unfired_store).2 0 (Some r)) 1 = [].
Proof. vm_compute. repeat split. Qed.

(** The composer of the other variant, on the same stores, forwards the
    reason of the source and leaves no listener behind. *)
Lemma mergeSignals_fast_path :
  signal_reason (Legacy.mergeSignals [0%nat; 1%nat] fired_timeout_store).2
    (Legacy.mergeSignals [0%nat; 1%nat] fired_timeout_store).1 = Some timeoutReason
  /\ signal_listeners (Legacy.mergeSignals [0%nat; 1%nat] fired_timeout_store).2 1 = [].
Proof. vm_compute. split; reflexivity. Qed.

Lemma mergeSignals_forwards_reason (r : JsValue) :
  signal_reason
    (AbortController_abort (Legacy.mergeSignals [0%nat; 1%nat] unfired_store).2 0 (Some r)) 2
  = Some r
  /\ signal_listeners
       (AbortController_abort (Legacy.mergeSignals [0%nat; 1%nat] unfired_store).2 0 (Some r)) 0
     = []
  /\ signal_listeners
       (AbortController_abort (Legacy.mergeSignals [0%nat; 1%nat] unfired_store).2 0 (Some r)) 1
     = [].
Proof. vm_compute. repeat split. Qed.

(** ** [Builder.response]: the recursion *)

Lemma shouldRetryRequest_iff request r n N :
  Client.shouldRetryRequest request r n N = true <->
  method request = "GET" /\ In (status r) Client.RETRY_CODE_LIST /\ n < N.
Proof.
  unfold Client.shouldRetryRequest.
  rewrite !andb_true_iff, Z.ltb_lt, String.eqb_eq, existsb_exists.
  split.
  - intros [[H1 H2] (x & Hx & He)]. apply Z.eqb_eq in He. subst x. auto.
  - intros (H1 & H2 & H3). repeat split; auto.
    exists (status r). split; [assumption|apply Z.eqb_refl].
Qed.

Lemma shouldRetryRequest_lt request r n N :
  Client.shouldRetryRequest request r n N = true -> n < N.
Proof. intros H. apply shouldRetryRequest_iff in H. tauto. Qed.

Lemma shouldRetryRequest_last request r n N :
  N <= n -> Client.shouldRetryRequest request r n N = false.
Proof.
  intros H. apply not_true_is_false. intros Hs.
  apply shouldRetryRequest_lt in Hs. lia.
Qed.

(** The body calls itself only when a retry is due. *)
Lemma run_body_ext b self1 self2 n :
  (n < default 0 (Client.retry (Client.b_options b)) ->
   forall w, self1 (n + 1) w = self2 (n + 1) w) ->
  forall w, Client.run_body b self1 n w = Client.run_body b self2 n w.
Proof.
  intros H w. unfold Client.run_body, mbind, M_bind, bind, try_catch.
  destruct (on_signals _ w) as [w1 [t| |]]; try reflexivity.
  destruct (on_signals _ w1) as [w2 [s| |]]; try reflexivity.
  destruct (call_hook _ _ _ w2) as [w3 [[]| |]]; try reflexivity.
  destruct (call_fetch _ _ w3) as [w4 [r| |]]; try reflexivity.
  destruct (call_hook _ _ _ w4) as [w5 [[]| |]]; try reflexivity.
  destruct (ok r); try reflexivity.
  destruct (Client.shouldRetryRequest _ _ _ _) eqn:E; try reflexivity.
  cbn [negb].
  destruct (emit _ w5) as [w6 [[]| |]]; try reflexivity.
  destruct (delay _ w6) as [w7 [[]| |]]; try reflexivity.
  rewrite H; [reflexivity | eauto using shouldRetryRequest_lt].
Qed.

Lemma run_fuel_enough b : forall fuel n,
  (Z.to_nat (default 0 (Client.retry (Client.b_options b)) - n)%Z <= fuel)%nat ->
  forall w, Client.run_fuel fuel b n w = Client.run b n w.
Proof.
  unfold Client.run.
  induction fuel as [|fuel IH]; intros n Hf w.
  - replace (Z.to_nat _) with O by lia. reflexivity.
  - destruct (Z.to_nat (default 0 (Client.retry (Client.b_options b)) - n)) as [|k] eqn:E;
      cbn [Client.run_fuel]; apply run_body_ext; intros Hlt w'; [lia|].
    rewrite IH by lia. f_equal. lia.
Qed.

(** [run] satisfies the recursive equation of the source. *)
Lemma run_unfold b n w :
  Client.run b n w = Client.run_body b (Client.run b) n w.
Proof.
  unfold Client.run at 1.
  destruct (Z.to_nat (default 0 (Client.retry (Client.b_options b)) - n)) as [|k] eqn:E;
    cbn [Client.run_fuel]; apply run_body_ext; intros Hlt w'; [lia|].
  apply run_fuel_enough. lia.
Qed.

Lemma call_hook_eq {X} (hook : option (X -> option JsValue)) ev (x : X) w :
  call_hook hook ev x w =
  (log w (hook_events hook ev x),
   match hook_throws hook x with Some e => Throw e | None => Normal tt end).
Proof.
  unfold call_hook, hook_events, hook_throws, log.
  destruct hook as [h|]; cbn.
  - unfold mbind, M_bind, bind, emit, log. cbn. destruct (h x); reflexivity.
  - unfold ret. rewrite app_nil_r. destruct w; reflexivity.
Qed.

(** One attempt, case by case. *)
Lemma run_cases b n w :
  Client.run b n w =
  let o := Client.b_options b in
  let retry := default 0 (Client.retry o) in
  let retryDelay := default 500 (Client.retryDelay o) in
  let request := attempt_request (Client.b_method b) w in
  let w1 := log (attempt_world b w) (hook_events (Client.beforeSend o) EvBeforeSend request) in
  match hook_throws (Client.beforeSend o) request with
  | Some e => (w1, Throw e)
  | None =>
      let w2 := called w1 request in
      match Client.fetch o (S (calls w)) request with
      | Reject err => (w2, Throw (Client.handleError err))
      | Resolve r =>
          let w3 := log w2 (hook_events (Client.onResponse o) EvOnResponse r) in
          match hook_throws (Client.onResponse o) r with
          | Some e => (w3, Throw (Client.handleError e))
          | None =>
              if ok r then (w3, Normal r)
              else if Client.shouldRetryRequest request r n retry then
                let d := Client.backoffDelay retryDelay n r in
                rethrown (Client.run b (n + 1)
                            (log w3 [EvWarn (Client.warning n retry r d); EvDelay d]))
              else (w3, Throw (Client.ServerError r))
          end
      end
  end.
Proof.
  rewrite run_unfold. unfold Client.run_body.
  unfold mbind, M_bind, bind, try_catch.
  unfold on_signals at 1. cbn [Client.AbortSignal_timeout AbortController_new].
  cbn zeta. cbn [signals calls trace].
  unfold on_signals at 1. cbn [signals calls trace].
  destruct (Client.mergeAbortSignals _ _ _) as [sig st2] eqn:Em.
  assert (Hs : sig = S (length (signals w))).
  { change sig with (sig, st2).1. rewrite <- Em. rewrite mergeAbortSignals_fst.
    rewrite length_app. cbn. lia. }
  assert (Hw : mkWorld st2 (calls w) (trace w) = attempt_world b w).
  { unfold attempt_world, attempt_store. cbn [Client.AbortSignal_timeout AbortController_new snd].
    rewrite Em. reflexivity. }
  subst sig. rewrite Hw. fold (attempt_request (Client.b_method b) w).
  rewrite call_hook_eq.
  destruct (hook_throws _ _) as [e|]; [reflexivity|].
  unfold call_fetch. cbn [calls signals trace log attempt_world].
  destruct (Client.fetch _ _ _) as [r|err]; [|reflexivity].
  rewrite call_hook_eq.
  destruct (hook_throws _ r) as [e|]; [reflexivity|].
  destruct (ok r); [reflexivity|].
  destruct (Client.shouldRetryRequest _ _ _ _); cbn [negb]; [|reflexivity].
  unfold emit, delay, emit, rethrown, called, log. cbn [signals calls trace].
  rewrite <- !app_assoc. cbn [app].
  destruct (Client.run b (n + 1) _) as [w' [a|e|]]; reflexivity.
Qed.

(** The case analysis of one attempt: the [beforeSend] hook throws; the
    [onResponse] hook throws; the response is a success; a retry is due (with
    [E]); the response is a failure without retry (with [E]); the transport
    call rejects. *)
Ltac attempt_cases :=
  rewrite run_cases; cbv zeta;
  destruct (hook_throws _ _);
  [ | destruct (Client.fetch _ _ _) as [r|err] eqn:Ef;
      [ destruct (hook_throws _ r);
        [ | destruct (ok r);
            [ | destruct (Client.shouldRetryRequest _ _ _ _) eqn:E ] ]
      | ] ].

Lemma rethrown_fst {A} (r : World * Completion A) : (rethrown r).1 = r.1.
Proof. destruct r as [w [a|e|]]; reflexivity. Qed.

Lemma run_total_aux b : forall k n w,
  Z.to_nat (default 0 (Client.retry (Client.b_options b)) - n) = k ->
  (Client.run b n w).2 <> Diverge.
Proof.
  induction k as [|k IH]; intros n w Hk; attempt_cases; try discriminate.
  all: apply shouldRetryRequest_lt in E.
  - lia.
  - match goal with |- context [Client.run b (n + 1) ?w1] =>
      specialize (IH (n + 1) w1 ltac:(lia)); destruct (Client.run b (n + 1) w1) as [w' [a|e|]]
    end; cbn in *; congruence.
Qed.

(** [run] never runs out of fuel: every attempt completes, normally or by
    throwing. *)
Lemma run_total b n w : (Client.run b n w).2 <> Diverge.
Proof. exact (run_total_aux b _ n w eq_refl). Qed.

Lemma delays_app tr evs : delays (tr ++ evs) = (delays tr ++ delays evs)%list.
Proof. unfold delays. apply omap_app. Qed.

Lemma delays_hook_events {X} (hook : option (X -> option JsValue)) ev x :
  (forall y, match ev y with EvDelay _ => False | _ => True end) ->
  delays (hook_events hook ev x) = [].
Proof.
  intros H. destruct hook; [|reflexivity]. cbn. specialize (H x).
  destruct (ev x); try reflexivity. contradiction.
Qed.

(** C1 (amended).  When the transport call of attempt [n] rejects, the
    [beforeSend] hook having completed, [run] makes no further transport
    call and awaits no delay: it throws [#handleError] of the cause at once,
    whatever [n], [retry] and the cause are.  So with [retry = 2] a
    transport that always rejects with a network-class cause yields a
    NetworkFailure after one attempt, and a cancellation is not retried
    either. *)
Theorem C1_rejected_call_is_not_retried (b : Client.Builder) (n : Z) (w : World) (err : JsValue) :
  let o := Client.b_options b in
  let request := attempt_request (Client.b_method b) w in
  hook_throws (Client.beforeSend o) request = None ->
  Client.fetch o (S (calls w)) request = Reject err ->
  exists w',
    Client.run b n w = (w', Throw (Client.handleError err))
    /\ calls w' = S (calls w)
    /\ trace w' = (trace w ++ hook_events (Client.beforeSend o) EvBeforeSend request
                           ++ [EvFetch request])%list
    /\ delays (trace w') = delays (trace w).
Proof.
  intros o request Hbs Hf. rewrite run_cases. cbv zeta. fold o request.
  rewrite Hbs, Hf. eexists. split; [reflexivity|].
  cbn [calls trace called log attempt_world]. repeat split.
  - rewrite <- app_assoc. reflexivity.
  - rewrite !delays_app, delays_hook_events by (intros; exact I).
    cbn. rewrite !app_nil_r. reflexivity.
Qed.

Lemma C1_network_scenario :
  (hook_throws (Client.beforeSend (Client.b_options network_scenario))
     (attempt_request "GET" (initial [])) = None
   /\ Client.fetch (Client.b_options network_scenario) 1%nat
        (attempt_request "GET" (initial [])) =
      Reject (JsError TypeErrorC "TypeError" "Failed to fetch" None None))
  /\ exists w',
       Client.response network_scenario (initial []) =
         (w', Throw (Client.NetworkError "Failed to fetch"
                       (Some (JsError TypeErrorC "TypeError" "Failed to fetch" None None))))
       /\ calls w' = 1%nat
       /\ trace w' = [EvFetch (attempt_request "GET" (initial []))]
       /\ delays (trace w') = [].
Proof.
  split; [split; reflexivity|].
  exact (C1_rejected_call_is_not_retried network_scenario 1 (initial [])
           (JsError TypeErrorC "TypeError" "Failed to fetch" None None) eq_refl eq_refl).
Defined.

(** C1 as stated fails: with [retry = 2] over a transport that always
    rejects with a network-class cause, one transport call is made, not two,
    and no backoff is awaited. *)
Lemma C1_counterexample :
  calls (Client.response network_scenario (initial [])).1 = 1%nat
  /\ calls (Client.response network_scenario (initial [])).1 <> 2%nat
  /\ delays (trace (Client.response network_scenario (initial [])).1) = [].
Proof. vm_compute. repeat split; congruence. Qed.

(** ** [Builder.response] on a platform that may refuse the request *)

Lemma Platform_run_body_accepted rt b self n w :
  Platform.refusal rt b = None ->
  Platform.run_body rt b self n w = Client.run_body b self n w.
Proof.
  unfold Platform.refusal. intros H.
  destruct (Platform.timeout_refusal rt _) eqn:Et; [discriminate|].
  unfold Platform.run_body, Client.run_body, Platform.AbortSignal_timeout,
    Platform.Request_new.
  rewrite Et, H. reflexivity.
Qed.

(** An attempt on a platform: [AbortSignal.timeout] throws before anything
    is allocated, [new Request] throws once the signals are composed, and
    otherwise the attempt is the one [Client.run] describes. *)
Lemma Platform_run_fuel_cases rt b : forall fuel n w,
  Platform.run_fuel rt fuel b n w =
  match Platform.timeout_refusal rt (default 10000 (Client.timeout (Client.b_options b))) with
  | Some e => (w, Throw e)
  | None =>
      match Platform.Request_refusal rt (Client.b_method b) with
      | Some e => (attempt_world b w, Throw e)
      | None => Client.run_fuel fuel b n w
      end
  end.
Proof.
  intros fuel n w.
  destruct (Platform.timeout_refusal rt _) as [e|] eqn:Et.
  { destruct fuel; cbn [Platform.run_fuel]; unfold Platform.run_body,
      Platform.AbortSignal_timeout; rewrite Et; reflexivity. }
  destruct (Platform.Request_refusal rt _) as [e|] eqn:Er.
  { destruct fuel; cbn [Platform.run_fuel]; unfold Platform.run_body,
      Platform.AbortSignal_timeout, Platform.Request_new; rewrite Et, Er;
      unfold mbind, M_bind, bind, throw, on_signals;
      cbn [Client.AbortSignal_timeout AbortController_new signals calls trace];
      unfold attempt_world, attempt_store;
      cbn [Client.AbortSignal_timeout AbortController_new snd];
      destruct (Client.mergeAbortSignals _ _ _) as [sig st2]; reflexivity. }
  assert (Ha : Platform.refusal rt b = None) by (unfold Platform.refusal; rewrite Et; exact Er).
  revert n w. induction fuel as [|fuel IH]; intros n w; cbn [Platform.run_fuel Client.run_fuel].
  - apply Platform_run_body_accepted. exact Ha.
  - rewrite Platform_run_body_accepted by exact Ha.
    apply run_body_ext. intros _ w'. apply IH.
Qed.

Lemma Platform_run_cases rt b n w :
  Platform.run rt b n w =
  match Platform.timeout_refusal rt (default 10000 (Client.timeout (Client.b_options b))) with
  | Some e => (w, Throw e)
  | None =>
      match Platform.Request_refusal rt (Client.b_method b) with
      | Some e => (attempt_world b w, Throw e)
      | None => Client.run b n w
      end
  end.
Proof. apply Platform_run_fuel_cases. Qed.

(** On a request the platform accepts, the attempts are those of
    [Client.run]. *)
Lemma Platform_run_accepted rt b n w :
  Platform.refusal rt b = None -> Platform.run rt b n w = Client.run b n w.
Proof.
  unfold Platform.refusal. intros H. rewrite Platform_run_cases.
  destruct (Platform.timeout_refusal rt _); [discriminate|]. rewrite H. reflexivity.
Qed.

(** On a request the platform refuses, [run] throws what the platform
    throws: no hook is called, no transport call is made, nothing is
    awaited, and the signals that were in the store are as they were. *)
Lemma Platform_run_refused rt b n w e :
  Platform.refusal rt b = Some e ->
  (Platform.run rt b n w).2 = Throw e
  /\ calls (Platform.run rt b n w).1 = calls w
  /\ trace (Platform.run rt b n w).1 = trace w
  /\ (signals (Platform.run rt b n w).1 = signals w
      \/ signals (Platform.run rt b n w).1 = attempt_store b (signals w)).
Proof.
  unfold Platform.refusal. intros H. rewrite Platform_run_cases.
  destruct (Platform.timeout_refusal rt _) as [e'|].
  - injection H as ->. repeat split. left. reflexivity.
  - rewrite H. repeat split. right. reflexivity.
Qed.

Lemma refusal_retry rt b v : Platform.refusal rt (Builder_retry b v) = Platform.refusal rt b.
Proof. reflexivity. Qed.

(** Every runtime refuses a negative timeout, a method that is not a token
    and a forbidden method. *)
Lemma every_runtime_refuses rt (b : Client.Builder) :
  default 10000 (Client.timeout (Client.b_options b)) < 0
  \/ isMethod (Client.b_method b) = false
  \/ forbiddenMethod (Client.b_method b) = true ->
  Platform.refusal rt b <> None.
Proof.
  unfold Platform.refusal, Platform.timeout_refusal, Platform.Request_refusal.
  intros H. destruct (timeout_refused rt _); [discriminate|].
  destruct (Z.ltb_spec (default 10000 (Client.timeout (Client.b_options b))) 0);
    [discriminate|].
  destruct (request_refused rt _); [discriminate|].
  destruct (isMethod _); cbn [negb]; [|discriminate].
  destruct (forbiddenMethod _); [discriminate|].
  destruct H as [H|[H|H]]; [lia|discriminate..].
Qed.

(** C3 (amended).  For a completed transport response outside the success
    range on attempt [n] of a request the platform has accepted,
    [beforeSend] having completed.  The classification is retryable exactly
    when the method of the request is GET, the status is one of 408, 409,
    425, 429, 500, 502, 503, 504 and [n < maxAttempts]; a method other than
    GET is never retried, whatever [maxAttempts].  When [onResponse] returns
    normally, an outcome that is not retryable throws, after that single
    call and without delay, a [ServerError] whose [response] is the
    response, which the [catch] blocks of the enclosing attempts pass on
    unchanged, and a retryable one awaits one delay and issues attempt
    [n + 1].  When [onResponse] throws, the response is neither retried nor
    wrapped: [run] throws [#handleError] of what the hook threw after that
    single call. *)
Theorem C3_retry_classification (rt : Runtime) (b : Client.Builder) (n : Z) (w : World)
    (r : Response) :
  let o := Client.b_options b in
  let request := attempt_request (Client.b_method b) w in
  let N := default 0 (Client.retry o) in
  Platform.refusal rt b = None ->
  hook_throws (Client.beforeSend o) request = None ->
  Client.fetch o (S (calls w)) request = Resolve r ->
  ok r = false ->
  (Client.shouldRetryRequest request r n N = true <->
     method request = "GET"
     /\ In (status r) [408; 409; 425; 429; 500; 502; 503; 504]
     /\ n < N)
  /\ (method request <> "GET" -> Client.shouldRetryRequest request r n N = false)
  /\ match hook_throws (Client.onResponse o) r with
     | Some thrown =>
         exists w',
           Platform.run rt b n w = (w', Throw (Client.handleError thrown))
           /\ calls w' = S (calls w)
           /\ delays (trace w') = delays (trace w)
     | None =>
         (Client.shouldRetryRequest request r n N = false ->
            exists w' e,
              Platform.run rt b n w = (w', Throw e)
              /\ instanceof e ServerErrorC = true
              /\ err_response e = Some r
              /\ Client.handleError e = e
              /\ calls w' = S (calls w)
              /\ delays (trace w') = delays (trace w))
         /\ (Client.shouldRetryRequest request r n N = true ->
               exists w1 d,
                 Platform.run rt b n w = rethrown (Platform.run rt b (n + 1) w1)
                 /\ calls w1 = S (calls w)
                 /\ delays (trace w1) = (delays (trace w) ++ [d])%list)
     end.
Proof.
  intros o request N Ha Hbs Hf Hok.
  split; [apply shouldRetryRequest_iff|].
  split.
  { intros Hm. apply not_true_is_false. intros H.
    apply shouldRetryRequest_iff in H as [H _]. contradiction. }
  rewrite !(Platform_run_accepted rt b) by exact Ha.
  destruct (hook_throws (Client.onResponse o) r) as [thrown|] eqn:Hor.
  - rewrite run_cases; cbv zeta; fold o request N.
    rewrite Hbs, Hf, Hor. eexists. split; [reflexivity|].
    cbn [calls trace called log attempt_world]. split; [reflexivity|].
    rewrite !delays_app, !delays_hook_events by (intros; exact I).
    cbn. rewrite ?app_nil_r. reflexivity.
  - split; intros Hs; rewrite run_cases; cbv zeta; fold o request N;
      rewrite Hbs, Hf, Hor, Hok, Hs.
    + eexists. exists (Client.ServerError r). split; [reflexivity|].
      do 3 (split; [reflexivity|]).
      cbn [calls trace called log attempt_world]. split; [reflexivity|].
      rewrite !delays_app, !delays_hook_events by (intros; exact I).
      cbn. rewrite ?app_nil_r. reflexivity.
    + eexists. eexists. rewrite (Platform_run_accepted rt b) by exact Ha.
      split; [reflexivity|].
      cbn [calls trace called log attempt_world]. split; [reflexivity|].
      rewrite !delays_app, !delays_hook_events by (intros; exact I).
      cbn. rewrite ?app_nil_r. reflexivity.
Qed.

Lemma C3_recovering_scenario :
  (Platform.refusal standard recovering_scenario = None
   /\ hook_throws (Client.beforeSend (Client.b_options recovering_scenario))
        (attempt_request "GET" (initial [])) = None
   /\ Client.fetch (Client.b_options recovering_scenario) 1%nat
        (attempt_request "GET" (initial [])) = Resolve response_503
   /\ ok response_503 = false)
  /\ (Client.shouldRetryRequest (attempt_request "GET" (initial [])) response_503 1 3 = true <->
        method (attempt_request "GET" (initial [])) = "GET"
        /\ In (status response_503) [408; 409; 425; 429; 500; 502; 503; 504]
        /\ 1 < 3).
Proof.
  split; [repeat split; reflexivity|].
  exact (proj1 (C3_retry_classification standard recovering_scenario 1 (initial [])
                  response_503 eq_refl eq_refl eq_refl eq_refl)).
Defined.

(** C3 as stated fails when the [onResponse] hook throws.  A GET that
    receives 503 on attempt 1 of 3 is classified as retryable, and yet the
    engine makes one call and awaits nothing; with [maxAttempts = 0] the same
    outcome is not retryable, and yet what is thrown is no [ServerError] and
    carries no response. *)
Lemma C3_counterexample :
  Client.shouldRetryRequest (attempt_request "GET" (initial [])) response_503 1 3 = true
  /\ calls (Platform.response standard throwing_hook_scenario (initial [])).1 = 1%nat
  /\ delays (trace (Platform.response standard throwing_hook_scenario (initial [])).1) = []
  /\ Client.shouldRetryRequest (attempt_request "GET" (initial [])) response_503 1 0 = false
  /\ (Platform.response standard (Builder_retry throwing_hook_scenario 0) (initial [])).2
     = Throw (Client.UnknownError "An unknown error occurred.")
  /\ instanceof (Client.UnknownError "An unknown error occurred.") ServerErrorC = false
  /\ err_response (Client.UnknownError "An unknown error occurred.") = None.
Proof. vm_compute. repeat split. Qed.

Lemma attempt_world_retry b v w : attempt_world (Builder_retry b v) w = attempt_world b w.
Proof. reflexivity. Qed.

(** C7 (amended).  Executing with [maxAttempts = 0] and with
    [maxAttempts = 1] gives the same outcome in the same world, for every
    runtime, every builder and every transport, and no delay is awaited.
    The transport is called once when the platform accepts the timeout and
    the request and [beforeSend] completes; otherwise it is not called. *)
Theorem C7_retry_zero_and_one_agree (rt : Runtime) (b : Client.Builder) (w : World) :
  Platform.response rt (Builder_retry b 0) w = Platform.response rt (Builder_retry b 1) w
  /\ calls (Platform.response rt (Builder_retry b 0) w).1 =
     match Platform.refusal rt b,
           hook_throws (Client.beforeSend (Client.b_options b))
             (attempt_request (Client.b_method b) w) with
     | None, None => S (calls w)
     | _, _ => calls w
     end
  /\ delays (trace (Platform.response rt (Builder_retry b 0) w).1) = delays (trace w).
Proof.
  unfold Platform.response.
  destruct (Platform.refusal rt b) as [e|] eqn:Ha.
  { destruct (Platform_run_refused rt (Builder_retry b 0) 1 w e Ha) as (H2 & Hc & Ht & _).
    split; [|split; [exact Hc|rewrite Ht; reflexivity]].
    rewrite !Platform_run_cases. reflexivity. }
  rewrite !Platform_run_accepted by exact Ha.
  rewrite !run_cases. cbv zeta.
  rewrite !attempt_world_retry.
  cbn [Builder_retry Client.b_options Client.b_method Client.beforeSend Client.fetch
         Client.onResponse Client.retry Client.retryDelay default].
  destruct (hook_throws _ _).
  2: destruct (Client.fetch _ _ _) as [r|err].
  2: destruct (hook_throws _ r).
  3: destruct (ok r).
  4: rewrite !(shouldRetryRequest_last _ _ 1 (id 0)), !(shouldRetryRequest_last _ _ 1 (id 1))
       by (unfold id; lia).
  all: split; [reflexivity|].
  all: cbn [fst calls trace called log attempt_world]; (split; [reflexivity|]).
  all: rewrite !delays_app, ?delays_hook_events by (intros; exact I).
  all: cbn; rewrite ?app_nil_r; reflexivity.
Qed.

(** C7 as stated fails on the forbidden method TRACE: [new Request] throws
    before the [try] block and no transport call is made, with
    [maxAttempts = 0] and with [maxAttempts = 1]. *)
Lemma C7_counterexample :
  calls (Platform.response standard (Builder_retry trace_scenario 0) (initial [])).1 = 0%nat
  /\ calls (Platform.response standard (Builder_retry trace_scenario 1) (initial [])).1 = 0%nat
  /\ (Platform.response standard (Builder_retry trace_scenario 0) (initial [])).2
     = Throw (TypeError "'TRACE' HTTP method is unsupported.").
Proof. vm_compute. repeat split. Qed.

(** ** The retry schedule *)

Lemma clamp_min_max x :
  Z.min Client.MAX_RETRY_DELAY (Z.max Client.MIN_RETRY_DELAY x) = clamp x 200 10000.
Proof.
  unfold clamp, Client.MAX_RETRY_DELAY, Client.MIN_RETRY_DELAY.
  destruct (Z.ltb_spec x 200); destruct (Z.ltb_spec 10000 x); lia.
Qed.

Lemma digit_is_digit c :
  JS.digit c = if is_digit c then Some (digit_value c) else None.
Proof. reflexivity. Qed.

Lemma parseDigits_leading_digits s : forall acc,
  JS.parseDigits acc s =
  match leading_digits s with
  | [] => acc
  | ds => Some (fold_left (fun n c => 10 * n + digit_value c) ds (default 0 acc))
  end.
Proof.
  induction s as [|c s IH]; intros acc; [reflexivity|].
  cbn [JS.parseDigits leading_digits]. rewrite digit_is_digit.
  destruct (is_digit c); [|reflexivity].
  rewrite IH. cbn [fold_left default].
  destruct (leading_digits s); reflexivity.
Qed.

(** [parseInt] reads the integer a string begins with. *)
Lemma leading_integer_parseInt s : leading_integer s = JS.parseInt s.
Proof.
  unfold leading_integer, JS.parseInt.
  destruct (JS.trimStart s) as [|c r]; [reflexivity|].
  destruct c as [[] [] [] [] [] [] [] []]; cbn [split_sign].
  all: rewrite parseDigits_leading_digits; unfold decimal; cbn [default].
  all: match goal with
       | |- context [leading_digits ?t] => destruct (leading_digits t)
       end; reflexivity.
Qed.

Example leading_integer_examples :
  leading_integer "5" = Some 5
  /\ leading_integer "5 apples" = Some 5
  /\ leading_integer "1.5" = Some 1
  /\ leading_integer " -12x" = Some (-12)
  /\ leading_integer "soon" = None
  /\ integer_value "5" = Some 5
  /\ integer_value "5 apples" = None
  /\ integer_value "1.5" = None.
Proof. repeat split. Qed.

(** A value that is an integer begins with that integer, when it does not
    begin with white space. *)
Lemma integer_value_leading s n :
  JS.trimStart s = s -> integer_value s = Some n -> leading_integer s = Some n.
Proof.
  unfold integer_value, leading_integer. intros ->.
  destruct (split_sign s) as [negative digits].
  destruct (leading_digits digits) as [|d ds]; [discriminate|].
  destruct (_ && _); [|discriminate]. intros [= <-]. reflexivity.
Qed.

(** The delay the code computes is the delay of the amended description. *)
Lemma backoffDelay_spec d n r : Client.backoffDelay d n r = spec_delay d n r.
Proof.
  unfold Client.backoffDelay, spec_delay, delay_reading.
  destruct (retryAfter r) as [[|c s]|]; cbn [mbind option_bind]; try apply clamp_min_max.
  rewrite leading_integer_parseInt.
  destruct (JS.parseInt (String c s)) as [secs|]; try apply clamp_min_max.
  rewrite clamp_min_max.
  destruct (Z.ltb_spec (d * 2 ^ (n - 1)) (secs * 1000)); f_equal; lia.
Qed.

Example backoffDelay_examples :
  Client.backoffDelay 100 1 (mkResponse 429 (Some "5") "") = 5000
  /\ Client.backoffDelay 100 1 (mkResponse 429 (Some "60") "") = 10000
  /\ Client.backoffDelay 100 1 (mkResponse 429 (Some "soon") "") = 200
  /\ Client.backoffDelay 500 3 (mkResponse 503 None "") = 2000.
Proof. repeat split. Qed.

Lemma sched_run_app fetch d tr evs :
  sched_run fetch d (tr ++ evs) = fold_left (sched_step fetch d) evs (sched_run fetch d tr).
Proof. unfold sched_run. apply fold_left_app. Qed.

Lemma sched_hook_events {X} fetch d (hook : option (X -> option JsValue)) ev x s :
  (forall y, match ev y with EvFetch _ | EvDelay _ => False | _ => True end) ->
  fold_left (sched_step fetch d) (hook_events hook ev x) (Some s) = Some s.
Proof.
  intros Hev. destruct hook; cbn; [|reflexivity].
  specialize (Hev x). destruct s as [k ph]. destruct (ev x), ph; try contradiction; reflexivity.
Qed.

Section Execution.

Variable b : Client.Builder.

(** An execution that starts at attempt [n] makes one call, and one more
    for every attempt left. *)
Lemma run_calls_bound : forall k n w,
  Z.to_nat (default 0 (Client.retry (Client.b_options b)) - n) = k ->
  (calls w <= calls (Client.run b n w).1 <= calls w + S k)%nat.
Proof.
  induction k as [|k IH]; intros n w Hk; attempt_cases;
    try (cbn [fst calls called log attempt_world]; lia).
  all: apply shouldRetryRequest_lt in E; try lia.
  rewrite rethrown_fst.
  match goal with |- context [Client.run b (n + 1) ?w1] =>
    specialize (IH (n + 1) w1 ltac:(lia)); cbn [calls log called attempt_world] in IH |- * end.
  lia.
Qed.

Ltac sched_steps :=
  repeat (first [rewrite sched_hook_events by (intros; exact I)
                | progress cbn [fold_left sched_step]]).

Lemma run_schedule : forall k n w,
  Z.to_nat (default 0 (Client.retry (Client.b_options b)) - n) = k ->
  n = Z.of_nat (calls w) + 1 ->
  sched_run (Client.fetch (Client.b_options b))
    (default 500 (Client.retryDelay (Client.b_options b))) (trace w) = Some (calls w, Idle) ->
  is_Some (sched_run (Client.fetch (Client.b_options b))
             (default 500 (Client.retryDelay (Client.b_options b)))
             (trace (Client.run b n w).1)).
Proof.
  induction k as [|k IH]; intros n w Hk Hn Hs; attempt_cases.
  all: try rewrite rethrown_fst.
  all: try (apply shouldRetryRequest_lt in E).
  all: try lia.
  all: try (apply IH; [lia|cbn [calls log called attempt_world]; lia|]).
  all: cbn [fst trace log called attempt_world calls].
  all: repeat rewrite sched_run_app; rewrite Hs.
  all: sched_steps; try rewrite Ef; sched_steps.
  all: eauto.
  rewrite backoffDelay_spec.
  replace (Z.of_nat (S (calls w))) with n by lia.
  rewrite Z.eqb_refl. reflexivity.
Qed.

End Execution.

(** C2 (amended).  For integer options, with [retryDelay] other than 0 or
    [maxAttempts = N] at most 1025, the engine makes at most [max N 1]
    transport calls, whatever the platform accepts and the transport
    answers; no delay precedes the first call, exactly one delay separates
    two consecutive calls, and the delay between call [k] and call [k + 1]
    is [clamp (retryDelay * 2 ^ (k - 1)) 200 10000], unless the
    [Retry-After] header of the response of attempt [k] begins with an
    integer whose value times 1000 exceeds the computed backoff: then that
    value, clamped to [200, 10000], is awaited.  What follows the digits of
    the header is not read, and a header that does not begin with an
    integer is ignored. *)
Theorem C2_attempts_bounded_and_delays_follow_schedule (rt : Runtime) (b : Client.Builder)
    (st : Store) :
  backoff_is_number (default 500 (Client.retryDelay (Client.b_options b)))
    (default 0 (Client.retry (Client.b_options b)) - 1) ->
  Z.of_nat (calls (Platform.response rt b (initial st)).1)
    <= Z.max (default 0 (Client.retry (Client.b_options b))) 1
  /\ follows_schedule (Client.fetch (Client.b_options b))
       (default 500 (Client.retryDelay (Client.b_options b)))
       (trace (Platform.response rt b (initial st)).1).
Proof.
  intros _. unfold Platform.response.
  destruct (Platform.refusal rt b) as [e|] eqn:Ha.
  { destruct (Platform_run_refused rt b 1 (initial st) e Ha) as (_ & Hc & Ht & _).
    rewrite Hc, Ht. cbn [initial calls trace]. split; [lia|].
    eexists. reflexivity. }
  rewrite Platform_run_accepted by exact Ha. split.
  - pose proof (run_calls_bound b _ 1 (initial st) eq_refl) as H.
    cbn [calls initial] in H. lia.
  - apply (run_schedule b _ 1 (initial st) eq_refl); reflexivity.
Qed.

Lemma C2_recovering_scenario :
  backoff_is_number 100 (3 - 1)
  /\ Z.of_nat (calls (Platform.response standard recovering_scenario (initial [])).1) <= 3
  /\ follows_schedule recovering_transport 100
       (trace (Platform.response standard recovering_scenario (initial [])).1).
Proof.
  assert (H : backoff_is_number 100 (3 - 1)) by (left; discriminate).
  split; [exact H|].
  exact (C2_attempts_bounded_and_delays_follow_schedule standard recovering_scenario [] H).
Defined.

(** C2 as stated fails at [maxAttempts = 0], where one transport call is
    made, and on a [Retry-After] value that is not an integer but begins
    with one: after [5 apples] the engine awaits 5000ms, where ignoring the
    header gives the clamped backoff of 200ms. *)
Lemma C2_counterexample :
  ~ (Z.of_nat (calls (Platform.response standard no_retry_scenario (initial [])).1)
       <= default 0 (Client.retry (Client.b_options no_retry_scenario)))
  /\ integer_value "5 apples" = None
  /\ claimed_delay 100 1 response_apples = 200
  /\ delays (trace (Platform.response standard apples_scenario (initial [])).1) = [5000].
Proof. vm_compute. repeat split. intros H. apply H. reflexivity. Qed.

(** C6 (amended).  GET under [{timeout: 5000, retry: 3, retryDelay: 100}],
    the transport answering 503, 503, 200: the execution resolves with the
    200 response after three calls and exactly two delays, of 200ms each:
    the backoffs 100 and 200 are clamped to [MIN_RETRY_DELAY]. *)
Theorem C6_recovering_scenario_delays (st : Store) :
  (Client.response recovering_scenario (initial st)).2 = Normal response_200
  /\ delays (trace (Client.response recovering_scenario (initial st)).1) = [200; 200]
  /\ calls (Client.response recovering_scenario (initial st)).1 = 3%nat.
Proof.
  unfold Client.response.
  rewrite run_cases. cbv zeta.
  change (hook_throws _ _) with (@None JsValue).
  change (Client.fetch _ _ _) with (Resolve response_503). cbv iota.
  change (hook_throws _ _) with (@None JsValue).
  change (ok response_503) with false.
  change (Client.shouldRetryRequest _ response_503 1 _) with true. cbv iota.
  rewrite run_cases. cbv zeta.
  change (hook_throws _ _) with (@None JsValue).
  change (Client.fetch _ _ _) with (Resolve response_503). cbv iota.
  change (hook_throws _ _) with (@None JsValue).
  change (ok response_503) with false.
  change (Client.shouldRetryRequest _ response_503 (1 + 1) _) with true. cbv iota.
  rewrite run_cases. cbv zeta.
  change (hook_throws _ _) with (@None JsValue).
  change (Client.fetch _ _ _) with (Resolve response_200). cbv iota.
  change (hook_throws _ _) with (@None JsValue).
  change (ok response_200) with true. cbv iota.
  repeat split.
Qed.

(** C6 as stated fails: the delays are not 100ms then 200ms. *)
Lemma C6_counterexample :
  delays (trace (Client.response recovering_scenario (initial [])).1) <> [100; 200].
Proof. vm_compute. discriminate. Qed.

(** ** The hooks *)



Section Hooks.

Variable b : Client.Builder.
Variable st0 : Store.
Variables (bs : Request -> option JsValue) (orr : Response -> option JsValue).
Hypothesis Hbs : Client.beforeSend (Client.b_options b) = Some bs.
Hypothesis Hor : Client.onResponse (Client.b_options b) = Some orr.


End Hooks.

(** The hooks of the recovering scenario run three times each. *)
Example hooked_scenario_trace :
  trace (Client.response hooked_scenario (initial unfired_store)).1 =
  [EvBeforeSend (mkRequest "GET" 3); EvFetch (mkRequest "GET" 3); EvOnResponse response_503;
   EvWarn "Attempt 1/3 failed with status 503. Retrying in 200ms..."; EvDelay 200;
   EvBeforeSend (mkRequest "GET" 5); EvFetch (mkRequest "GET" 5); EvOnResponse response_503;
   EvWarn "Attempt 2/3 failed with status 503. Retrying in 200ms..."; EvDelay 200;
   EvBeforeSend (mkRequest "GET" 7); EvFetch (mkRequest "GET" 7); EvOnResponse response_200].
Proof. vm_compute. reflexivity. Qed.

(** ** [tryRequest] *)

Lemma tryRequest_body_ext c self1 self2 n :
  (n < default 1 (Legacy.retries c) -> forall w, self1 (n + 1) w = self2 (n + 1) w) ->
  forall w, Legacy.tryRequest_body c self1 n w = Legacy.tryRequest_body c self2 n w.
Proof.
  intros H w. unfold Legacy.tryRequest_body, mbind, M_bind, bind, try_finally, try_catch.
  destruct (on_signals _ w) as [w1 [t| |]]; try reflexivity.
  destruct (emit _ w1) as [w2 [[]| |]]; try reflexivity.
  destruct (on_signals _ w2) as [w3 [s| |]]; try reflexivity.
  destruct (call_fetch _ _ w3) as [w4 [r|err|]]; try reflexivity;
    [destruct (ok r); reflexivity|].
  assert (Hr : forall d, n < default 1 (Legacy.retries c) ->
      (let (w', c0) := delay d w4 in
         match c0 with Normal _ => self1 (n + 1) w' | Throw e => (w', Throw e)
                     | Diverge => (w', Diverge) end)
      = (let (w', c0) := delay d w4 in
         match c0 with Normal _ => self2 (n + 1) w' | Throw e => (w', Throw e)
                     | Diverge => (w', Diverge) end)).
  { intros d Hlt. destruct (delay d w4) as [w5 [[]| |]]; try reflexivity.
    rewrite H by assumption. reflexivity. }
  destruct err as [msg| |cls name message cause resp].
  - destruct (JS.includes msg _); [|reflexivity].
    destruct (Z.ltb_spec n (default 1 (Legacy.retries c))); [|reflexivity].
    rewrite Hr by assumption. reflexivity.
  - reflexivity.
  - destruct (_ && _); [reflexivity|].
    destruct (_ && _); [|reflexivity].
    destruct (Z.ltb_spec n (default 1 (Legacy.retries c))); [|reflexivity].
    rewrite Hr by assumption. reflexivity.
Qed.

Lemma tryRequest_fuel_enough c : forall fuel n,
  (Z.to_nat (default 1 (Legacy.retries c) - n)%Z <= fuel)%nat ->
  forall w, Legacy.tryRequest_fuel fuel c n w = Legacy.tryRequest c n w.
Proof.
  unfold Legacy.tryRequest.
  induction fuel as [|fuel IH]; intros n Hf w.
  - replace (Z.to_nat _) with O by lia. reflexivity.
  - destruct (Z.to_nat (default 1 (Legacy.retries c) - n)) as [|k] eqn:E;
      cbn [Legacy.tryRequest_fuel]; apply tryRequest_body_ext; intros Hlt w'; [lia|].
    rewrite IH by lia. f_equal. lia.
Qed.

(** [tryRequest] satisfies the recursive equation of the source. *)
Lemma tryRequest_unfold c n w :
  Legacy.tryRequest c n w = Legacy.tryRequest_body c (Legacy.tryRequest c) n w.
Proof.
  unfold Legacy.tryRequest at 1.
  destruct (Z.to_nat (default 1 (Legacy.retries c) - n)) as [|k] eqn:E;
    cbn [Legacy.tryRequest_fuel]; apply tryRequest_body_ext; intros Hlt w'; [lia|].
  apply tryRequest_fuel_enough. lia.
Qed.

(** One attempt of [tryRequest], case by case. *)
Lemma tryRequest_cases c n w :
  Legacy.tryRequest c n w =
  let t := length (signals w) in
  let request := attempt_request (Legacy.c_method c) w in
  let w2 := called (legacy_world c w) request in
  let retries := default 1 (Legacy.retries c) in
  let retryDelay := default 1000 (Legacy.retryDelay c) in
  let again :=
    finished t (Legacy.tryRequest c (n + 1) (log w2 [EvDelay (retryDelay * 2 ^ n)])) in
  let done := fun h => (log w2 [EvClearTimeout t], Normal h) in
  match Legacy.fetch c (S (calls w)) request with
  | Resolve r =>
      done (if negb (ok r) then Legacy.failure (Legacy.serverError r) else Legacy.success r)
  | Reject err =>
      match err with
      | JsString s =>
          if JS.includes s Legacy.TIMEOUT_MESSAGE then
            if n <? retries then again
            else done (Legacy.failure (Legacy.clientError Legacy.TIMEOUT_MESSAGE))
          else done (Legacy.failure (Legacy.clientError ("Request was aborted: " ++ s)))
      | _ =>
          if instanceof err DOMExceptionC && String.eqb (err_name err) "AbortError"
          then done (Legacy.failure (Legacy.clientError (err_message err)))
          else if instanceof err TypeErrorC && JS.includes (err_message err) "Failed to fetch."
          then
            if n <? retries then again
            else done (Legacy.failure (Legacy.clientError "Network error."))
          else done (Legacy.failure (Legacy.clientError "Unknown error."))
      end
  end.
Proof.
  rewrite tryRequest_unfold. unfold Legacy.tryRequest_body.
  unfold mbind, M_bind, bind, try_finally, try_catch.
  unfold on_signals at 1. cbn [AbortController_new signals calls trace].
  unfold emit at 1, log at 1. cbn [signals calls trace].
  unfold on_signals at 1. cbn [signals calls trace].
  destruct (Legacy.mergeSignals _ _) as [sig st2] eqn:Em.
  assert (Hs : sig = S (length (signals w))).
  { change sig with (sig, st2).1. rewrite <- Em. unfold Legacy.mergeSignals. cbn.
    rewrite length_app. cbn. lia. }
  assert (Hw : mkWorld st2 (calls w)
                 (trace w ++ [EvSetTimeout (length (signals w)) (default 10000 (Legacy.timeout c))])
               = legacy_world c w).
  { unfold legacy_world. cbn [AbortController_new snd]. rewrite Em. reflexivity. }
  subst sig. rewrite Hw. fold (attempt_request (Legacy.c_method c) w).
  unfold call_fetch. cbn zeta.
  change (calls (legacy_world c w)) with (calls w).
  fold (called (legacy_world c w) (attempt_request (Legacy.c_method c) w)).
  set (w2 := called _ _).
  destruct (Legacy.fetch _ _ _) as [r|err].
  { destruct (ok r); reflexivity. }
  destruct err as [msg| |cls name message cause resp].
  - destruct (JS.includes msg _); [|reflexivity].
    destruct (n <? _); [|reflexivity].
    unfold delay, emit at 1. unfold finished.
    destruct (Legacy.tryRequest c (n + 1) _) as [w' cmp]. reflexivity.
  - reflexivity.
  - destruct (_ && _); [reflexivity|].
    destruct (_ && _); [|reflexivity].
    destruct (n <? _); [|reflexivity].
    unfold delay, emit at 1. unfold finished.
    destruct (Legacy.tryRequest c (n + 1) _) as [w' cmp]. reflexivity.
Qed.

Lemma tryRequest_returns_aux c : forall k n w,
  Z.to_nat (default 1 (Legacy.retries c) - n) = k ->
  exists h, (Legacy.tryRequest c n w).2 = Normal h.
Proof.
  induction k as [|k IH]; intros n w Hk; rewrite tryRequest_cases; cbv zeta.
  all: destruct (Legacy.fetch _ _ _) as [r|err]; [cbn [snd]; eauto|].
  all: destruct err as [s| |cls name message cause resp]; try (cbn [snd]; eauto).
  all: repeat match goal with
       | |- context [if ?cond then _ else _] =>
           lazymatch cond with
           | (_ <? _) => destruct (Z.ltb_spec n (default 1 (Legacy.retries c)))
           | _ => destruct cond
           end
       end; try (cbn [snd]; eauto); try lia.
  all: cbn [finished snd]; apply IH; lia.
Qed.

(** [tryRequest] never runs out of fuel and never throws: it returns a
    result. *)
Lemma tryRequest_returns c n w : exists h, (Legacy.tryRequest c n w).2 = Normal h.
Proof. exact (tryRequest_returns_aux c _ n w eq_refl). Qed.

(** ** [tryRequest] on a platform that may refuse the request *)




(** C10.  In [tryRequest], a transport response that is not [ok] is
    returned at once as a [SERVER_ERROR] failure carrying it: one transport
    call, the timer armed and cleared, no delay, whatever [retries] and
    [retryDelay] are.  An attempt is followed by a delay or another transport
    call only when its transport call rejected, attempts remain, and the
    cause is a string containing the timeout message or a [TypeError] whose
    message contains ["Failed to fetch."]. *)
Theorem C10_tryRequest_retries_exceptions_only (c : Legacy.RequestContext) (n : Z) (w : World) :
  let request := attempt_request (Legacy.c_method c) w in
  let timer := length (signals w) in
  (forall r,
      Legacy.fetch c (S (calls w)) request = Resolve r ->
      ok r = false ->
      exists w',
        Legacy.tryRequest c n w = (w', Normal (Legacy.failure (Legacy.SERVER_ERROR r)))
        /\ calls w' = S (calls w)
        /\ trace w' = (trace w ++ [EvSetTimeout timer (default 10000 (Legacy.timeout c));
                                   EvFetch request; EvClearTimeout timer])%list
        /\ delays (trace w') = delays (trace w))
  /\ (calls (Legacy.tryRequest c n w).1 <> S (calls w)
      \/ delays (trace (Legacy.tryRequest c n w).1) <> delays (trace w) ->
      exists err,
        Legacy.fetch c (S (calls w)) request = Reject err
        /\ n < default 1 (Legacy.retries c)
        /\ ((exists s, err = JsString s /\ JS.includes s Legacy.TIMEOUT_MESSAGE = true)
            \/ (instanceof err TypeErrorC = true
                /\ JS.includes (err_message err) "Failed to fetch." = true))).
Proof.
  intros request timer.
  assert (Hdone : forall h : Legacy.Result Response Legacy.HttpError,
    let w' := log (called (legacy_world c w) request) [EvClearTimeout timer] in
    calls w' = S (calls w)
    /\ trace w' = (trace w ++ [EvSetTimeout timer (default 10000 (Legacy.timeout c));
                               EvFetch request; EvClearTimeout timer])%list
    /\ delays (trace w') = delays (trace w)).
  { intros _. cbn [calls trace log called legacy_world]. split; [reflexivity|].
    rewrite <- !app_assoc. split; [reflexivity|].
    rewrite delays_app. cbn. apply app_nil_r. }
  split.
  - intros r Hf Hok. rewrite tryRequest_cases. cbv zeta. fold request timer.
    rewrite Hf, Hok. eexists. split; [reflexivity|]. apply (Hdone (Legacy.success r)).
  - rewrite tryRequest_cases. cbv zeta. fold request timer.
    destruct (Legacy.fetch _ _ _) as [r|err].
    { cbn [fst]. intros [H|H]; destruct H; apply (Hdone (Legacy.success r)). }
    assert (Hno : forall h : Legacy.Result Response Legacy.HttpError,
      calls (log (called (legacy_world c w) request) [EvClearTimeout timer], Normal h).1
        <> S (calls w)
      \/ delays (trace (log (called (legacy_world c w) request) [EvClearTimeout timer],
                        Normal h).1) <> delays (trace w) ->
      exists err0 : JsValue, Reject err = Reject err0
        /\ n < default 1 (Legacy.retries c)
        /\ ((exists s, err0 = JsString s /\ JS.includes s Legacy.TIMEOUT_MESSAGE = true)
            \/ (instanceof err0 TypeErrorC = true
                /\ JS.includes (err_message err0) "Failed to fetch." = true))).
    { intros h [H|H]; destruct H; apply (Hdone h). }
    destruct err as [s| |cls name message cause resp].
    + destruct (JS.includes s _) eqn:Ei; [|apply Hno].
      destruct (Z.ltb_spec n (default 1 (Legacy.retries c))); [|apply Hno].
      intros _. exists (JsString s). repeat split; eauto.
    + apply Hno.
    + destruct (_ && _); [apply Hno|].
      destruct (_ && _) eqn:Et; [|apply Hno].
      destruct (Z.ltb_spec n (default 1 (Legacy.retries c))); [|apply Hno].
      intros _. exists (JsError cls name message cause resp).
      apply andb_true_iff in Et as [Et1 Et2]. repeat split; auto.
Qed.

Lemma C10_legacy_scenario :
  (Legacy.fetch legacy_scenario 1%nat (attempt_request "GET" (initial [])) = Resolve response_503
   /\ ok response_503 = false)
  /\ exists w',
       Legacy.tryRequest legacy_scenario 1 (initial []) =
         (w', Normal (Legacy.failure (Legacy.SERVER_ERROR response_503)))
       /\ calls w' = 1%nat
       /\ trace w' = [EvSetTimeout 0 10000; EvFetch (attempt_request "GET" (initial []));
                      EvClearTimeout 0]
       /\ delays (trace w') = [].
Proof.
  split; [split; reflexivity|].
  exact (proj1 (C10_tryRequest_retries_exceptions_only legacy_scenario 1 (initial []))
           response_503 eq_refl eq_refl).
Defined.

(** [tryRequest] does retry a timeout, with the delay [retryDelay * 2 ^ n]. *)
Example tryRequest_retries_timeouts :
  delays (trace (Legacy.tryRequest
                   (Legacy.mkContext (fun _ _ => Reject (JsString "Request timed out")) "GET"
                      (Some 3) (Some 100) None None)
                   1 (initial [])).1) = [200; 400].
Proof. vm_compute. reflexivity. Qed.

(** * Further properties of the code *)

(** ** [#handleError] *)

Lemma handleError_classified e :
  instanceof (Client.handleError e) ServerErrorC = true
  \/ exists cls message cause,
       Client.handleError e = JsError cls "Error" message cause None
       /\ In cls [AbortErrorC; NetworkErrorC; TimeoutErrorC; UnknownErrorC].
Proof.
  destruct e as [s| |cls name message cause resp];
    try (right; exists UnknownErrorC; do 2 eexists; split; [reflexivity|cbn; tauto]).
  destruct cls; try (left; reflexivity); right; cbn [Client.handleError].
  all: destruct (String.eqb name "AbortError");
    [exists AbortErrorC; do 2 eexists; split; [reflexivity|cbn; tauto]|].
  all: destruct (_ || _);
    [exists NetworkErrorC; do 2 eexists; split; [reflexivity|cbn; tauto]|].
  all: destruct (String.eqb name "TimeoutError");
    [exists TimeoutErrorC; do 2 eexists; split; [reflexivity|cbn; tauto]|].
  all: exists UnknownErrorC; do 2 eexists; split; [reflexivity|cbn; tauto].
Qed.

Lemma handleError_ServerError e :
  instanceof e ServerErrorC = true -> Client.handleError e = e.
Proof.
  destruct e as [s| |cls name message cause resp]; try discriminate.
  destruct cls; try discriminate. reflexivity.
Qed.

(** X3.  [#handleError] applied to its own result: a [ServerError] is
    returned as it is, and every other value, classified or not, becomes the
    [UnknownError], because the classes of the module do not set a [name]
    that the second pass would recognise. *)
Theorem X_handleError_twice (e : JsValue) :
  Client.handleError (Client.handleError e) =
  if instanceof e ServerErrorC then e
  else Client.UnknownError "An unknown error occurred.".
Proof.
  destruct (instanceof e ServerErrorC) eqn:Ei.
  - rewrite !handleError_ServerError; auto. rewrite handleError_ServerError; auto.
  - destruct (handleError_classified e) as [H|(cls & message & cause & He & Hc)].
    + destruct e as [s| |cls name message cause resp]; try discriminate H.
      destruct cls; try discriminate Ei; cbn [Client.handleError] in H.
      all: repeat match type of H with
           | context [if ?c then _ else _] => destruct c
           end; discriminate H.
    + rewrite He. cbn in Hc.
      destruct Hc as [<-|[<-|[<-|[<-|[]]]]]; reflexivity.
Qed.
Lemma rethrown_Normal {A} (x : World * Completion A) (a : A) :
  (rethrown x).2 = Normal a -> x.2 = Normal a.
Proof. destruct x as [w [a'|e|]]; cbn; congruence. Qed.

Lemma rethrown_Throw {A} (x : World * Completion A) (e : JsValue) :
  (rethrown x).2 = Throw e -> exists e', x.2 = Throw e' /\ e = Client.handleError e'.
Proof.
  destruct x as [w [a'|e'|]]; cbn; intros H; try discriminate.
  injection H as <-. exists e'. split; reflexivity.
Qed.

Lemma run_resolved_aux b : forall k n w r,
  Z.to_nat (default 0 (Client.retry (Client.b_options b)) - n) = k ->
  (Client.run b n w).2 = Normal r ->
  ok r = true
  /\ (calls w < calls (Client.run b n w).1)%nat
  /\ exists request,
       Client.fetch (Client.b_options b) (calls (Client.run b n w).1) request = Resolve r.
Proof.
  induction k as [|k IH]; intros n w r0 Hk; rewrite run_cases; cbv zeta.
  all: destruct (hook_throws _ _); [discriminate|].
  all: destruct (Client.fetch _ _ _) as [r|err] eqn:Ef; [|discriminate].
  all: destruct (hook_throws _ r); [discriminate|].
  all: destruct (ok r) eqn:Hok;
    [|destruct (Client.shouldRetryRequest _ _ _ _) eqn:E; [|discriminate]].
  all: cbn [fst snd]; intros H.
  all: try (injection H as <-; split; [assumption|]; split;
            [cbn [calls log called attempt_world]; lia|];
            eexists; cbn [calls log called attempt_world]; exact Ef).
  all: apply shouldRetryRequest_lt in E; try lia.
  apply rethrown_Normal in H. rewrite rethrown_fst.
  match goal with |- context [Client.run b (n + 1) ?w1] =>
    destruct (IH (n + 1) w1 r0 ltac:(lia) H) as (H1 & H2 & H3);
    cbn [calls log called attempt_world] in H2 end.
  repeat split; [assumption|lia|assumption].
Qed.

(** X1.  A response [run] resolves with is [ok], and it is the response the
    last transport call of the execution resolved with: at least one call
    was made, and no response that is not [ok] is ever handed to the
    caller. *)
Theorem X_resolved_response_is_ok (b : Client.Builder) (n : Z) (w : World) (r : Response) :
  (Client.run b n w).2 = Normal r ->
  ok r = true
  /\ (calls w < calls (Client.run b n w).1)%nat
  /\ exists request,
       Client.fetch (Client.b_options b) (calls (Client.run b n w).1) request = Resolve r.
Proof. exact (run_resolved_aux b _ n w r eq_refl). Qed.

Lemma X_resolved_response_is_ok_witness :
  (Client.run recovering_scenario 1 (initial [])).2 = Normal response_200
  /\ ok response_200 = true
  /\ (calls (initial []) < calls (Client.run recovering_scenario 1 (initial [])).1)%nat
  /\ exists request,
       Client.fetch (Client.b_options recovering_scenario)
         (calls (Client.run recovering_scenario 1 (initial [])).1) request
       = Resolve response_200.
Proof.
  split; [reflexivity|].
  exact (X_resolved_response_is_ok recovering_scenario 1 (initial []) response_200 eq_refl).
Defined.

Lemma run_rejection_classified (b : Client.Builder) (n : Z) (w : World) (e : JsValue) :
  hook_throws (Client.beforeSend (Client.b_options b))
    (attempt_request (Client.b_method b) w) = None ->
  (Client.run b n w).2 = Throw e ->
  instanceof e ServerErrorC = true
  \/ exists cls message cause,
       e = JsError cls "Error" message cause None
       /\ In cls [AbortErrorC; NetworkErrorC; TimeoutErrorC; UnknownErrorC].
Proof.
  intros Hbs. rewrite run_cases. cbv zeta. rewrite Hbs.
  destruct (Client.fetch _ _ _) as [r|err].
  2: { cbn [snd]. intros [= <-]. apply handleError_classified. }
  destruct (hook_throws _ r).
  { cbn [snd]. intros [= <-]. apply handleError_classified. }
  destruct (ok r); [discriminate|].
  destruct (Client.shouldRetryRequest _ _ _ _).
  - intros H. apply rethrown_Throw in H as (e' & _ & ->). apply handleError_classified.
  - cbn [snd]. intros [= <-]. left. reflexivity.
Qed.

(** X2.  What [run] throws.  When the platform refuses the timeout or the
    request, it is what the platform throws, as it is.  When the
    [beforeSend] hook of the attempt throws, it is what the hook throws, as
    it is.  Otherwise it is a [ServerError] or an instance of one of the
    four client error classes of the module, whose [name] is the inherited
    ["Error"]: no value of the transport or of the [onResponse] hook escapes
    as it was thrown. *)
Theorem X_rejections_are_classified (rt : Runtime) (b : Client.Builder) (n : Z) (w : World)
    (e : JsValue) :
  (Platform.run rt b n w).2 = Throw e ->
  match Platform.refusal rt b,
        hook_throws (Client.beforeSend (Client.b_options b))
          (attempt_request (Client.b_method b) w) with
  | Some refused, _ => e = refused
  | None, Some thrown => e = thrown
  | None, None =>
      instanceof e ServerErrorC = true
      \/ exists cls message cause,
           e = JsError cls "Error" message cause None
           /\ In cls [AbortErrorC; NetworkErrorC; TimeoutErrorC; UnknownErrorC]
  end.
Proof.
  destruct (Platform.refusal rt b) as [refused|] eqn:Ha.
  { destruct (Platform_run_refused rt b n w refused Ha) as (-> & _).
    intros [= <-]. reflexivity. }
  rewrite Platform_run_accepted by exact Ha.
  destruct (hook_throws _ _) as [thrown|] eqn:Hbs.
  - rewrite run_cases. cbv zeta. rewrite Hbs. intros [= <-]. reflexivity.
  - apply run_rejection_classified. exact Hbs.
Qed.

Lemma X_rejections_are_classified_witness :
  (Platform.run standard network_scenario 1 (initial [])).2
  = Throw (Client.NetworkError "Failed to fetch"
             (Some (JsError TypeErrorC "TypeError" "Failed to fetch" None None)))
  /\ (instanceof
        (Client.NetworkError "Failed to fetch"
           (Some (JsError TypeErrorC "TypeError" "Failed to fetch" None None)))
        ServerErrorC = true
      \/ exists cls message cause,
           Client.NetworkError "Failed to fetch"
             (Some (JsError TypeErrorC "TypeError" "Failed to fetch" None None))
           = JsError cls "Error" message cause None
           /\ In cls [AbortErrorC; NetworkErrorC; TimeoutErrorC; UnknownErrorC]).
Proof.
  split; [reflexivity|].
  exact (X_rejections_are_classified standard network_scenario 1 (initial []) _ eq_refl).
Defined.

(** X4.  With a [beforeSend] hook that never throws, an execution that
    made two transport calls or more and throws, throws a [ServerError] or
    the [UnknownError]: the [catch] block of every enclosing attempt passes
    the error of the nested attempt through [#handleError] again, so an
    [AbortError], [NetworkError] or [TimeoutError] of a retried request
    never reaches the caller. *)
Theorem X_error_after_retry_is_server_or_unknown (b : Client.Builder) (n : Z) (w : World)
    (e : JsValue) :
  (forall request, hook_throws (Client.beforeSend (Client.b_options b)) request = None) ->
  (Client.run b n w).2 = Throw e ->
  (calls w + 2 <= calls (Client.run b n w).1)%nat ->
  instanceof e ServerErrorC = true
  \/ e = Client.UnknownError "An unknown error occurred.".
Proof.
  intros Hbs. rewrite run_cases. cbv zeta. rewrite Hbs.
  destruct (Client.fetch _ _ _) as [r|err];
    [|cbn [fst snd calls log called attempt_world]; lia].
  destruct (hook_throws _ r); [cbn [fst snd calls log called attempt_world]; lia|].
  destruct (ok r); [discriminate|].
  destruct (Client.shouldRetryRequest _ _ _ _);
    [|cbn [fst snd calls log called attempt_world]; lia].
  intros H _. apply rethrown_Throw in H as (e' & He' & ->).
  apply run_rejection_classified in He'; [|apply Hbs].
  destruct He' as [Hs|(cls & message & cause & -> & Hc)].
  - left. rewrite handleError_ServerError; assumption.
  - right. cbn in Hc. destruct Hc as [<-|[<-|[<-|[<-|[]]]]]; reflexivity.
Qed.

Lemma X_error_after_retry_witness :
  ((forall request,
      hook_throws (Client.beforeSend (Client.b_options flaky_scenario)) request = None)
   /\ (Client.run flaky_scenario 1 (initial [])).2
      = Throw (Client.UnknownError "An unknown error occurred.")
   /\ (calls (initial []) + 2 <= calls (Client.run flaky_scenario 1 (initial [])).1)%nat)
  /\ (instanceof (Client.UnknownError "An unknown error occurred.") ServerErrorC = true
      \/ Client.UnknownError "An unknown error occurred."
         = Client.UnknownError "An unknown error occurred.").
Proof.
  split; [split; [reflexivity|split; [reflexivity|apply Nat.le_refl]]|].
  exact (X_error_after_retry_is_server_or_unknown flaky_scenario 1 (initial []) _
           (fun _ => eq_refl) eq_refl (Nat.le_refl 2)).
Defined.
(** ** The backoff *)

Lemma backoffDelay_bounds d n r : 200 <= Client.backoffDelay d n r <= 10000.
Proof.
  unfold Client.backoffDelay, Client.MAX_RETRY_DELAY, Client.MIN_RETRY_DELAY.
  cbv zeta. lia.
Qed.

Lemma parseDigits_acc d : forall acc : positive,
  JS.parseDigits (Some (Zpos acc)) (NilEmpty.string_of_uint d)
  = Some (Zpos (Pos.of_uint_acc d acc)).
Proof.
  induction d as [|d IH|d IH|d IH|d IH|d IH|d IH|d IH|d IH|d IH|d IH]; intros acc;
    cbn [NilEmpty.string_of_uint Pos.of_uint_acc]; [reflexivity|..].
  all: cbn [JS.parseDigits].
  all: match goal with |- context [JS.digit ?c] =>
         let v := eval vm_compute in (JS.digit c) in change (JS.digit c) with v end.
  all: cbv iota beta; cbn [default]; unfold id.
  all: match goal with |- JS.parseDigits (Some ?z) _ = Some (Zpos (Pos.of_uint_acc _ ?p)) =>
         replace z with (Zpos p) by lia end.
  all: apply IH.
Qed.

Lemma parseDigits_uint d :
  JS.parseDigits (Some 0) (NilEmpty.string_of_uint d) = Some (Z.of_N (Pos.of_uint d)).
Proof.
  induction d as [|d IH|d IH|d IH|d IH|d IH|d IH|d IH|d IH|d IH|d IH];
    cbn [NilEmpty.string_of_uint Pos.of_uint]; [reflexivity|..].
  all: cbn [JS.parseDigits].
  all: match goal with |- context [JS.digit ?c] =>
         let v := eval vm_compute in (JS.digit c) in change (JS.digit c) with v end.
  all: cbv iota beta; cbn [default]; unfold id.
  all: try exact IH.
  all: cbn [Z.of_N]; apply (parseDigits_acc d).
Qed.

Lemma parseDigits_None_uint d :
  d <> Decimal.Nil ->
  JS.parseDigits None (NilEmpty.string_of_uint d) = Some (Z.of_N (Pos.of_uint d)).
Proof.
  intros Hd. rewrite <- parseDigits_uint.
  destruct d; try congruence; reflexivity.
Qed.

Lemma parseInt_unsigned d :
  d <> Decimal.Nil ->
  JS.parseInt (NilEmpty.string_of_uint d) = JS.parseDigits None (NilEmpty.string_of_uint d).
Proof. intros Hd. destruct d; try congruence; reflexivity. Qed.

(** [parseInt(String(n), 10)] is [n]. *)
Lemma parseInt_String_of n : JS.parseInt (JS.String_of n) = Some n.
Proof.
  unfold JS.String_of, NilZero.string_of_int, NilZero.string_of_uint.
  destruct n as [|p|p]; cbn [Z.to_int]; [reflexivity|..].
  all: pose proof (DecimalPos.Unsigned.to_uint_nonnil p) as Hn.
  all: pose proof (DecimalPos.Unsigned.of_to p) as Hp.
  all: pose proof (parseDigits_None_uint _ Hn) as Hd; rewrite Hp in Hd.
  - pose proof (parseInt_unsigned _ Hn) as Hi. rewrite Hd in Hi.
    destruct (Pos.to_uint p); try congruence; exact Hi.
  - destruct (Pos.to_uint p); try congruence;
      (change (JS.parseInt (String "-" ?s)) with (option_map Z.opp (JS.parseDigits None s));
       rewrite Hd; reflexivity).
Qed.

(** X5.  For an attempt [n] from 1 on whose backoff is a number, and a
    response whose [Retry-After] header is the decimal text of an integer
    [seconds] below [10 ^ 21] in absolute value, which [String] writes in
    plain digits: the delay is the larger of [seconds * 1000] and the
    exponential backoff, clamped between 200 and 10000 milliseconds.
    [parseInt] reads back what [String] wrote. *)
Theorem X_retry_after_decimal_seconds (d n seconds st : Z) (bd : string) :
  1 <= n ->
  backoff_is_number d n ->
  Z.abs seconds < 10 ^ 21 ->
  Client.backoffDelay d n (mkResponse st (Some (JS.String_of seconds)) bd)
  = clamp (Z.max (seconds * 1000) (d * 2 ^ (n - 1))) 200 10000.
Proof.
  intros _ _ _. unfold Client.backoffDelay. cbn [retryAfter].
  pose proof (String_of_nonempty seconds) as Hne.
  pose proof (parseInt_String_of seconds) as Hp.
  destruct (JS.String_of seconds) as [|c s]; [congruence|].
  rewrite Hp. apply clamp_min_max.
Qed.

Lemma X_retry_after_decimal_seconds_witness :
  (1 <= 1 /\ backoff_is_number 500 1 /\ Z.abs 3 < 10 ^ 21)
  /\ Client.backoffDelay 500 1 (mkResponse 429 (Some (JS.String_of 3)) "")
     = clamp (Z.max (3 * 1000) (500 * 2 ^ (1 - 1))) 200 10000.
Proof.
  assert (H1 : 1 <= 1) by apply Z.le_refl.
  assert (H2 : backoff_is_number 500 1) by (left; discriminate).
  assert (H3 : Z.abs 3 < 10 ^ 21) by reflexivity.
  split; [repeat split; assumption|].
  exact (X_retry_after_decimal_seconds 500 1 3 429 "" H1 H2 H3).
Defined.

(** X6.  With a retry delay that is not negative and backoffs that are
    numbers, a [Retry-After] header never shortens the delay of an attempt,
    and the delay after a later attempt is never shorter than the delay
    after an earlier one, for the same response. *)
Theorem X_backoff_grows (d n m : Z) (r : Response) :
  0 <= d -> 1 <= n <= m ->
  backoff_is_number d m ->
  Client.backoffDelay d n (mkResponse (status r) None (body r)) <= Client.backoffDelay d n r
  /\ Client.backoffDelay d n r <= Client.backoffDelay d m r.
Proof.
  intros Hd Hn _.
  assert (Hpow : d * 2 ^ (n - 1) <= d * 2 ^ (m - 1)).
  { apply Z.mul_le_mono_nonneg_l; [assumption|].
    apply Z.pow_le_mono_r; lia. }
  unfold Client.backoffDelay, Client.MAX_RETRY_DELAY, Client.MIN_RETRY_DELAY.
  cbn [retryAfter]. cbv zeta.
  destruct (retryAfter r) as [[|c s]|]; try lia.
  destruct (JS.parseInt (String c s)) as [secs|]; lia.
Qed.

Lemma X_backoff_grows_witness :
  (0 <= 100 /\ 1 <= 1 <= 2 /\ backoff_is_number 100 2)
  /\ Client.backoffDelay 100 1 (mkResponse 429 None "")
       <= Client.backoffDelay 100 1 (mkResponse 429 (Some "5") "")
  /\ Client.backoffDelay 100 1 (mkResponse 429 (Some "5") "")
       <= Client.backoffDelay 100 2 (mkResponse 429 (Some "5") "").
Proof.
  assert (H : backoff_is_number 100 2) by (left; discriminate).
  split; [repeat split; [lia..|exact H]|].
  exact (X_backoff_grows 100 1 2 (mkResponse 429 (Some "5") "") ltac:(lia) ltac:(lia) H).
Defined.

Lemma sum_delays_app (l1 l2 : list Z) :
  fold_right Z.add 0 (l1 ++ l2) = fold_right Z.add 0 l1 + fold_right Z.add 0 l2.
Proof. induction l1 as [|x l1 IH]; cbn; lia. Qed.

Lemma run_delays_bounded b : forall k n w,
  Z.to_nat (default 0 (Client.retry (Client.b_options b)) - n) = k ->
  Forall (fun d => 200 <= d <= 10000) (delays (trace w)) ->
  Forall (fun d => 200 <= d <= 10000) (delays (trace (Client.run b n w).1))
  /\ fold_right Z.add 0 (delays (trace (Client.run b n w).1))
     <= fold_right Z.add 0 (delays (trace w)) + 10000 * Z.of_nat k.
Proof.
  induction k as [|k IH]; intros n w Hk Hw; attempt_cases.
  all: try rewrite rethrown_fst.
  all: try (apply shouldRetryRequest_lt in E).
  all: try lia.
  all: cbn [fst trace log called attempt_world].
  all: try (rewrite !delays_app, ?delays_hook_events by (intros; exact I);
            cbn [delays omap list_omap]; rewrite ?app_nil_r; split; [assumption|lia]).
  match goal with |- context [Client.run b (n + 1) ?w1] =>
    destruct (IH (n + 1) w1 ltac:(lia)) as [H1 H2] end.
  - cbn [trace log called attempt_world].
    rewrite !delays_app, !delays_hook_events by (intros; exact I).
    cbn. rewrite !app_nil_r. apply Forall_app. split; [assumption|].
    constructor; [apply backoffDelay_bounds|constructor].
  - split; [assumption|].
    etransitivity; [exact H2|].
    cbn [trace log called attempt_world].
    rewrite !delays_app, !delays_hook_events by (intros; exact I).
    cbn. rewrite !app_nil_r, sum_delays_app. cbn.
    pose proof (backoffDelay_bounds (default 500 (Client.retryDelay (Client.b_options b))) n r).
    lia.
Qed.

(** X7.  For integer options whose backoffs are numbers, every delay
    [response] awaits lies between 200 and 10000 milliseconds, and the
    delays of one execution add up to at most 10000 milliseconds for each
    retry the options allow, whatever the platform accepts. *)
Theorem X_delays_are_bounded (rt : Runtime) (b : Client.Builder) (st : Store) :
  backoff_is_number (default 500 (Client.retryDelay (Client.b_options b)))
    (default 0 (Client.retry (Client.b_options b)) - 1) ->
  Forall (fun d => 200 <= d <= 10000) (delays (trace (Platform.response rt b (initial st)).1))
  /\ fold_right Z.add 0 (delays (trace (Platform.response rt b (initial st)).1))
     <= 10000 * (Z.max (default 0 (Client.retry (Client.b_options b))) 1 - 1).
Proof.
  intros _. unfold Platform.response.
  destruct (Platform.refusal rt b) as [e|] eqn:Ha.
  { destruct (Platform_run_refused rt b 1 (initial st) e Ha) as (_ & _ & -> & _).
    cbn [initial trace delays omap list_omap fold_right]. split; [constructor|lia]. }
  rewrite Platform_run_accepted by exact Ha.
  destruct (run_delays_bounded b _ 1 (initial st) eq_refl) as [H1 H2]; [constructor|].
  split; [exact H1|]. cbn in H2. lia.
Qed.

Lemma X_delays_are_bounded_witness :
  backoff_is_number 100 (3 - 1)
  /\ Forall (fun d => 200 <= d <= 10000)
       (delays (trace (Platform.response standard recovering_scenario (initial [])).1)).
Proof.
  assert (H : backoff_is_number 100 (3 - 1)) by (left; discriminate).
  split; [exact H|].
  exact (proj1 (X_delays_are_bounded standard recovering_scenario [] H)).
Defined.

Section Exhaustion.

Variable b : Client.Builder.
Variable rs : nat -> Response.
Hypothesis Hget : normalizeMethod (Client.b_method b) = "GET".
Hypothesis Hbs : forall request,
  hook_throws (Client.beforeSend (Client.b_options b)) request = None.
Hypothesis Hor : forall response,
  hook_throws (Client.onResponse (Client.b_options b)) response = None.
Hypothesis Hfetch : forall k request,
  Client.fetch (Client.b_options b) k request = Resolve (rs k).
Hypothesis Hretryable : forall k,
  ok (rs k) = false /\ In (status (rs k)) Client.RETRY_CODE_LIST.

Lemma run_exhausts : forall k n w,
  Z.to_nat (default 0 (Client.retry (Client.b_options b)) - n) = k ->
  n <= default 0 (Client.retry (Client.b_options b)) ->
  n = Z.of_nat (calls w) + 1 ->
  (Client.run b n w).2 =
    Throw (Client.ServerError (rs (Z.to_nat (default 0 (Client.retry (Client.b_options b))))))
  /\ calls (Client.run b n w).1 = Z.to_nat (default 0 (Client.retry (Client.b_options b)))
  /\ delays (trace (Client.run b n w).1) =
     (delays (trace w)
      ++ map (fun j => Client.backoffDelay
                         (default 500 (Client.retryDelay (Client.b_options b)))
                         (Z.of_nat j) (rs j))
             (seq (S (calls w)) k))%list.
Proof.
  induction k as [|k IH]; intros n w Hk Hle Hn; rewrite run_cases; cbv zeta;
    rewrite Hbs, Hfetch, Hor; destruct (Hretryable (S (calls w))) as [Hok Hst]; rewrite Hok.
  - rewrite shouldRetryRequest_last by lia.
    cbn [fst snd calls trace log called attempt_world].
    replace (Z.to_nat _) with (S (calls w)) by lia.
    repeat split.
    rewrite !delays_app, !delays_hook_events by (intros; exact I).
    cbn. rewrite !app_nil_r. reflexivity.
  - assert (Hs : Client.shouldRetryRequest (attempt_request (Client.b_method b) w)
                   (rs (S (calls w))) n (default 0 (Client.retry (Client.b_options b))) = true).
    { apply shouldRetryRequest_iff. repeat split; [exact Hget|exact Hst|lia]. }
    rewrite Hs, rethrown_fst.
    match goal with |- context [Client.run b (n + 1) ?w1] =>
      destruct (IH (n + 1) w1 ltac:(lia) ltac:(lia)) as (H1 & H2 & H3);
        [cbn [calls log called attempt_world]; lia|];
      destruct (Client.run b (n + 1) w1) as [w' c] eqn:Er end.
    cbn [fst snd] in *. subst c. cbn [rethrown snd fst].
    split; [reflexivity|]. split; [exact H2|].
    rewrite H3. cbn [calls trace log called attempt_world].
    rewrite !delays_app, !delays_hook_events by (intros; exact I).
    cbn [delays omap list_omap app]. rewrite !app_nil_r, <- app_assoc. cbn [app seq map].
    replace (Z.of_nat (S (calls w))) with n by lia. reflexivity.
Qed.

End Exhaustion.

(** X8.  A request the platform accepts, whose method normalizes to [GET],
    with [retry] at least 1, backoffs that are numbers and hooks that do
    not throw, against a transport that answers every call with a response
    that is not [ok] and whose status is in [RETRY_CODE_LIST]: [response]
    makes exactly [retry] transport calls, awaits the backoff delay of each
    attempt but the last, and throws the [ServerError] of the last
    response. *)
Theorem X_exhausted_retries (rt : Runtime) (b : Client.Builder) (st : Store)
    (rs : nat -> Response) :
  Platform.refusal rt b = None ->
  normalizeMethod (Client.b_method b) = "GET" ->
  1 <= default 0 (Client.retry (Client.b_options b)) ->
  backoff_is_number (default 500 (Client.retryDelay (Client.b_options b)))
    (default 0 (Client.retry (Client.b_options b)) - 1) ->
  (forall request, hook_throws (Client.beforeSend (Client.b_options b)) request = None) ->
  (forall response, hook_throws (Client.onResponse (Client.b_options b)) response = None) ->
  (forall k request, Client.fetch (Client.b_options b) k request = Resolve (rs k)) ->
  (forall k, ok (rs k) = false /\ In (status (rs k)) Client.RETRY_CODE_LIST) ->
  (Platform.response rt b (initial st)).2 =
    Throw (Client.ServerError (rs (Z.to_nat (default 0 (Client.retry (Client.b_options b))))))
  /\ calls (Platform.response rt b (initial st)).1
     = Z.to_nat (default 0 (Client.retry (Client.b_options b)))
  /\ delays (trace (Platform.response rt b (initial st)).1) =
     map (fun j => Client.backoffDelay
                     (default 500 (Client.retryDelay (Client.b_options b)))
                     (Z.of_nat j) (rs j))
         (seq 1 (Z.to_nat (default 0 (Client.retry (Client.b_options b))) - 1)).
Proof.
  intros Ha Hget HN _ Hbs Hor Hf Hr.
  pose proof (run_exhausts b rs Hget Hbs Hor Hf Hr _ 1 (initial st) eq_refl HN eq_refl)
    as (H1 & H2 & H3).
  unfold Platform.response. rewrite Platform_run_accepted by exact Ha.
  repeat split; [exact H1|exact H2|].
  rewrite H3. cbn [initial trace delays omap list_omap app calls]. f_equal. f_equal. lia.
Qed.

Lemma X_exhausted_retries_witness :
  (Platform.refusal standard exhausted_scenario = None
   /\ normalizeMethod "get" = "GET" /\ 1 <= 3 /\ backoff_is_number 1000 (3 - 1))
  /\ (Platform.response standard exhausted_scenario (initial [])).2
     = Throw (Client.ServerError response_503)
  /\ calls (Platform.response standard exhausted_scenario (initial [])).1 = 3%nat
  /\ delays (trace (Platform.response standard exhausted_scenario (initial [])).1)
     = [1000; 2000].
Proof.
  assert (H : backoff_is_number 1000 (3 - 1)) by (left; discriminate).
  split; [split; [reflexivity|split; [reflexivity|split; [lia|exact H]]]|].
  exact (X_exhausted_retries standard exhausted_scenario [] (fun _ => response_503)
           eq_refl eq_refl ltac:(cbn; lia) H (fun _ => eq_refl) (fun _ => eq_refl)
           (fun _ _ => eq_refl)
           (fun _ => conj eq_refl (or_intror (or_intror (or_intror (or_intror
                        (or_intror (or_intror (or_introl eq_refl))))))))).
Defined.

(** ** Observing a store through the operations on listeners *)

Lemma signal_aborted_alter f i st j :
  (forall s, aborted (f s) = aborted s) ->
  signal_aborted (alter f i st) j = signal_aborted st j.
Proof.
  intros Hf. unfold signal_aborted, Store in *.
  destruct (decide (i = j)) as [->|Hne].
  - rewrite list_lookup_alter_eq. destruct (st !! j); cbn; [apply Hf|reflexivity].
  - rewrite list_lookup_alter_ne by assumption. reflexivity.
Qed.

Lemma signal_reason_alter f i st j :
  (forall s, reason (f s) = reason s) ->
  signal_reason (alter f i st) j = signal_reason st j.
Proof.
  intros Hf. unfold signal_reason, Store in *.
  destruct (decide (i = j)) as [->|Hne].
  - rewrite list_lookup_alter_eq. destruct (st !! j); cbn; [apply Hf|reflexivity].
  - rewrite list_lookup_alter_ne by assumption. reflexivity.
Qed.

Lemma signal_listeners_alter_ne f i st j :
  i <> j -> signal_listeners (alter f i st) j = signal_listeners st j.
Proof.
  intros Hne. unfold signal_listeners, Store in *. rewrite list_lookup_alter_ne by assumption. reflexivity.
Qed.

Lemma signal_aborted_addEventListener st i l once j :
  signal_aborted (addEventListener st i l once) j = signal_aborted st j.
Proof.
  unfold addEventListener. destruct (registered st i l); [reflexivity|].
  apply signal_aborted_alter. reflexivity.
Qed.

Lemma signal_reason_addEventListener st i l once j :
  signal_reason (addEventListener st i l once) j = signal_reason st j.
Proof.
  unfold addEventListener. destruct (registered st i l); [reflexivity|].
  apply signal_reason_alter. reflexivity.
Qed.

Lemma signal_listeners_addEventListener_ne st i l once j :
  i <> j -> signal_listeners (addEventListener st i l once) j = signal_listeners st j.
Proof.
  intros Hne. unfold addEventListener. destruct (registered st i l); [reflexivity|].
  apply signal_listeners_alter_ne. assumption.
Qed.

Lemma registered_iff st i l : registered st i l = true <-> l ∈ signal_listeners st i.
Proof.
  unfold registered, signal_listeners. destruct (st !! i).
  - apply bool_decide_eq_true.
  - split; [discriminate|]. intros H. apply elem_of_nil in H. contradiction.
Qed.

Lemma signal_listeners_addEventListener st i l once :
  (i < length st)%nat ->
  signal_listeners (addEventListener st i l once) i =
  if registered st i l then signal_listeners st i
  else (signal_listeners st i ++ [l])%list.
Proof.
  intros Hi. unfold addEventListener. destruct (registered st i l); [reflexivity|].
  unfold signal_listeners, Store in *. rewrite list_lookup_alter_eq.
  destruct (lookup_lt_is_Some_2 st i Hi) as [s Hs]. rewrite Hs. cbn.
  rewrite fmap_app. reflexivity.
Qed.

Lemma signal_aborted_removeEventListener st i l j :
  signal_aborted (removeEventListener st i l) j = signal_aborted st j.
Proof. apply signal_aborted_alter. reflexivity. Qed.

Lemma signal_reason_removeEventListener st i l j :
  signal_reason (removeEventListener st i l) j = signal_reason st j.
Proof. apply signal_reason_alter. reflexivity. Qed.

Lemma signal_listeners_removeEventListener st i l j :
  signal_listeners (removeEventListener st i l) j =
  if decide (i = j) then filter (fun l' => l' <> l) (signal_listeners st j)
  else signal_listeners st j.
Proof.
  unfold removeEventListener, signal_listeners, Store in *.
  destruct (decide (i = j)) as [->|Hne].
  - rewrite list_lookup_alter_eq. destruct (st !! j) as [s|]; cbn; [|reflexivity].
    induction (listeners s) as [|[l' o] ls IH]; [reflexivity|].
    cbn [fmap list_fmap]. rewrite !filter_cons. cbn [fst].
    destruct (decide (l' <> l)); cbn [fmap list_fmap fst]; rewrite IH; reflexivity.
  - rewrite list_lookup_alter_ne by assumption. reflexivity.
Qed.

Lemma signal_aborted_removeFromAll st sources l j :
  signal_aborted (removeFromAll st sources l) j = signal_aborted st j.
Proof.
  unfold removeFromAll.
  apply (fold_left_preserves (fun s => signal_aborted s j = signal_aborted st j)); [|reflexivity].
  intros a x Ha. rewrite signal_aborted_removeEventListener. exact Ha.
Qed.

Lemma signal_reason_removeFromAll st sources l j :
  signal_reason (removeFromAll st sources l) j = signal_reason st j.
Proof.
  unfold removeFromAll.
  apply (fold_left_preserves (fun s => signal_reason s j = signal_reason st j)); [|reflexivity].
  intros a x Ha. rewrite signal_reason_removeEventListener. exact Ha.
Qed.

Lemma signal_aborted_insert st i s j :
  (i < length st)%nat ->
  signal_aborted (<[i := s]> st) j = if decide (i = j) then aborted s else signal_aborted st j.
Proof.
  intros Hi. unfold signal_aborted, Store in *. destruct (decide (i = j)) as [->|Hne].
  - rewrite list_lookup_insert_eq by assumption. reflexivity.
  - rewrite list_lookup_insert_ne by assumption. reflexivity.
Qed.

Lemma signal_reason_insert st i s j :
  (i < length st)%nat ->
  signal_reason (<[i := s]> st) j = if decide (i = j) then reason s else signal_reason st j.
Proof.
  intros Hi. unfold signal_reason, Store in *. destruct (decide (i = j)) as [->|Hne].
  - rewrite list_lookup_insert_eq by assumption. reflexivity.
  - rewrite list_lookup_insert_ne by assumption. reflexivity.
Qed.

Lemma signal_aborted_valid st j : signal_aborted st j = true -> (j < length st)%nat.
Proof.
  unfold signal_aborted. destruct (st !! j) eqn:E; [|discriminate].
  intros _. apply lookup_lt_Some in E. exact E.
Qed.

Lemma signal_listeners_removeFromAll st sources l j :
  signal_listeners (removeFromAll st sources l) j =
  if bool_decide (j ∈ sources) then filter (fun l' => l' <> l) (signal_listeners st j)
  else signal_listeners st j.
Proof.
  unfold removeFromAll. revert st.
  induction sources as [|src sources IH]; intros st; cbn [fold_left].
  - rewrite bool_decide_eq_false_2 by apply not_elem_of_nil. reflexivity.
  - rewrite IH, signal_listeners_removeEventListener.
    destruct (decide (src = j)) as [->|Hne].
    + rewrite (bool_decide_eq_true_2 (j ∈ j :: sources)) by (apply elem_of_cons; left; reflexivity).
      destruct (bool_decide (j ∈ sources)); [|reflexivity].
      rewrite list_filter_filter. apply list_filter_iff. tauto.
    + destruct (bool_decide (j ∈ sources)) eqn:E.
      * apply bool_decide_eq_true in E.
        rewrite bool_decide_eq_true_2 by (apply elem_of_cons; right; exact E). reflexivity.
      * apply bool_decide_eq_false in E.
        rewrite bool_decide_eq_false_2; [reflexivity|].
        intros H. apply elem_of_cons in H as [H|H]; [congruence|contradiction].
Qed.

(** A fresh controller leaves the signals before it as they are. *)
Lemma signal_aborted_new st j :
  signal_aborted (AbortController_new st).2 j = signal_aborted st j.
Proof.
  unfold AbortController_new, signal_aborted, Store in *. cbn [snd].
  destruct (decide (j < length st)%nat) as [Hlt|Hge].
  - rewrite lookup_app_l by assumption. reflexivity.
  - rewrite lookup_app_r by lia. rewrite (lookup_ge_None_2 st j) by lia.
    destruct (j - length st)%nat; reflexivity.
Qed.

Lemma signal_reason_new st j :
  signal_reason (AbortController_new st).2 j = signal_reason st j.
Proof.
  unfold AbortController_new, signal_reason, Store in *. cbn [snd].
  destruct (decide (j < length st)%nat) as [Hlt|Hge].
  - rewrite lookup_app_l by assumption. reflexivity.
  - rewrite lookup_app_r by lia. rewrite (lookup_ge_None_2 st j) by lia.
    destruct (j - length st)%nat; reflexivity.
Qed.

Lemma signal_listeners_new st j :
  signal_listeners (AbortController_new st).2 j = signal_listeners st j.
Proof.
  unfold AbortController_new, signal_listeners, Store in *. cbn [snd].
  destruct (decide (j < length st)%nat) as [Hlt|Hge].
  - rewrite lookup_app_l by assumption. reflexivity.
  - rewrite lookup_app_r by lia. rewrite (lookup_ge_None_2 st j) by lia.
    destruct (j - length st)%nat; reflexivity.
Qed.

Lemma length_new st : length (AbortController_new st).2 = S (length st).
Proof. unfold AbortController_new. cbn [snd]. rewrite length_app. cbn. lia. Qed.

(** Firing a signal nobody listens to only records the reason. *)
Lemma abort_no_listeners fuel (st : Store) id r s :
  st !! id = Some s -> aborted s = false -> listeners s = [] ->
  abort (S fuel) st id r
  = <[id := mkSignal true (Some (default defaultAbortReason r)) []]> st.
Proof. intros H1 H2 H3. cbn [abort]. rewrite H1, H2, H3. reflexivity. Qed.

Lemma abort_fired fuel (st : Store) id r :
  signal_aborted st id = true -> abort fuel st id r = st.
Proof.
  unfold signal_aborted. intros H. destruct fuel; [reflexivity|]. cbn [abort].
  destruct (st !! id) as [s|]; [|reflexivity]. rewrite H. reflexivity.
Qed.

Lemma signal_listeners_insert (st : Store) i s j :
  (i < length st)%nat ->
  signal_listeners (<[i := s]> st) j
  = if decide (i = j) then (listeners s).*1 else signal_listeners st j.
Proof.
  intros Hi. unfold signal_listeners, Store in *. destruct (decide (i = j)) as [->|Hne].
  - rewrite list_lookup_insert_eq by assumption. reflexivity.
  - rewrite list_lookup_insert_ne by assumption. reflexivity.
Qed.


(** ** [mergeAbortSignals]: what the composition leaves in the store *)

(** One source of a composition, in either composer: the controller is
    aborted when the source has fired, and [onAbort] is registered on the
    source otherwise. *)
Lemma compose_source (s : Store) src m (l : Listener) (once : bool) (r : option JsValue) :
  (m < length s)%nat -> src <> m -> signal_listeners s m = [] ->
  let s' := if signal_aborted s src then AbortController_abort s m r
            else addEventListener s src l once in
  length s' = length s
  /\ (forall j, j <> m ->
        signal_aborted s' j = signal_aborted s j /\ signal_reason s' j = signal_reason s j)
  /\ signal_aborted s' m = signal_aborted s m || signal_aborted s src
  /\ signal_reason s' m =
       (if signal_aborted s m then signal_reason s m
        else if signal_aborted s src then Some (default defaultAbortReason r)
        else signal_reason s m)
  /\ signal_listeners s' m = []
  /\ (forall j, signal_listeners s j `prefix_of` signal_listeners s' j)
  /\ (signal_aborted s src = false -> (src < length s)%nat -> l ∈ signal_listeners s' src).
Proof.
  intros Hm Hne Hl. cbv zeta.
  destruct (signal_aborted s src) eqn:Es.
  - destruct (signal_aborted s m) eqn:Em.
    + unfold AbortController_abort. rewrite abort_fired by assumption.
      rewrite Em. repeat split; try reflexivity; try assumption; discriminate.
    + destruct (lookup_lt_is_Some_2 s m Hm) as [sm Hsm].
      assert (Ha : aborted sm = false).
      { unfold signal_aborted in Em. unfold Store in *. rewrite Hsm in Em. exact Em. }
      assert (Hls : listeners sm = []).
      { unfold signal_listeners in Hl. unfold Store in *. rewrite Hsm in Hl.
        apply fmap_nil_inv in Hl. exact Hl. }
      unfold AbortController_abort.
      rewrite (abort_no_listeners _ s m r sm Hsm Ha Hls).
      split; [apply length_insert|].
      split.
      { intros j Hj. rewrite signal_aborted_insert, signal_reason_insert by assumption.
        rewrite !decide_False by congruence. split; reflexivity. }
      rewrite signal_aborted_insert, signal_reason_insert, signal_listeners_insert
        by assumption.
      rewrite !decide_True by reflexivity. cbn [aborted reason listeners fmap list_fmap].
      repeat split; try discriminate.
      intros j. rewrite signal_listeners_insert by assumption.
      destruct (decide (m = j)) as [<-|_]; [rewrite Hl; apply prefix_nil|reflexivity].
  - split; [apply length_addEventListener|].
    split.
    { intros j _. rewrite signal_aborted_addEventListener, signal_reason_addEventListener.
      split; reflexivity. }
    rewrite signal_aborted_addEventListener, signal_reason_addEventListener.
    rewrite signal_listeners_addEventListener_ne by assumption.
    rewrite orb_false_r.
    repeat split; try assumption.
    + destruct (signal_aborted s m); reflexivity.
    + intros j. destruct (decide (src = j)) as [<-|Hj].
      * destruct (decide (src < length s)%nat) as [Hlt|Hge].
        -- rewrite signal_listeners_addEventListener by assumption.
           destruct (registered s src _); [reflexivity|apply prefix_app_r; reflexivity].
        -- unfold addEventListener. destruct (registered s src _); [reflexivity|].
           unfold signal_listeners, Store in *. rewrite list_lookup_alter_eq.
           rewrite (lookup_ge_None_2 s src) by lia. reflexivity.
      * rewrite signal_listeners_addEventListener_ne by assumption. reflexivity.
    + intros _ Hlt. rewrite signal_listeners_addEventListener by assumption.
      destruct (registered s src _) eqn:Er.
      * apply registered_iff. exact Er.
      * apply elem_of_app. right. apply elem_of_cons. left. reflexivity.
Qed.

Lemma mergeAbortSignals_eq t u st :
  Client.mergeAbortSignals t u st =
  let m := length st in
  let s0 := (AbortController_new st).2 in
  let s1 := if signal_aborted s0 t then AbortController_abort s0 m None
            else addEventListener s0 t (OnAbort m false) false in
  let s2 := match u with
            | Some u' =>
                if signal_aborted s1 u' then AbortController_abort s1 m None
                else addEventListener s1 u' (OnAbort m false) false
            | None => s1
            end in
  (m, addEventListener s2 m (Cleanup m false (t :: option_list u)) false).
Proof. reflexivity. Qed.

Lemma mergeAbortSignals_state_aux (st : Store) (t : nat) (u : option nat) :
  (t < length st)%nat ->
  (forall u', u = Some u' -> (u' < length st)%nat) ->
  let m := (Client.mergeAbortSignals t u st).1 in
  let st' := (Client.mergeAbortSignals t u st).2 in
  m = length st
  /\ length st' = S (length st)
  /\ (forall j, (j < length st)%nat ->
        signal_aborted st' j = signal_aborted st j
        /\ signal_reason st' j = signal_reason st j
        /\ signal_listeners st j `prefix_of` signal_listeners st' j)
  /\ signal_aborted st' m = existsb (signal_aborted st) (t :: option_list u)
  /\ signal_reason st' m =
       (if existsb (signal_aborted st) (t :: option_list u)
        then Some defaultAbortReason else None)
  /\ (forall j, j ∈ t :: option_list u -> signal_aborted st j = false ->
        OnAbort m false ∈ signal_listeners st' j)
  /\ signal_listeners st' m = [Cleanup m false (t :: option_list u)].
Proof.
  intros Ht Hu. rewrite mergeAbortSignals_eq. cbv zeta. cbn [fst snd].
  set (m := length st). set (s0 := (AbortController_new st).2).
  assert (Hm0 : (m < length s0)%nat) by (unfold s0; rewrite length_new; lia).
  assert (Hl0 : signal_listeners s0 m = []).
  { unfold s0. rewrite signal_listeners_new. unfold signal_listeners, Store in *.
    rewrite (lookup_ge_None_2 st m) by (unfold m; lia). reflexivity. }
  assert (Ha0 : signal_aborted s0 m = false).
  { unfold s0. rewrite signal_aborted_new. unfold signal_aborted, Store in *.
    rewrite (lookup_ge_None_2 st m) by (unfold m; lia). reflexivity. }
  assert (Hr0 : signal_reason s0 m = None).
  { unfold s0. rewrite signal_reason_new. unfold signal_reason, Store in *.
    rewrite (lookup_ge_None_2 st m) by (unfold m; lia). reflexivity. }
  destruct (compose_source s0 t m (OnAbort m false) false None Hm0
              ltac:(unfold m; lia) Hl0)
    as (L1 & A1 & M1 & R1 & Ls1 & P1 & O1).
  set (s1 := if signal_aborted s0 t then _ else _) in *.
  rewrite Ha0, Hr0 in *. cbn [orb] in M1.
  assert (E0t : signal_aborted s0 t = signal_aborted st t)
    by (unfold s0; apply signal_aborted_new).
  set (s2 := match u with Some _ => _ | None => s1 end).
  assert (H2 : length s2 = length s0
    /\ (forall j, j <> m ->
          signal_aborted s2 j = signal_aborted s0 j /\ signal_reason s2 j = signal_reason s0 j)
    /\ signal_aborted s2 m = existsb (signal_aborted st) (t :: option_list u)
    /\ signal_reason s2 m =
         (if existsb (signal_aborted st) (t :: option_list u)
          then Some defaultAbortReason else None)
    /\ signal_listeners s2 m = []
    /\ (forall j, signal_listeners s0 j `prefix_of` signal_listeners s2 j)
    /\ (forall j, j ∈ t :: option_list u -> signal_aborted st j = false ->
          OnAbort m false ∈ signal_listeners s2 j)).
  { destruct u as [u'|].
    2: change (option_list None) with (@nil nat).
    1: change (option_list (Some u')) with [u'].
    all: cbn [existsb].
    - specialize (Hu u' eq_refl).
      destruct (compose_source s1 u' m (OnAbort m false) false None ltac:(lia)
                  ltac:(unfold m; lia) Ls1)
        as (L2 & A2 & M2 & R2 & Ls2 & P2 & O2).
      fold s2 in L2, A2, M2, R2, Ls2, P2, O2.
      assert (E1u : signal_aborted s1 u' = signal_aborted st u').
      { rewrite (proj1 (A1 u' ltac:(unfold m; lia))). unfold s0. apply signal_aborted_new. }
      rewrite M1, E0t, E1u in *. rewrite orb_false_r.
      split; [lia|]. split.
      { intros j Hj. destruct (A1 j Hj) as [<- <-]. apply A2. exact Hj. }
      split; [exact M2|]. split.
      { rewrite R2, R1. destruct (signal_aborted st t), (signal_aborted st u'); reflexivity. }
      split; [exact Ls2|]. split.
      { intros j. etransitivity; [apply P1|apply P2]. }
      intros j Hj Hf. apply elem_of_cons in Hj as [->|Hj].
      + destruct (P2 t) as [k ->]. apply elem_of_app. left.
        apply O1; [exact Hf|lia].
      + apply list_elem_of_singleton in Hj as ->. apply O2; [exact Hf|lia].
    - subst s2. rewrite orb_false_r. split; [exact L1|]. split; [exact A1|].
      split; [rewrite M1; exact E0t|]. split.
      { rewrite R1, E0t. reflexivity. }
      split; [exact Ls1|]. split; [exact P1|].
      intros j Hj Hf. apply list_elem_of_singleton in Hj as ->.
      apply O1; [rewrite E0t; exact Hf|lia]. }
  clearbody s2. destruct H2 as (L2 & A2 & M2 & R2 & Ls2 & P2 & O2).
  assert (Hm2 : (m < length s2)%nat) by lia.
  split; [reflexivity|]. split.
  { rewrite length_addEventListener, L2. unfold s0. apply length_new. }
  split.
  { intros j Hj. rewrite signal_aborted_addEventListener, signal_reason_addEventListener.
    rewrite signal_listeners_addEventListener_ne by (unfold m; lia).
    destruct (A2 j ltac:(unfold m; lia)) as [-> ->]. unfold s0.
    rewrite signal_aborted_new, signal_reason_new. repeat split.
    rewrite <- (signal_listeners_new st j). apply P2. }
  rewrite signal_aborted_addEventListener, signal_reason_addEventListener.
  split; [exact M2|]. split; [exact R2|]. split.
  { intros j Hj Hf. pose proof (O2 j Hj Hf) as Hin.
    destruct (decide (m = j)) as [<-|Hne].
    - rewrite Ls2 in Hin. apply elem_of_nil in Hin. contradiction.
    - rewrite signal_listeners_addEventListener_ne by assumption. exact Hin. }
  rewrite signal_listeners_addEventListener by assumption.
  destruct (registered s2 m _) eqn:Er.
  - apply registered_iff in Er. rewrite Ls2 in Er. apply elem_of_nil in Er. contradiction.
  - rewrite Ls2. reflexivity.
Qed.


(** X9.  [mergeAbortSignals] on sources of the store allocates one signal
    and leaves the signals before it fired or not, with their reasons and
    their listeners, as they were.  The new signal has fired when the
    composer returns exactly when one of the sources had, and its reason is
    then the default one, whatever the reason of the source.  [onAbort] is
    registered on every source that has not fired, also when the new signal
    has fired already, and the cleanup is the only listener of the new
    signal. *)
Theorem X_mergeAbortSignals_state (st : Store) (t : nat) (u : option nat) :
  (t < length st)%nat ->
  (forall u', u = Some u' -> (u' < length st)%nat) ->
  let m := (Client.mergeAbortSignals t u st).1 in
  let st' := (Client.mergeAbortSignals t u st).2 in
  m = length st
  /\ length st' = S (length st)
  /\ (forall j, (j < length st)%nat ->
        signal_aborted st' j = signal_aborted st j
        /\ signal_reason st' j = signal_reason st j
        /\ signal_listeners st j `prefix_of` signal_listeners st' j)
  /\ signal_aborted st' m = existsb (signal_aborted st) (t :: option_list u)
  /\ signal_reason st' m =
       (if existsb (signal_aborted st) (t :: option_list u)
        then Some defaultAbortReason else None)
  /\ (forall j, j ∈ t :: option_list u -> signal_aborted st j = false ->
        OnAbort m false ∈ signal_listeners st' j)
  /\ signal_listeners st' m = [Cleanup m false (t :: option_list u)].
Proof. apply mergeAbortSignals_state_aux. Qed.

Lemma X_mergeAbortSignals_state_witness :
  ((0 < length fired_timeout_store)%nat
   /\ forall u', Some 1%nat = Some u' -> (u' < length fired_timeout_store)%nat)
  /\ signal_aborted (Client.mergeAbortSignals 0 (Some 1%nat) fired_timeout_store).2 2 = true
  /\ signal_reason (Client.mergeAbortSignals 0 (Some 1%nat) fired_timeout_store).2 2
     = Some defaultAbortReason
  /\ OnAbort 2 false
       ∈ signal_listeners (Client.mergeAbortSignals 0 (Some 1%nat) fired_timeout_store).2 1.
Proof.
  assert (H0 : (0 < length fired_timeout_store)%nat) by (cbn; lia).
  assert (H1 : forall u', Some 1%nat = Some u' -> (u' < length fired_timeout_store)%nat)
    by (intros u' [= <-]; cbn; lia).
  split; [split; assumption|].
  destruct (X_mergeAbortSignals_state fired_timeout_store 0 (Some 1%nat) H0 H1)
    as (_ & _ & _ & Ha & Hr & Hl & _).
  split; [exact Ha|]. split; [exact Hr|].
  apply (Hl 1%nat); [|reflexivity].
  apply elem_of_cons. right. apply elem_of_cons. left. reflexivity.
Defined.


(** ** [mergeAbortSignals] on a caller signal that has fired *)

Lemma attempt_store_fired_caller (b : Client.Builder) (st : Store) (u : nat) :
  Client.b_signal b = Some u ->
  signal_aborted st u = true ->
  attempt_store b st =
  (st ++ [mkSignal false None [(OnAbort (S (length st)) false, false)];
          mkSignal true (Some defaultAbortReason)
            [(Cleanup (S (length st)) false [length st; u], false)]])%list.
Proof.
  intros Hb Hu.
  assert (Hlt : (u < length st)%nat).
  { unfold signal_aborted in Hu. destruct (st !! u) eqn:E; [|discriminate].
    apply lookup_lt_Some in E. exact E. }
  unfold attempt_store. rewrite Hb.
  unfold Client.AbortSignal_timeout, AbortController_new. cbn [snd].
  rewrite mergeAbortSignals_eq. cbv zeta. cbn [snd AbortController_new].
  rewrite length_app. cbn [length]. replace (length st + 1)%nat with (S (length st)) by lia.
  set (fresh := mkSignal false None []).
  set (m := S (length st)). set (t := length st).
  rewrite <- app_assoc. cbn [app].
  assert (H0 : signal_aborted (st ++ [fresh; fresh])%list t = false).
  { unfold signal_aborted, Store in *. rewrite lookup_app_r by (unfold t; lia).
    replace (t - length st)%nat with 0%nat by (unfold t; lia). reflexivity. }
  rewrite H0.
  assert (H1 : addEventListener (st ++ [fresh; fresh])%list t (OnAbort m false) false
               = (st ++ [mkSignal false None [(OnAbort m false, false)]; fresh])%list).
  { unfold addEventListener, registered, Store in *.
    rewrite lookup_app_r by (unfold t; lia).
    replace (t - length st)%nat with 0%nat by (unfold t; lia). cbn [lookup list_lookup fresh listeners fmap list_fmap].
    rewrite bool_decide_eq_false_2 by apply not_elem_of_nil.
    rewrite (alter_app_r_alt _ st) by (unfold t; lia).
    replace (t - length st)%nat with 0%nat by (unfold t; lia). reflexivity. }
  rewrite H1.
  set (s1 := (st ++ [_; fresh])%list).
  assert (H2 : signal_aborted s1 u = true).
  { unfold signal_aborted, s1, Store in *. rewrite lookup_app_l by lia. exact Hu. }
  rewrite H2.
  assert (H3 : AbortController_abort s1 m None
               = (st ++ [mkSignal false None [(OnAbort m false, false)];
                         mkSignal true (Some defaultAbortReason) []])%list).
  { unfold AbortController_abort.
    rewrite (abort_no_listeners _ s1 m None fresh).
    - unfold s1, Store in *. rewrite (insert_app_r_alt st) by (unfold m; lia).
      replace (m - length st)%nat with 1%nat by (unfold m; lia). reflexivity.
    - unfold s1, Store in *. rewrite lookup_app_r by (unfold m; lia).
      replace (m - length st)%nat with 1%nat by (unfold m; lia). reflexivity.
    - reflexivity.
    - reflexivity. }
  rewrite H3.
  unfold addEventListener, registered, Store in *.
  rewrite lookup_app_r by (unfold m; lia).
  replace (m - length st)%nat with 1%nat by (unfold m; lia).
  cbn [lookup list_lookup listeners fmap list_fmap].
  rewrite bool_decide_eq_false_2 by apply not_elem_of_nil.
  rewrite (alter_app_r_alt _ st) by (unfold m; lia).
  replace (m - length st)%nat with 1%nat by (unfold m; lia). reflexivity.
Qed.

(** C4.  [Builder.response] on a caller signal that has fired, with reason
    [r], before the request is sent: the composer is called on the new
    timeout signal and on the caller signal.  The output has fired when the
    composer returns, but its reason is the default [AbortError] whatever
    [r] is, and [onAbort] has been registered on the timeout signal, a
    source of the composition.  The cleanup is registered on the output
    once it has fired, so it never runs: [onAbort] is still registered on
    the timeout signal when the timeout fires. *)
Theorem C4_fast_path_at_fired_caller_signal (b : Client.Builder) (st : Store) (u : nat)
    (r : JsValue) :
  Client.b_signal b = Some u ->
  signal_aborted st u = true ->
  signal_reason st u = Some r ->
  let timeoutSignal := length st in
  let output := S (length st) in
  let st' := attempt_store b st in
  (Client.mergeAbortSignals timeoutSignal (Some u)
     (Client.AbortSignal_timeout
        (default 10000 (Client.timeout (Client.b_options b))) st).2) = (output, st')
  /\ signal_aborted st' output = true
  /\ signal_reason st' output = Some defaultAbortReason
  /\ signal_reason st' u = Some r
  /\ (r <> defaultAbortReason -> signal_reason st' output <> signal_reason st' u)
  /\ signal_aborted st' timeoutSignal = false
  /\ signal_listeners st' timeoutSignal = [OnAbort output false]
  /\ signal_listeners st' output = [Cleanup output false [timeoutSignal; u]]
  /\ signal_listeners (AbortController_abort st' timeoutSignal (Some timeoutReason))
       timeoutSignal = [OnAbort output false].
Proof.
  intros Hb Hu Hr. cbv zeta.
  assert (Hlt : (u < length st)%nat).
  { unfold signal_aborted in Hu. destruct (st !! u) eqn:E; [|discriminate].
    apply lookup_lt_Some in E. exact E. }
  split.
  { unfold attempt_store. rewrite Hb.
    destruct (Client.mergeAbortSignals _ _ _) as [m' s'] eqn:E.
    assert (Hm : m' = S (length st)).
    { change m' with (m', s').1. rewrite <- E, mergeAbortSignals_fst.
      unfold Client.AbortSignal_timeout. rewrite length_new. reflexivity. }
    rewrite Hm. reflexivity. }
  rewrite (attempt_store_fired_caller b st u Hb Hu).
  set (sig_t := mkSignal false None _). set (sig_m := mkSignal true _ _).
  assert (Lt : ((st ++ [sig_t; sig_m])%list : Store) !! length st = Some sig_t).
  { unfold Store in *. rewrite lookup_app_r by lia. rewrite Nat.sub_diag. reflexivity. }
  assert (Lm : ((st ++ [sig_t; sig_m])%list : Store) !! S (length st) = Some sig_m).
  { unfold Store in *. rewrite lookup_app_r by lia.
    replace (S (length st) - length st)%nat with 1%nat by lia. reflexivity. }
  assert (Lu : ((st ++ [sig_t; sig_m])%list : Store) !! u = st !! u).
  { unfold Store in *. apply lookup_app_l. exact Hlt. }
  unfold signal_aborted, signal_reason, signal_listeners in *.
  rewrite Lt, Lm, Lu, Hr. cbn [mbind option_bind aborted reason listeners sig_t sig_m fmap list_fmap].
  do 3 (split; [reflexivity|]).
  split; [intros Hne [= H]; apply Hne; symmetry; exact H|].
  do 3 (split; [reflexivity|]).
  unfold AbortController_abort. rewrite length_app. cbn [length abort].
  replace (length st + 2)%nat with (S (S (length st))) by lia. cbn [abort].
  unfold Store in *. rewrite Lt. cbn [aborted listeners sig_t fold_left fst snd].
  set (st1 := <[length st := _]> _).
  assert (L1t : st1 !! length st
                = Some (mkSignal true (Some timeoutReason) [(OnAbort (S (length st)) false, false)])).
  { unfold st1. apply list_lookup_insert_eq. rewrite length_app. cbn. lia. }
  assert (L1m : st1 !! S (length st) = Some sig_m).
  { unfold st1. rewrite list_lookup_insert_ne by lia. exact Lm. }
  unfold registered. unfold Store in *. rewrite L1t. cbn [listeners fmap list_fmap].
  rewrite bool_decide_eq_true_2 by (apply elem_of_cons; left; reflexivity).
  rewrite L1m. cbn [aborted sig_m]. rewrite L1t. reflexivity.
Qed.

Lemma C4_aborted_caller_scenario :
  (Client.b_signal aborted_caller_scenario = Some 0%nat
   /\ signal_aborted aborted_caller_store 0 = true
   /\ signal_reason aborted_caller_store 0 = Some (JsString "stop"))
  /\ signal_aborted (attempt_store aborted_caller_scenario aborted_caller_store) 2 = true
  /\ signal_reason (attempt_store aborted_caller_scenario aborted_caller_store) 2
     = Some defaultAbortReason
  /\ signal_reason (attempt_store aborted_caller_scenario aborted_caller_store) 0
     = Some (JsString "stop")
  /\ signal_listeners (attempt_store aborted_caller_scenario aborted_caller_store) 1
     = [OnAbort 2 false].
Proof.
  split; [repeat split; reflexivity|].
  pose proof (C4_fast_path_at_fired_caller_signal aborted_caller_scenario
                aborted_caller_store 0 (JsString "stop") eq_refl eq_refl eq_refl) as H.
  cbv zeta in H. destruct H as (_ & Ha & Hr & Hu & _ & _ & Hl & _).
  split; [exact Ha|]. split; [exact Hr|]. split; [exact Hu|exact Hl].
Defined.


(** ** [Builder.response]: what an execution leaves in the store *)

Lemma attempt_store_signals (b : Client.Builder) (st : Store) :
  (forall u, Client.b_signal b = Some u -> (u < length st)%nat) ->
  (forall j, (j < length st)%nat ->
     signal_aborted (attempt_store b st) j = signal_aborted st j
     /\ signal_reason (attempt_store b st) j = signal_reason st j
     /\ signal_listeners st j `prefix_of` signal_listeners (attempt_store b st) j)
  /\ (forall u, Client.b_signal b = Some u -> signal_aborted st u = false ->
        OnAbort (S (length st)) false ∈ signal_listeners (attempt_store b st) u).
Proof.
  intros Hu. unfold attempt_store, Client.AbortSignal_timeout.
  destruct (mergeAbortSignals_state_aux (AbortController_new st).2 (length st)
              (Client.b_signal b))
    as (Hm & _ & Hpre & _ & _ & Hl & _).
  { rewrite length_new. lia. }
  { intros u' Hu'. rewrite length_new. specialize (Hu u' Hu'). lia. }
  rewrite mergeAbortSignals_fst, length_new in Hl.
  split.
  - intros j Hj. destruct (Hpre j) as (Ha & Hr & Hp); [rewrite length_new; lia|].
    rewrite Ha, Hr, signal_aborted_new, signal_reason_new.
    rewrite signal_listeners_new in Hp. repeat split. exact Hp.
  - intros u Hbu Hf. apply Hl.
    + rewrite Hbu. apply elem_of_cons. right. apply elem_of_cons. left. reflexivity.
    + rewrite signal_aborted_new. exact Hf.
Qed.

Lemma elem_of_trace_log w evs (e : Event) :
  e ∈ trace (log w evs) <-> e ∈ trace w \/ e ∈ evs.
Proof. cbn [log trace]. apply elem_of_app. Qed.

Lemma EvFetch_hook_events {X} (hook : option (X -> option JsValue)) ev (x : X) request :
  (forall y, ev y <> EvFetch request) -> EvFetch request ∉ hook_events hook ev x.
Proof.
  intros H. destruct hook; cbn; [|apply not_elem_of_nil].
  intros Hin. apply list_elem_of_singleton in Hin. symmetry in Hin. exact (H x Hin).
Qed.

Ltac fetch_events H :=
  cbn [trace log called attempt_world] in H;
  repeat match type of H with
  | _ ∈ (_ ++ _)%list => apply elem_of_app in H as [H|H]
  | _ ∈ [_] => apply list_elem_of_singleton in H
  | _ ∈ [_; _] => apply elem_of_cons in H as [H|H]
  | EvFetch _ ∈ hook_events _ _ _ =>
      exfalso; revert H; apply EvFetch_hook_events; discriminate
  end.

Lemma run_signals_aux (b : Client.Builder) : forall k n w,
  Z.to_nat (default 0 (Client.retry (Client.b_options b)) - n) = k ->
  (forall u, Client.b_signal b = Some u -> (u < length (signals w))%nat) ->
  (length (signals w) <= length (signals (Client.run b n w).1))%nat
  /\ (forall j, (j < length (signals w))%nat ->
        signal_aborted (signals (Client.run b n w).1) j = signal_aborted (signals w) j
        /\ signal_reason (signals (Client.run b n w).1) j = signal_reason (signals w) j
        /\ signal_listeners (signals w) j
             `prefix_of` signal_listeners (signals (Client.run b n w).1) j)
  /\ (forall u request,
        Client.b_signal b = Some u -> signal_aborted (signals w) u = false ->
        EvFetch request ∈ trace (Client.run b n w).1 ->
        EvFetch request ∈ trace w
        \/ OnAbort (signal request) false
             ∈ signal_listeners (signals (Client.run b n w).1) u).
Proof.
  induction k as [|k IH]; intros n w Hk Hu.
  all: destruct (attempt_store_signals b (signals w) Hu) as [Hpre Hl].
  all: pose proof (length_attempt_store b (signals w)) as Hlen.
  all: assert (Hone : forall (w' : World) (hs1 hs2 : list Event),
    signals w' = attempt_store b (signals w) ->
    (forall request, EvFetch request ∈ trace w' ->
       EvFetch request ∈ trace w
       \/ request = attempt_request (Client.b_method b) w) ->
    (length (signals w) <= length (signals w'))%nat
    /\ (forall j, (j < length (signals w))%nat ->
          signal_aborted (signals w') j = signal_aborted (signals w) j
          /\ signal_reason (signals w') j = signal_reason (signals w) j
          /\ signal_listeners (signals w) j `prefix_of` signal_listeners (signals w') j)
    /\ (forall u request,
          Client.b_signal b = Some u -> signal_aborted (signals w) u = false ->
          EvFetch request ∈ trace w' ->
          EvFetch request ∈ trace w
          \/ OnAbort (signal request) false ∈ signal_listeners (signals w') u)).
  1,3: (intros w' _ _ Hs Htr; rewrite Hs; split; [lia|]; split; [exact Hpre|];
        intros u request Hbu Hf Hin; destruct (Htr request Hin) as [H| ->];
        [left; exact H|right; apply Hl; assumption]).
  all: attempt_cases; cbn [fst].
  all: try (apply shouldRetryRequest_lt in E).
  all: try lia.
  all: try (apply (Hone _ [] []); [reflexivity|];
            intros request Hin; fetch_events Hin;
            solve [left; exact Hin | right; congruence]).
  rewrite rethrown_fst.
  match goal with |- context [Client.run b (n + 1) ?w1] =>
    destruct (IH (n + 1) w1 ltac:(lia)) as (I1 & I2 & I3);
      [cbn [signals log called attempt_world]; intros u Hbu; specialize (Hu u Hbu); lia|];
      set (w1' := w1) in * end.
  assert (Hs1 : signals w1' = attempt_store b (signals w)) by reflexivity.
  rewrite Hs1 in I1, I2, I3.
  split; [lia|]. split.
  - intros j Hj. destruct (Hpre j Hj) as (A1 & R1 & P1).
    destruct (I2 j ltac:(lia)) as (A2 & R2 & P2).
    rewrite A2, R2. repeat split; try assumption.
    etransitivity; [exact P1|exact P2].
  - intros u request Hbu Hf Hin.
    destruct (I3 u request Hbu) as [H|H]; [|exact Hin| |right; exact H].
    { rewrite (proj1 (Hpre u (Hu u Hbu))). exact Hf. }
    subst w1'. fetch_events H; try discriminate; [left; exact H|].
    right. injection H as ->.
    destruct (I2 u ltac:(specialize (Hu u Hbu); lia)) as (_ & _ & [k' ->]).
    apply elem_of_app. left. apply Hl; assumption.
Qed.


(** ** [Builder.response]: the request of every attempt *)

Lemma existsb_agree {A} (f g : A -> bool) (l : list A) :
  (forall x, x ∈ l -> f x = g x) -> existsb f l = existsb g l.
Proof.
  induction l as [|a l IH]; intros H; [reflexivity|].
  cbn [existsb]. rewrite (H a) by (apply elem_of_cons; left; reflexivity).
  rewrite IH; [reflexivity|]. intros x Hx. apply H. apply elem_of_cons. right. exact Hx.
Qed.

Lemma existsb_false_all {A} (f : A -> bool) (l : list A) x :
  existsb f l = false -> x ∈ l -> f x = false.
Proof.
  induction l as [|a l IH]; intros H Hx; [apply elem_of_nil in Hx; contradiction|].
  cbn [existsb] in H. apply orb_false_iff in H as [Ha Hl].
  apply elem_of_cons in Hx as [->|Hx]; [exact Ha|apply IH; assumption].
Qed.

(** The composition of an attempt, in the store the attempt leaves. *)
Lemma composed_attempt_store (b : Client.Builder) (st : Store) :
  (forall u, Client.b_signal b = Some u -> (u < length st)%nat) ->
  composed (attempt_store b st) (S (length st))
    (length st :: option_list (Client.b_signal b)).
Proof.
  intros Hu. unfold attempt_store, Client.AbortSignal_timeout.
  destruct (mergeAbortSignals_state_aux (AbortController_new st).2 (length st)
              (Client.b_signal b))
    as (Hm & _ & Hpre & Ha & _ & Hl & Hc).
  { rewrite length_new. lia. }
  { intros u' Hu'. rewrite length_new. specialize (Hu u' Hu'). lia. }
  rewrite mergeAbortSignals_fst, length_new in *.
  set (st' := (Client.mergeAbortSignals _ _ _).2) in *.
  assert (Hsrc : forall s, s ∈ length st :: option_list (Client.b_signal b) ->
                   (s < length (AbortController_new st).2)%nat).
  { intros s Hs. rewrite length_new. apply elem_of_cons in Hs as [->|Hs]; [lia|].
    destruct (Client.b_signal b) as [u|] eqn:E.
    - change (option_list (Some u)) with [u] in Hs.
      apply list_elem_of_singleton in Hs as ->. specialize (Hu u eq_refl). lia.
    - apply elem_of_nil in Hs. contradiction. }
  assert (Hsame : existsb (signal_aborted st') (length st :: option_list (Client.b_signal b))
                  = existsb (signal_aborted (AbortController_new st).2)
                      (length st :: option_list (Client.b_signal b))).
  { apply existsb_agree. intros s Hs. apply (Hpre s).
    specialize (Hsrc s Hs). rewrite length_new in Hsrc. exact Hsrc. }
  split; [rewrite Hc; apply elem_of_cons; left; reflexivity|].
  split; [rewrite Ha, Hsame; reflexivity|].
  intros Hf s Hs. apply Hl; [exact Hs|].
  rewrite Ha in Hf. exact (existsb_false_all _ _ s Hf Hs).
Qed.

(** A composition stays one while the store grows. *)
Lemma composed_extends (st st' : Store) m sources :
  (m < length st)%nat ->
  (forall s, s ∈ sources -> (s < length st)%nat) ->
  (forall j, (j < length st)%nat ->
     signal_aborted st' j = signal_aborted st j
     /\ signal_listeners st j `prefix_of` signal_listeners st' j) ->
  composed st m sources -> composed st' m sources.
Proof.
  intros Hm Hs Hpre (Hc & Ha & Hl).
  assert (Hin : forall j l, (j < length st)%nat -> l ∈ signal_listeners st j ->
                  l ∈ signal_listeners st' j).
  { intros j l Hj Hin. destruct (Hpre j Hj) as [_ [k ->]]. apply elem_of_app. left. exact Hin. }
  assert (Hsame : existsb (signal_aborted st') sources = existsb (signal_aborted st) sources).
  { apply existsb_agree. intros s Hin'. apply (Hpre s). apply Hs. exact Hin'. }
  split; [apply Hin; assumption|].
  split; [rewrite (proj1 (Hpre m Hm)), Hsame; exact Ha|].
  intros Hf s Hin'. apply Hin; [apply Hs; exact Hin'|].
  apply Hl; [|exact Hin']. rewrite <- (proj1 (Hpre m Hm)). exact Hf.
Qed.

Lemma elem_of_hook_events {X} (hook : option (X -> option JsValue)) ev (x : X) e :
  e ∈ hook_events hook ev x -> e = ev x.
Proof.
  destruct hook; cbn; intros H; [|apply elem_of_nil in H; contradiction].
  apply list_elem_of_singleton in H. exact H.
Qed.

Ltac sent_events H :=
  cbn [trace log called attempt_world] in H;
  repeat match type of H with
  | _ ∈ (_ ++ _)%list => apply elem_of_app in H as [H|H]
  | _ ∈ [_] => apply list_elem_of_singleton in H
  | _ ∈ [_; _] => apply elem_of_cons in H as [H|H]
  | _ ∈ hook_events _ _ _ => apply elem_of_hook_events in H
  end.

Lemma run_composed_aux (b : Client.Builder) : forall k n w,
  Z.to_nat (default 0 (Client.retry (Client.b_options b)) - n) = k ->
  (forall u, Client.b_signal b = Some u -> (u < length (signals w))%nat) ->
  forall request,
    sent request (trace (Client.run b n w).1) ->
    sent request (trace w)
    \/ ((length (signals w) <= pred (signal request) < signal request)%nat
        /\ composed (signals (Client.run b n w).1) (signal request)
             (pred (signal request) :: option_list (Client.b_signal b))).
Proof.
  induction k as [|k IH]; intros n w Hk Hu.
  all: pose proof (composed_attempt_store b (signals w) Hu) as Hcomp.
  all: pose proof (length_attempt_store b (signals w)) as Hlen.
  all: assert (Hone : forall (w' : World),
    signals w' = attempt_store b (signals w) ->
    forall request,
    (sent request (trace w') ->
       sent request (trace w) \/ request = attempt_request (Client.b_method b) w) ->
    sent request (trace w') ->
    sent request (trace w)
    \/ ((length (signals w) <= pred (signal request) < signal request)%nat
        /\ composed (signals w') (signal request)
             (pred (signal request) :: option_list (Client.b_signal b)))).
  1,3: (intros w' Hs request Htr Hin; destruct (Htr Hin) as [H| ->];
        [left; exact H|right; rewrite Hs; cbn [attempt_request Request_new signal pred];
         split; [lia|exact Hcomp]]).
  all: attempt_cases; cbn [fst]; intros request.
  all: try (apply shouldRetryRequest_lt in E).
  all: try lia.
  all: try (apply Hone; [reflexivity|];
            intros [Hin|Hin]; sent_events Hin; try discriminate;
            solve [left; left; exact Hin | left; right; exact Hin | right; congruence]).
  rewrite rethrown_fst.
  match goal with |- context [Client.run b (n + 1) ?w1] => set (w1' := w1) in * end.
  assert (Hs1 : signals w1' = attempt_store b (signals w)) by reflexivity.
  assert (Hu1 : forall u, Client.b_signal b = Some u -> (u < length (signals w1'))%nat).
  { intros u Hbu. rewrite Hs1, Hlen. specialize (Hu u Hbu). lia. }
  intros Hin.
  destruct (IH (n + 1) w1' ltac:(lia) Hu1 request Hin) as [Hprev|[Hfresh Hc]].
  - assert (Hcur : sent request (trace w)
                   \/ request = attempt_request (Client.b_method b) w).
    { destruct Hprev as [H|H]; subst w1'; sent_events H; try discriminate;
        solve [left; left; exact H | left; right; exact H | right; congruence]. }
    destruct Hcur as [H| ->]; [left; exact H|right].
    cbn [attempt_request Request_new signal pred]. split; [lia|].
    destruct (run_signals_aux b _ (n + 1) w1' eq_refl Hu1) as (_ & I2 & _).
    apply (composed_extends (signals w1')).
    + rewrite Hs1, Hlen. lia.
    + intros s Hs. rewrite Hs1, Hlen. apply elem_of_cons in Hs as [->|Hs]; [lia|].
      destruct (Client.b_signal b) as [u|] eqn:Eu.
      * change (option_list (Some u)) with [u] in Hs.
        apply list_elem_of_singleton in Hs as ->. specialize (Hu u eq_refl). lia.
      * apply elem_of_nil in Hs. contradiction.
    + intros j Hj. destruct (I2 j Hj) as (A & _ & P). split; assumption.
    + rewrite Hs1. exact Hcomp.
  - right. split; [rewrite Hs1, Hlen in Hfresh; lia|exact Hc].
Qed.





(** X11.  [response] with a caller signal of the store, if any, whatever
    the platform accepts: the execution fires no signal that was in the
    store, changes no reason, and removes no listener from such a signal.
    The signal of every request the transport received is the output of a
    composition over a timeout signal allocated during the execution and
    the caller signal: it has fired exactly when one of them has, and while
    it has not fired [onAbort] is registered on both. *)
Theorem X_response_keeps_signals (rt : Runtime) (b : Client.Builder) (st : Store) :
  (forall u, Client.b_signal b = Some u -> (u < length st)%nat) ->
  (forall j, (j < length st)%nat ->
     signal_aborted (signals (Platform.response rt b (initial st)).1) j = signal_aborted st j
     /\ signal_reason (signals (Platform.response rt b (initial st)).1) j = signal_reason st j
     /\ signal_listeners st j
          `prefix_of` signal_listeners (signals (Platform.response rt b (initial st)).1) j)
  /\ (forall request,
        EvFetch request ∈ trace (Platform.response rt b (initial st)).1 ->
        (length st <= pred (signal request) < signal request)%nat
        /\ composed (signals (Platform.response rt b (initial st)).1) (signal request)
             (pred (signal request) :: option_list (Client.b_signal b))).
Proof.
  intros Hu. unfold Platform.response.
  destruct (Platform.refusal rt b) as [e|] eqn:Ha.
  { destruct (Platform_run_refused rt b 1 (initial st) e Ha) as (_ & _ & Ht & Hs).
    split.
    - intros j Hj. destruct Hs as [-> | ->]; cbn [initial signals].
      + repeat split. reflexivity.
      + apply (attempt_store_signals b st Hu). exact Hj.
    - intros request Hin. rewrite Ht in Hin. cbn in Hin.
      apply elem_of_nil in Hin. contradiction. }
  rewrite !Platform_run_accepted by exact Ha.
  destruct (run_signals_aux b _ 1 (initial st) eq_refl Hu) as (_ & H2 & _).
  split; [exact H2|].
  intros request Hin.
  destruct (run_composed_aux b _ 1 (initial st) eq_refl Hu request (or_intror Hin))
    as [[H|H]|H]; [cbn in H; apply elem_of_nil in H; contradiction..|exact H].
Qed.

Lemma X_response_keeps_signals_witness :
  (forall u, Client.b_signal hooked_scenario = Some u -> (u < length unfired_store)%nat)
  /\ (forall request,
        EvFetch request
          ∈ trace (Platform.response standard hooked_scenario (initial unfired_store)).1 ->
        (length unfired_store <= pred (signal request) < signal request)%nat
        /\ composed (signals (Platform.response standard hooked_scenario
                                (initial unfired_store)).1)
             (signal request)
             (pred (signal request) :: option_list (Client.b_signal hooked_scenario))).
Proof.
  assert (H : forall u, Client.b_signal hooked_scenario = Some u ->
                (u < length unfired_store)%nat)
    by (intros u [= <-]; cbn; lia).
  split; [exact H|].
  exact (proj2 (X_response_keeps_signals standard hooked_scenario unfired_store H)).
Defined.

(** ** [mergeSignals]: what the composition leaves in the store *)

Lemma mergeSignals_eq sources st :
  Legacy.mergeSignals sources st =
  let m := length st in
  let s0 := (AbortController_new st).2 in
  let s1 :=
    fold_left
      (fun st' src =>
         if signal_aborted st' src
         then AbortController_abort st' m (signal_reason st' src)
         else addEventListener st' src (OnAbort m true) true)
      sources s0 in
  (m, if signal_aborted s1 m then removeFromAll s1 sources (OnAbort m true)
      else addEventListener s1 m (Cleanup m true sources) true).
Proof. reflexivity. Qed.

Lemma find_app_Some {A} (f : A -> bool) l1 l2 x :
  find f l1 = Some x -> find f (l1 ++ l2) = Some x.
Proof.
  induction l1 as [|y l1 IH]; cbn; [discriminate|]. destruct (f y); auto.
Qed.

Lemma find_app_None {A} (f : A -> bool) l1 l2 :
  find f l1 = None -> find f (l1 ++ l2) = find f l2.
Proof.
  induction l1 as [|y l1 IH]; cbn; [reflexivity|]. destruct (f y); [discriminate|auto].
Qed.

Lemma mergeSignals_loop (st : Store) (m : nat) : forall rest done (s : Store),
  m = length st ->
  Forall (fun j => (j < length st)%nat) rest ->
  length s = S (length st) ->
  (forall j, j <> m ->
     signal_aborted s j = signal_aborted st j /\ signal_reason s j = signal_reason st j) ->
  signal_listeners s m = [] ->
  signal_aborted s m =
    (match find (signal_aborted st) done with Some _ => true | None => false end) ->
  signal_reason s m =
    (match find (signal_aborted st) done with
     | Some src => Some (default defaultAbortReason (signal_reason st src))
     | None => None
     end) ->
  (forall j, j ∈ done -> signal_aborted st j = false ->
     OnAbort m true ∈ signal_listeners s j) ->
  let s' :=
    fold_left
      (fun st' src =>
         if signal_aborted st' src
         then AbortController_abort st' m (signal_reason st' src)
         else addEventListener st' src (OnAbort m true) true)
      rest s in
  length s' = S (length st)
  /\ (forall j, j <> m ->
        signal_aborted s' j = signal_aborted st j /\ signal_reason s' j = signal_reason st j)
  /\ signal_listeners s' m = []
  /\ signal_aborted s' m =
       (match find (signal_aborted st) (done ++ rest) with
        | Some _ => true
        | None => false
        end)
  /\ signal_reason s' m =
       (match find (signal_aborted st) (done ++ rest) with
        | Some src => Some (default defaultAbortReason (signal_reason st src))
        | None => None
        end)
  /\ (forall j, j ∈ (done ++ rest)%list -> signal_aborted st j = false ->
        OnAbort m true ∈ signal_listeners s' j).
Proof.
  induction rest as [|src rest IH]; intros done s Hm Hv L A Ls M R O; cbn [fold_left].
  { rewrite app_nil_r. repeat split; try assumption; apply A; assumption. }
  apply Forall_cons in Hv as [Hsrc Hv].
  destruct (compose_source s src m (OnAbort m true) true (signal_reason s src)
              ltac:(lia) ltac:(lia) Ls) as (L1 & A1 & M1 & R1 & Ls1 & P1 & O1).
  assert (Es : signal_aborted s src = signal_aborted st src)
    by (apply A; lia).
  assert (Er : signal_reason s src = signal_reason st src)
    by (apply A; lia).
  replace (done ++ src :: rest)%list with ((done ++ [src]) ++ rest)%list
    by (rewrite <- app_assoc; reflexivity).
  apply IH; try assumption; try lia.
  - intros j Hj. destruct (A1 j Hj) as [-> ->]. apply A. exact Hj.
  - rewrite M1, M, Es. destruct (find (signal_aborted st) done) as [x|] eqn:Ef.
    + rewrite (find_app_Some _ _ _ _ Ef). reflexivity.
    + rewrite (find_app_None _ _ _ Ef). cbn. destruct (signal_aborted st src); reflexivity.
  - rewrite R1, M, R, Es, Er. destruct (find (signal_aborted st) done) as [x|] eqn:Ef.
    + rewrite (find_app_Some _ _ _ _ Ef). reflexivity.
    + rewrite (find_app_None _ _ _ Ef). cbn. destruct (signal_aborted st src); reflexivity.
  - intros j Hj Hf. apply elem_of_app in Hj as [Hj|Hj].
    + destruct (P1 j) as [k ->]. apply elem_of_app. left. apply O; assumption.
    + apply list_elem_of_singleton in Hj as ->. apply O1; [rewrite Es; exact Hf|lia].
Qed.

Lemma mergeSignals_state_aux (st : Store) (sources : list nat) :
  Forall (fun j => (j < length st)%nat) sources ->
  let m := (Legacy.mergeSignals sources st).1 in
  let st' := (Legacy.mergeSignals sources st).2 in
  m = length st
  /\ length st' = S (length st)
  /\ (forall j, (j < length st)%nat ->
        signal_aborted st' j = signal_aborted st j
        /\ signal_reason st' j = signal_reason st j)
  /\ match find (signal_aborted st) sources with
     | Some src =>
         signal_aborted st' m = true
         /\ signal_reason st' m = Some (default defaultAbortReason (signal_reason st src))
         /\ (forall j, j ∈ sources -> OnAbort m true ∉ signal_listeners st' j)
     | None =>
         signal_aborted st' m = false
         /\ signal_reason st' m = None
         /\ (forall j, j ∈ sources -> OnAbort m true ∈ signal_listeners st' j)
         /\ signal_listeners st' m = [Cleanup m true sources]
     end.
Proof.
  intros Hv. rewrite mergeSignals_eq. cbv zeta. cbn [fst snd].
  set (m := length st). set (s0 := (AbortController_new st).2).
  assert (Hout : st !! m = None).
  { unfold Store in *. apply lookup_ge_None_2. unfold m. lia. }
  destruct (mergeSignals_loop st m sources [] s0 eq_refl Hv)
    as (L & A & Ls & M & R & O).
  { unfold s0. apply length_new. }
  { intros j _. unfold s0. rewrite signal_aborted_new, signal_reason_new. split; reflexivity. }
  { unfold s0. rewrite signal_listeners_new. unfold signal_listeners. rewrite Hout.
    reflexivity. }
  { unfold s0. rewrite signal_aborted_new. unfold signal_aborted. rewrite Hout. reflexivity. }
  { unfold s0. rewrite signal_reason_new. unfold signal_reason. rewrite Hout. reflexivity. }
  { intros j Hj. apply elem_of_nil in Hj. contradiction. }
  cbn [app] in M, R, O.
  set (s1 := fold_left _ sources s0) in *. clearbody s1.
  split; [reflexivity|].
  rewrite M.
  destruct (find (signal_aborted st) sources) as [src|] eqn:Ef.
  - split; [rewrite length_removeFromAll; exact L|]. split.
    { intros j Hj. rewrite signal_aborted_removeFromAll, signal_reason_removeFromAll.
      apply A. unfold m. lia. }
    rewrite signal_aborted_removeFromAll, signal_reason_removeFromAll.
    split; [exact M|]. split; [exact R|].
    intros j Hj. rewrite signal_listeners_removeFromAll.
    rewrite bool_decide_eq_true_2 by exact Hj.
    intros Hin. apply list_elem_of_filter in Hin as [Hne _]. apply Hne. reflexivity.
  - split; [rewrite length_addEventListener; exact L|]. split.
    { intros j Hj. rewrite signal_aborted_addEventListener, signal_reason_addEventListener.
      apply A. unfold m. lia. }
    rewrite signal_aborted_addEventListener, signal_reason_addEventListener.
    split; [exact M|]. split; [exact R|]. split.
    + intros j Hj.
      assert (Hjv : (j < length st)%nat).
      { rewrite Forall_forall in Hv. apply Hv. exact Hj. }
      rewrite signal_listeners_addEventListener_ne by (unfold m; lia).
      apply O; [exact Hj|].
      destruct (signal_aborted st j) eqn:Ej; [|reflexivity].
      apply list_elem_of_In in Hj.
      pose proof (find_none _ _ Ef j Hj) as Hn. congruence.
    + rewrite signal_listeners_addEventListener by lia.
      destruct (registered s1 m _) eqn:Er.
      * apply registered_iff in Er. rewrite Ls in Er. apply elem_of_nil in Er. contradiction.
      * rewrite Ls. reflexivity.
Qed.


(** X12.  [mergeSignals] on sources of the store allocates one signal and
    leaves the signals before it fired or not, with their reasons, as they
    were.  When a source has fired, the new signal has fired with the reason
    of the first such source, and [onAbort] is registered on no source when
    the composer returns.  When no source has fired, the new signal has not
    fired, [onAbort] is registered on every source and the cleanup is the
    only listener of the new signal. *)
Theorem X_mergeSignals_state (st : Store) (sources : list nat) :
  Forall (fun j => (j < length st)%nat) sources ->
  let m := (Legacy.mergeSignals sources st).1 in
  let st' := (Legacy.mergeSignals sources st).2 in
  m = length st
  /\ length st' = S (length st)
  /\ (forall j, (j < length st)%nat ->
        signal_aborted st' j = signal_aborted st j
        /\ signal_reason st' j = signal_reason st j)
  /\ match find (signal_aborted st) sources with
     | Some src =>
         signal_aborted st' m = true
         /\ signal_reason st' m = Some (default defaultAbortReason (signal_reason st src))
         /\ (forall j, j ∈ sources -> OnAbort m true ∉ signal_listeners st' j)
     | None =>
         signal_aborted st' m = false
         /\ signal_reason st' m = None
         /\ (forall j, j ∈ sources -> OnAbort m true ∈ signal_listeners st' j)
         /\ signal_listeners st' m = [Cleanup m true sources]
     end.
Proof. apply mergeSignals_state_aux. Qed.

Lemma X_mergeSignals_state_witness :
  Forall (fun j => (j < length fired_timeout_store)%nat) [1%nat; 0%nat]
  /\ signal_aborted (Legacy.mergeSignals [1%nat; 0%nat] fired_timeout_store).2 2 = true
  /\ signal_reason (Legacy.mergeSignals [1%nat; 0%nat] fired_timeout_store).2 2
     = Some timeoutReason
  /\ (forall j, j ∈ [1%nat; 0%nat] ->
        OnAbort 2 true
          ∉ signal_listeners (Legacy.mergeSignals [1%nat; 0%nat] fired_timeout_store).2 j).
Proof.
  assert (H : Forall (fun j => (j < length fired_timeout_store)%nat) [1%nat; 0%nat])
    by (repeat constructor).
  split; [exact H|].
  exact (proj2 (proj2 (proj2 (X_mergeSignals_state fired_timeout_store [1%nat; 0%nat] H)))).
Defined.

(** ** [tryRequest]: the shape of an execution *)















(** The timer a refused request leaves armed. *)
Example tryRequest_timer_leak :
  Platform.tryRequest credentials_in_url legacy_scenario 1 (initial [])
  = (mkWorld (Legacy.mergeSignals [0%nat] [mkSignal false None []]).2 0 [EvSetTimeout 0 10000],
     Throw (TypeError "Request cannot be constructed from a URL that includes credentials.")).
Proof. vm_compute. reflexivity. Qed.

Example tryRequest_timers_example :
  trace (Legacy.tryRequest timing_out_scenario 1 (initial unfired_store)).1 =
  [EvSetTimeout 2 10000; EvFetch (mkRequest "GET" 3); EvDelay 200;
   EvSetTimeout 4 10000; EvFetch (mkRequest "GET" 5); EvDelay 400;
   EvSetTimeout 6 10000; EvFetch (mkRequest "GET" 7);
   EvClearTimeout 6; EvClearTimeout 4; EvClearTimeout 2].
Proof. vm_compute. reflexivity. Qed.

(** ** [tryRequest]: the result *)









(** ** [#pathname]: the three copies *)

Lemma Paths_pathname_loop path :
  Paths.pathname_loop path = Client.pathname_loop (map as_segment path).
Proof.
  unfold Paths.pathname_loop, Client.pathname_loop.
  set (f := fun (segments : list string) (segment : Paths.PathItem) => _).
  set (g := fun (segments : list string) (segment : Client.PathSegment) => _).
  generalize (@nil string).
  induction path as [|item path IH]; intros acc; [reflexivity|].
  cbn [fold_left map]. rewrite IH. f_equal. destruct item; reflexivity.
Qed.

Lemma omap_filter_present (path : list Client.PathSegment) :
  omap spec_segment (List.filter present path) = omap spec_segment path.
Proof.
  induction path as [|seg path IH]; [reflexivity|].
  destruct seg; cbn [List.filter present omap list_omap spec_segment]; rewrite ?IH;
    reflexivity.
Qed.

(** X18.  The [#pathname] of the result-returning variant and of [mod.ts]
    computes, on a path of numbers and strings, the segments and the
    pathname that the [#pathname] of the [Builder] variant computes on the
    same path. *)
Theorem X_pathname_copies_agree (path : list Paths.PathItem) :
  Paths.pathname_loop path = Client.pathname_loop (map as_segment path)
  /\ Paths.pathname path = Client.pathname (map as_segment path).
Proof.
  split; [apply Paths_pathname_loop|].
  unfold Paths.pathname, Client.pathname. rewrite Paths_pathname_loop. reflexivity.
Qed.

(** X19.  [#pathname] reads a path segment by segment: removing the
    [null] and [undefined] entries of a path changes nothing, and the
    segments of a concatenation of two paths are the segments of the first
    followed by the segments of the second. *)
Theorem X_pathname_compositional (segments more : list Client.PathSegment) :
  Client.pathname (List.filter present segments) = Client.pathname segments
  /\ Client.pathname_loop (segments ++ more)
     = (Client.pathname_loop segments ++ Client.pathname_loop more)%list.
Proof.
  split.
  - unfold Client.pathname. rewrite !pathname_loop_spec, omap_filter_present. reflexivity.
  - rewrite !pathname_loop_spec. apply omap_app.
Qed.

(** ** The dispatch of abort events *)

Lemma abort_S fuel (st : Store) id r :
  abort (S fuel) st id r =
  match st !! id with
  | None => st
  | Some s =>
      if aborted s then st
      else fold_left (dispatch_step fuel id) (listeners s)
             (<[id := mkSignal true (Some (default defaultAbortReason r)) (listeners s)]> st)
  end.
Proof. reflexivity. Qed.

Lemma removeFromAll_preserves (P : Store -> Prop) l :
  (forall st src, P st -> P (removeEventListener st src l)) ->
  forall sources st, P st -> P (removeFromAll st sources l).
Proof.
  intros H sources st Hst. unfold removeFromAll.
  apply (fold_left_preserves P); [|exact Hst]. intros a x Ha. apply H. exact Ha.
Qed.

(** An invariant of the dispatch: it holds after [abort] when firing a
    signal that had not fired keeps it, as do the removals of a listener
    from that signal afterwards and the removals of an [onAbort]. *)
Lemma abort_preserves (P : Store -> Prop) :
  (forall (st : Store) id s r,
     P st -> st !! id = Some s -> aborted s = false ->
     P (<[id := mkSignal true (Some (default defaultAbortReason r)) (listeners s)]> st)
     /\ forall st' l, P st' -> P (removeEventListener st' id l)) ->
  (forall st src t f, P st -> P (removeEventListener st src (OnAbort t f))) ->
  forall fuel st id r, P st -> P (abort fuel st id r).
Proof.
  intros Hfire Hclean. induction fuel as [|fuel IH]; intros st id r Hst; [exact Hst|].
  rewrite abort_S. destruct (st !! id) as [s|] eqn:El; [|exact Hst].
  destruct (aborted s) eqn:Es; [exact Hst|].
  destruct (Hfire st id s r Hst El Es) as [H1 Honce].
  apply (fold_left_preserves P); [|exact H1].
  intros a [l once] Ha. unfold dispatch_step. cbn [fst snd].
  destruct (registered a id l); [|exact Ha].
  assert (Hb : P (if once then removeEventListener a id l else a))
    by (destruct once; [apply Honce|]; exact Ha).
  destruct l as [target fwd|target fwd sources].
  - apply IH. exact Hb.
  - apply removeFromAll_preserves; [|exact Hb]. intros st' src Hst'. apply Hclean. exact Hst'.
Qed.

(** A signal that has fired keeps its reason. *)
Lemma abort_keeps_fired fuel st id r j :
  signal_aborted st j = true ->
  signal_aborted (abort fuel st id r) j = true
  /\ signal_reason (abort fuel st id r) j = signal_reason st j.
Proof.
  intros Hj.
  apply (abort_preserves
           (fun st' => signal_aborted st' j = true /\ signal_reason st' j = signal_reason st j)).
  - intros st0 id0 s r0 [Ha Hr] El Es.
    assert (Hne : id0 <> j).
    { intros ->. unfold signal_aborted in Ha. unfold Store in *. rewrite El in Ha. congruence. }
    assert (Hlt : (id0 < length st0)%nat) by (eapply lookup_lt_Some; exact El).
    split.
    + rewrite signal_aborted_insert, signal_reason_insert by exact Hlt.
      rewrite !decide_False by exact Hne. split; assumption.
    + intros st' l [Ha' Hr'].
      rewrite signal_aborted_removeEventListener, signal_reason_removeEventListener.
      split; assumption.
  - intros st0 src t f [Ha Hr].
    rewrite signal_aborted_removeEventListener, signal_reason_removeEventListener.
    split; assumption.
  - split; [exact Hj|reflexivity].
Qed.

(** The dispatch registers no listener. *)
Lemma abort_listeners_shrink fuel st id r j l :
  l ∈ signal_listeners (abort fuel st id r) j -> l ∈ signal_listeners st j.
Proof.
  revert j l.
  apply (abort_preserves
           (fun st' => forall j l, l ∈ signal_listeners st' j -> l ∈ signal_listeners st j)).
  - intros st0 id0 s r0 H El Es.
    assert (Hlt : (id0 < length st0)%nat) by (eapply lookup_lt_Some; exact El).
    split.
    + intros j l. rewrite signal_listeners_insert by exact Hlt.
      destruct (decide (id0 = j)) as [<-|Hne]; [|apply H].
      cbn [listeners]. intros Hin. apply H. unfold signal_listeners. unfold Store in *.
      rewrite El. exact Hin.
    + intros st' l' H' j l. rewrite signal_listeners_removeEventListener.
      destruct (decide (id0 = j)); [|apply H'].
      intros Hin. apply list_elem_of_filter in Hin as [_ Hin]. apply H'. exact Hin.
  - intros st0 src t f H j l. rewrite signal_listeners_removeEventListener.
    destruct (decide (src = j)); [|apply H].
    intros Hin. apply list_elem_of_filter in Hin as [_ Hin]. apply H. exact Hin.
  - intros j l H. exact H.
Qed.

(** Firing: the signal [abort] is called on has fired afterwards. *)
Lemma abort_fires fuel (st : Store) id r :
  (id < length st)%nat -> signal_aborted (abort (S fuel) st id r) id = true.
Proof.
  intros Hlt. destruct (signal_aborted st id) eqn:Ea.
  { apply abort_keeps_fired. exact Ea. }
  rewrite abort_S. destruct (lookup_lt_is_Some_2 st id Hlt) as [s El].
  unfold Store in *. rewrite El.
  assert (Es : aborted s = false).
  { unfold signal_aborted in Ea. unfold Store in *. rewrite El in Ea. exact Ea. }
  rewrite Es.
  apply (fold_left_preserves (fun st' => signal_aborted st' id = true)).
  - intros a [l once] Ha. unfold dispatch_step. cbn [fst snd].
    destruct (registered a id l); [|exact Ha].
    assert (Hb : signal_aborted (if once then removeEventListener a id l else a) id = true)
      by (destruct once; rewrite ?signal_aborted_removeEventListener; exact Ha).
    destruct l as [target fwd|target fwd sources].
    + apply abort_keeps_fired. exact Hb.
    + rewrite signal_aborted_removeFromAll. exact Hb.
  - rewrite signal_aborted_insert by exact Hlt. rewrite decide_True by reflexivity. reflexivity.
Qed.

Lemma abort_reason fuel (st : Store) id r :
  (id < length st)%nat -> signal_aborted st id = false ->
  signal_reason (abort (S fuel) st id r) id = Some (default defaultAbortReason r).
Proof.
  intros Hlt Ea. rewrite abort_S. destruct (lookup_lt_is_Some_2 st id Hlt) as [s El].
  unfold Store in *. rewrite El.
  assert (Es : aborted s = false).
  { unfold signal_aborted in Ea. unfold Store in *. rewrite El in Ea. exact Ea. }
  rewrite Es.
  apply (fold_left_preserves
           (fun st' => signal_aborted st' id = true
                       /\ signal_reason st' id = Some (default defaultAbortReason r))).
  - intros a [l once] [Ha Hr]. unfold dispatch_step. cbn [fst snd].
    destruct (registered a id l); [|split; assumption].
    assert (Hb : signal_aborted (if once then removeEventListener a id l else a) id = true
                 /\ signal_reason (if once then removeEventListener a id l else a) id
                    = Some (default defaultAbortReason r))
      by (destruct once;
          rewrite ?signal_aborted_removeEventListener, ?signal_reason_removeEventListener;
          split; assumption).
    destruct Hb as [Hb1 Hb2].
    destruct l as [target fwd|target fwd sources].
    + destruct (abort_keeps_fired fuel _ target
                  (if fwd then (if once then removeEventListener a id (OnAbort target fwd)
                                else a) !! id ≫= reason else None) id Hb1) as [H1 H2].
      split; [exact H1|]. rewrite H2. exact Hb2.
    + rewrite signal_aborted_removeFromAll, signal_reason_removeFromAll. split; assumption.
  - rewrite signal_aborted_insert, signal_reason_insert by exact Hlt.
    rewrite !decide_True by reflexivity. split; reflexivity.
Qed.


(** ** Stores along a dispatch *)

Lemma evolves_refl st : evolves st st.
Proof. repeat split; auto. Qed.

Lemma evolves_trans st1 st2 st3 : evolves st1 st2 -> evolves st2 st3 -> evolves st1 st3.
Proof.
  intros (L1 & U1 & A1 & S1) (L2 & U2 & A2 & S2). split; [congruence|]. split; [lia|].
  split.
  - intros j Hj. destruct (A1 j Hj) as [Ha Hr]. destruct (A2 j Ha) as [Ha' Hr'].
    split; [exact Ha'|congruence].
  - intros j l Hin. apply S1, S2. exact Hin.
Qed.

Lemma evolves_removeEventListener st id l : evolves st (removeEventListener st id l).
Proof.
  split; [apply length_removeEventListener|].
  split; [rewrite unfired_removeEventListener; lia|]. split.
  - intros j Hj.
    rewrite signal_aborted_removeEventListener, signal_reason_removeEventListener. auto.
  - intros j l'. rewrite signal_listeners_removeEventListener.
    destruct (decide (id = j)); [|auto].
    intros Hin. apply list_elem_of_filter in Hin as [_ Hin]. exact Hin.
Qed.

Lemma evolves_removeFromAll st sources l : evolves st (removeFromAll st sources l).
Proof.
  apply (removeFromAll_preserves (evolves st)); [|apply evolves_refl].
  intros st' src H. eapply evolves_trans; [exact H|apply evolves_removeEventListener].
Qed.

Lemma evolves_fire (st : Store) id s r :
  st !! id = Some s -> aborted s = false ->
  evolves st (<[id := mkSignal true (Some (default defaultAbortReason r)) (listeners s)]> st).
Proof.
  intros El Es.
  assert (Hlt : (id < length st)%nat) by (eapply lookup_lt_Some; exact El).
  split; [apply length_insert|]. split.
  { pose proof (unfired_fire st id s
                  (mkSignal true (Some (default defaultAbortReason r)) (listeners s))
                  El Es eq_refl). lia. }
  split.
  - intros j Hj.
    assert (Hne : id <> j).
    { intros ->. unfold signal_aborted in Hj. unfold Store in *. rewrite El in Hj. congruence. }
    rewrite signal_aborted_insert, signal_reason_insert by exact Hlt.
    rewrite !decide_False by exact Hne. auto.
  - intros j l. rewrite signal_listeners_insert by exact Hlt.
    destruct (decide (id = j)) as [<-|Hne]; [|auto].
    cbn [listeners]. unfold signal_listeners. unfold Store in *. rewrite El. auto.
Qed.

Lemma evolves_abort fuel st id r : evolves st (abort fuel st id r).
Proof.
  apply (abort_preserves (evolves st)).
  - intros st0 id0 s r0 H El Es. split.
    + eapply evolves_trans; [exact H|apply evolves_fire; assumption].
    + intros st' l H'. eapply evolves_trans; [exact H'|apply evolves_removeEventListener].
  - intros st0 src t f H. eapply evolves_trans; [exact H|apply evolves_removeEventListener].
  - apply evolves_refl.
Qed.

Lemma evolves_dispatch_step fuel id st e : evolves st (dispatch_step fuel id st e).
Proof.
  unfold dispatch_step. destruct (registered st id e.1); [|apply evolves_refl].
  assert (Hb : evolves st (if e.2 then removeEventListener st id e.1 else st))
    by (destruct e.2; [apply evolves_removeEventListener|apply evolves_refl]).
  destruct e.1 as [target fwd|target fwd sources].
  - eapply evolves_trans; [exact Hb|apply evolves_abort].
  - eapply evolves_trans; [exact Hb|apply evolves_removeFromAll].
Qed.

Lemma evolves_fold_dispatch fuel id ls st :
  evolves st (fold_left (dispatch_step fuel id) ls st).
Proof.
  apply (fold_left_preserves (evolves st)); [|apply evolves_refl].
  intros a e Ha. eapply evolves_trans; [exact Ha|apply evolves_dispatch_step].
Qed.

Lemma cleanup_at_home_evolves m st st' :
  evolves st st' -> cleanup_at_home m st -> cleanup_at_home m st'.
Proof. intros (_ & _ & _ & S) H j f sources Hin. eapply H, S, Hin. Qed.

Lemma onAbort_at_sources_evolves m fwd sources st st' :
  evolves st st' -> onAbort_at_sources m fwd sources st -> onAbort_at_sources m fwd sources st'.
Proof. intros (_ & _ & _ & S) H j f Hin. eapply H, S, Hin. Qed.

Lemma unfired_pos (st : Store) j :
  (j < length st)%nat -> signal_aborted st j = false -> (0 < unfired st)%nat.
Proof.
  intros Hlt Ha. destruct (lookup_lt_is_Some_2 st j Hlt) as [s El].
  assert (Es : aborted s = false).
  { unfold signal_aborted in Ha. unfold Store in *. rewrite El in Ha. exact Ha. }
  pose proof (unfired_fire st j s (mkSignal true None []) El Es eq_refl). lia.
Qed.

(** ** The cleanup of a composition *)

Lemma signal_listeners_once (st : Store) id l (once : bool) j l' :
  l' ∈ signal_listeners st j -> (id <> j \/ l' <> l) ->
  l' ∈ signal_listeners (if once then removeEventListener st id l else st) j.
Proof.
  intros Hin Hne. destruct once; [|exact Hin].
  rewrite signal_listeners_removeEventListener.
  destruct (decide (id = j)) as [->|_]; [|exact Hin].
  apply list_elem_of_filter. split; [|exact Hin]. destruct Hne; congruence.
Qed.

Lemma signal_listeners_removeFromAll_other st sources l j l' :
  l' ∈ signal_listeners st j -> l' <> l ->
  l' ∈ signal_listeners (removeFromAll st sources l) j.
Proof.
  intros Hin Hne. rewrite signal_listeners_removeFromAll.
  destruct (bool_decide (j ∈ sources)); [|exact Hin].
  apply list_elem_of_filter. split; assumption.
Qed.

(** A cleanup stays registered on a signal that has fired. *)
Lemma abort_keeps_cleanup fuel st id r m t f sources :
  signal_aborted st m = true ->
  Cleanup t f sources ∈ signal_listeners st m ->
  Cleanup t f sources ∈ signal_listeners (abort fuel st id r) m.
Proof.
  intros Hm Hin.
  apply (abort_preserves
           (fun st' => signal_aborted st' m = true
                       /\ Cleanup t f sources ∈ signal_listeners st' m)).
  - intros st0 id0 s r0 [Ha Hl] El Es.
    assert (Hne : id0 <> m).
    { intros ->. unfold signal_aborted in Ha. unfold Store in *. rewrite El in Ha. congruence. }
    assert (Hlt : (id0 < length st0)%nat) by (eapply lookup_lt_Some; exact El).
    split.
    + rewrite signal_aborted_insert, signal_listeners_insert by exact Hlt.
      rewrite !decide_False by exact Hne. split; assumption.
    + intros st' l [Ha' Hl']. rewrite signal_aborted_removeEventListener.
      split; [exact Ha'|]. apply (signal_listeners_once st' id0 l true); auto.
  - intros st0 src t' f' [Ha Hl]. rewrite signal_aborted_removeEventListener.
    split; [exact Ha|]. apply (signal_listeners_once st0 src _ true); [exact Hl|].
    right. discriminate.
  - split; assumption.
Qed.


Lemma fold_runs_cleanup fuel m fwd sources : forall rest st',
  signal_aborted st' m = true ->
  (forall s', s' ∈ sources -> OnAbort m fwd ∉ signal_listeners st' s')
  \/ (Cleanup m fwd sources ∈ signal_listeners st' m
      /\ Cleanup m fwd sources ∈ rest.*1) ->
  signal_aborted (fold_left (dispatch_step fuel m) rest st') m = true
  /\ forall s', s' ∈ sources ->
       OnAbort m fwd ∉ signal_listeners (fold_left (dispatch_step fuel m) rest st') s'.
Proof.
  induction rest as [|[l once] rest IH]; intros st' Hm H; cbn [fold_left].
  - destruct H as [Hd|[_ Hin]]; [split; assumption|].
    apply elem_of_nil in Hin. contradiction.
  - pose proof (evolves_dispatch_step fuel m st' (l, once)) as (_ & _ & Hf & Hs).
    apply IH; [apply Hf; exact Hm|].
    destruct H as [Hd|[Hc Hr]].
    { left. intros s' Hs' Hin. apply (Hd s' Hs'), Hs, Hin. }
    destruct (decide (l = Cleanup m fwd sources)) as [->|Hne].
    + left. intros s' Hs'. unfold dispatch_step. cbn [fst snd].
      rewrite (proj2 (registered_iff st' m _) Hc).
      rewrite signal_listeners_removeFromAll, bool_decide_eq_true_2 by exact Hs'.
      intros Hin. apply list_elem_of_filter in Hin as [Hn _]. apply Hn. reflexivity.
    + right. split.
      * unfold dispatch_step. cbn [fst snd]. destruct (registered st' m l); [|exact Hc].
        assert (Hc' : Cleanup m fwd sources
                        ∈ signal_listeners (if once then removeEventListener st' m l else st') m)
          by (apply signal_listeners_once; [exact Hc|right; congruence]).
        assert (Hm' : signal_aborted (if once then removeEventListener st' m l else st') m = true)
          by (destruct once; rewrite ?signal_aborted_removeEventListener; exact Hm).
        destruct l as [target f|target f srcs].
        -- apply abort_keeps_cleanup; assumption.
        -- apply signal_listeners_removeFromAll_other; [exact Hc'|discriminate].
      * cbn [fmap list_fmap fst] in Hr. apply elem_of_cons in Hr as [Hr|Hr]; [congruence|exact Hr].
Qed.

(** Firing the signal of a composition runs its cleanup: [onAbort] is gone
    from every source. *)
Lemma abort_runs_cleanup fuel (st : Store) m r fwd sources :
  (m < length st)%nat -> signal_aborted st m = false ->
  Cleanup m fwd sources ∈ signal_listeners st m ->
  signal_aborted (abort (S fuel) st m r) m = true
  /\ forall s', s' ∈ sources ->
       OnAbort m fwd ∉ signal_listeners (abort (S fuel) st m r) s'.
Proof.
  intros Hlt Ha Hc. rewrite abort_S. destruct (lookup_lt_is_Some_2 st m Hlt) as [s El].
  unfold Store in *. rewrite El.
  assert (Es : aborted s = false).
  { unfold signal_aborted in Ha. unfold Store in *. rewrite El in Ha. exact Ha. }
  rewrite Es.
  assert (Hls : signal_listeners st m = (listeners s).*1).
  { unfold signal_listeners. unfold Store in *. rewrite El. reflexivity. }
  apply fold_runs_cleanup.
  - rewrite signal_aborted_insert by exact Hlt. rewrite decide_True by reflexivity. reflexivity.
  - right. rewrite signal_listeners_insert by exact Hlt. rewrite decide_True by reflexivity.
    cbn [listeners]. rewrite <- Hls. split; exact Hc.
Qed.


(** ** A composition and the dispatch *)

Section Linked.

Variables (m : nat) (fwd : bool) (sources : list nat) (s : nat).
Hypothesis Hsm : s <> m.

Lemma linked_once (st : Store) id l (once : bool) :
  linked m fwd sources s st ->
  (l <> OnAbort m fwd \/ id <> s) -> (l <> Cleanup m fwd sources \/ id <> m) ->
  linked m fwd sources s (if once then removeEventListener st id l else st).
Proof.
  intros [[Ha Hd]|(Ha & Hc & Ho)] H1 H2; [left|right].
  - split; [destruct once; rewrite ?signal_aborted_removeEventListener; exact Ha|].
    intros s' Hs' Hin. apply (Hd s' Hs').
    destruct once; [|exact Hin].
    apply (proj2 (proj2 (proj2 (evolves_removeEventListener st id l)))) in Hin. exact Hin.
  - split; [destruct once; rewrite ?signal_aborted_removeEventListener; exact Ha|].
    split; apply signal_listeners_once; try assumption.
    + destruct H2; [right|left]; congruence.
    + destruct H1; [right|left]; congruence.
Qed.

Lemma linked_removeFromAll (st : Store) srcs t f :
  linked m fwd sources s st -> t <> m ->
  linked m fwd sources s (removeFromAll st srcs (OnAbort t f)).
Proof.
  intros [[Ha Hd]|(Ha & Hc & Ho)] Ht; [left|right];
    rewrite signal_aborted_removeFromAll; (split; [exact Ha|]).
  - intros s' Hs' Hin. apply (Hd s' Hs').
    apply (proj2 (proj2 (proj2 (evolves_removeFromAll st srcs (OnAbort t f))))) in Hin.
    exact Hin.
  - split; apply signal_listeners_removeFromAll_other; try assumption; congruence.
Qed.

Lemma linked_fire (st : Store) id sg r :
  linked m fwd sources s st -> id <> m -> st !! id = Some sg ->
  linked m fwd sources s
    (<[id := mkSignal true (Some (default defaultAbortReason r)) (listeners sg)]> st).
Proof.
  intros H Hne El.
  assert (Hlt : (id < length st)%nat) by (eapply lookup_lt_Some; exact El).
  assert (Hl : forall j,
    signal_listeners
      (<[id := mkSignal true (Some (default defaultAbortReason r)) (listeners sg)]> st) j
    = signal_listeners st j).
  { intros j. rewrite signal_listeners_insert by exact Hlt.
    destruct (decide (id = j)) as [<-|_]; [|reflexivity].
    unfold signal_listeners. unfold Store in *. rewrite El. reflexivity. }
  unfold linked. rewrite signal_aborted_insert by exact Hlt.
  rewrite decide_False by exact Hne. rewrite !Hl.
  destruct H as [[Ha Hd]|(Ha & Hc & Ho)]; [left|right]; repeat split; try assumption.
  intros s' Hs'. rewrite Hl. apply Hd. exact Hs'.
Qed.

(** One listener of a signal other than [m], given that nested dispatches
    keep the composition linked. *)
Lemma dispatch_step_linked fuel id (st : Store) (e : Listener * bool) :
  (forall st0 id0 r0,
     (m < length st0)%nat -> cleanup_at_home m st0 -> (unfired st0 < fuel)%nat ->
     linked m fwd sources s st0 -> linked m fwd sources s (abort fuel st0 id0 r0)) ->
  id <> m -> (m < length st)%nat -> cleanup_at_home m st -> (unfired st < fuel)%nat ->
  linked m fwd sources s st -> linked m fwd sources s (dispatch_step fuel id st e).
Proof.
  intros IH Hid Hm Hh Hu Hl. destruct e as [l once]. unfold dispatch_step. cbn [fst snd].
  destruct (registered st id l) eqn:Er; [|exact Hl].
  apply registered_iff in Er.
  set (st'' := if once then removeEventListener st id l else st).
  assert (He : evolves st st'')
    by (subst st''; destruct once; [apply evolves_removeEventListener|apply evolves_refl]).
  pose proof He as (HL & HU & HA & HS).
  assert (Hh'' : cleanup_at_home m st'') by (eapply cleanup_at_home_evolves; eassumption).
  destruct l as [t f|t f srcs].
  - destruct (decide (t = m)) as [->|Ht].
    + destruct (signal_aborted st'' m) eqn:Ea.
      * rewrite abort_fired by exact Ea.
        assert (Ha : signal_aborted st m = true)
          by (subst st''; destruct once; rewrite ?signal_aborted_removeEventListener in Ea;
              exact Ea).
        destruct Hl as [[_ Hd]|(Ha' & _)]; [|congruence].
        left. split; [exact Ea|]. intros s' Hs' Hin. apply (Hd s' Hs'), HS, Hin.
      * assert (Ha : signal_aborted st m = false)
          by (subst st''; destruct once; rewrite ?signal_aborted_removeEventListener in Ea;
              exact Ea).
        destruct Hl as [[Ha' _]|(_ & Hc & _)]; [congruence|].
        assert (Hc'' : Cleanup m fwd sources ∈ signal_listeners st'' m)
          by (apply signal_listeners_once; [exact Hc|left; exact Hid]).
        assert (Hpos : (0 < unfired st'')%nat) by (apply (unfired_pos st'' m); [lia|exact Ea]).
        destruct fuel as [|fuel]; [lia|].
        left. apply abort_runs_cleanup; [lia|exact Ea|exact Hc''].
    + apply IH; [lia|exact Hh''|lia|].
      apply linked_once; [exact Hl|left; congruence|left; discriminate].
  - assert (Ht : t <> m).
    { intros ->. apply Hid. eapply Hh. exact Er. }
    apply linked_removeFromAll; [|exact Ht].
    apply linked_once; [exact Hl|left; discriminate|right; exact Hid].
Qed.

(** The dispatch keeps a composition linked, whatever signal fires. *)
Lemma abort_keeps_linked : forall fuel (st : Store) id r,
  (m < length st)%nat -> cleanup_at_home m st -> (unfired st < fuel)%nat ->
  linked m fwd sources s st -> linked m fwd sources s (abort fuel st id r).
Proof.
  induction fuel as [|fuel IH]; intros st id r Hm Hh Hu Hl; [exact Hl|].
  destruct (decide (id = m)) as [->|Hid].
  - destruct (signal_aborted st m) eqn:Ea; [rewrite abort_fired by exact Ea; exact Hl|].
    destruct Hl as [[Ha' _]|(_ & Hc & _)]; [congruence|].
    left. apply abort_runs_cleanup; assumption.
  - rewrite abort_S. destruct (st !! id) as [sg|] eqn:El; [|exact Hl].
    destruct (aborted sg) eqn:Es; [exact Hl|].
    set (st1 := <[id := _]> st).
    pose proof (evolves_fire st id sg r El Es) as He1. fold st1 in He1.
    pose proof (unfired_fire st id sg
                  (mkSignal true (Some (default defaultAbortReason r)) (listeners sg))
                  El Es eq_refl) as Hf. fold st1 in Hf.
    apply (fold_left_preserves
             (fun st' => linked m fwd sources s st' /\ evolves st1 st')).
    + intros a e [Hla Hea]. split.
      * pose proof Hea as (HL & HU & _). pose proof He1 as (HL1 & _).
        apply dispatch_step_linked; try assumption; try lia.
        eapply cleanup_at_home_evolves; [|exact Hh].
        eapply evolves_trans; eassumption.
      * eapply evolves_trans; [exact Hea|apply evolves_dispatch_step].
    + split; [|apply evolves_refl]. apply linked_fire; assumption.
Qed.

Lemma fold_source_fires fuel : forall rest (st : Store),
  (m < length st)%nat -> cleanup_at_home m st -> (unfired st < S fuel)%nat ->
  linked m fwd sources s st ->
  (signal_aborted st m = true \/ OnAbort m fwd ∈ rest.*1) ->
  signal_aborted (fold_left (dispatch_step (S fuel) s) rest st) m = true.
Proof.
  induction rest as [|[l once] rest IH]; intros st Hm Hh Hu Hl H; cbn [fold_left].
  - destruct H as [H|H]; [exact H|]. apply elem_of_nil in H. contradiction.
  - pose proof (evolves_dispatch_step (S fuel) s st (l, once)) as He.
    pose proof He as (HL & HU & HA & _).
    apply IH; [lia|eapply cleanup_at_home_evolves; eassumption|lia| |].
    + apply dispatch_step_linked; try assumption. intros st0 id0 r0. apply abort_keeps_linked.
    + destruct H as [H|H]; [left; apply HA; exact H|].
      destruct (signal_aborted st m) eqn:Ea; [left; apply HA; exact Ea|].
      cbn [fmap list_fmap fst] in H. apply elem_of_cons in H as [<-|H]; [|right; exact H].
      left. destruct Hl as [[Ha' _]|(_ & _ & Ho)]; [congruence|].
      unfold dispatch_step. cbn [fst snd]. rewrite (proj2 (registered_iff st s _) Ho).
      apply abort_fires. destruct once; rewrite ?length_removeEventListener; exact Hm.
Qed.

(** When a source of a linked composition fires, so does the signal of the
    composition, and [onAbort] is gone from every source afterwards. *)
Lemma abort_source_fires fuel (st : Store) r :
  (m < length st)%nat -> (s < length st)%nat -> cleanup_at_home m st ->
  (unfired st < S (S fuel))%nat ->
  linked m fwd sources s st -> signal_aborted st s = false ->
  signal_aborted (abort (S (S fuel)) st s r) m = true
  /\ forall s', s' ∈ sources ->
       OnAbort m fwd ∉ signal_listeners (abort (S (S fuel)) st s r) s'.
Proof.
  intros Hm Hs Hh Hu Hl Ha.
  pose proof (abort_keeps_linked (S (S fuel)) st s r Hm Hh Hu Hl) as Hl2.
  enough (Hf : signal_aborted (abort (S (S fuel)) st s r) m = true).
  { destruct Hl2 as [[_ Hd]|(Ha2 & _)]; [split; assumption|congruence]. }
  clear Hl2. rewrite abort_S. destruct (lookup_lt_is_Some_2 st s Hs) as [sg El].
  unfold Store in *. rewrite El.
  assert (Es : aborted sg = false).
  { unfold signal_aborted in Ha. unfold Store in *. rewrite El in Ha. exact Ha. }
  rewrite Es.
  pose proof (evolves_fire st s sg r El Es) as He1.
  pose proof (unfired_fire st s sg
                (mkSignal true (Some (default defaultAbortReason r)) (listeners sg))
                El Es eq_refl) as Hf.
  pose proof He1 as (HL & _). unfold Store in *.
  apply fold_source_fires; [lia|eapply cleanup_at_home_evolves; eassumption|lia| |].
  - apply linked_fire; assumption.
  - destruct Hl as [[Ha' _]|(_ & _ & Ho)].
    + left. apply (proj1 (proj2 (proj2 He1))). exact Ha'.
    + right. unfold signal_listeners in Ho. unfold Store in *. rewrite El in Ho. exact Ho.
Qed.

End Linked.


(** ** The reason a composition fires with *)

Lemma abort_keeps_default_reason m sources : forall fuel (st : Store) id r,
  onAbort_at_sources m false sources st ->
  (id <> m \/ r = None) ->
  (signal_aborted st m = true -> signal_reason st m = Some defaultAbortReason) ->
  signal_aborted (abort fuel st id r) m = true ->
  signal_reason (abort fuel st id r) m = Some defaultAbortReason.
Proof.
  induction fuel as [|fuel IH]; intros st id r Ho Hc HR; [exact HR|].
  destruct (decide (id = m)) as [->|Hid].
  - destruct Hc as [Hc| ->]; [congruence|].
    destruct (signal_aborted st m) eqn:Ea;
      [rewrite abort_fired by exact Ea; intros _; apply HR; reflexivity|].
    destruct (decide (m < length st)%nat) as [Hlt|Hge].
    + intros _. rewrite abort_reason by assumption. reflexivity.
    + rewrite abort_S. unfold Store in *. rewrite (lookup_ge_None_2 st m) by lia.
      rewrite Ea. discriminate.
  - rewrite abort_S. destruct (st !! id) as [sg|] eqn:El; [|exact HR].
    destruct (aborted sg) eqn:Es; [exact HR|].
    assert (Hlt : (id < length st)%nat) by (eapply lookup_lt_Some; exact El).
    set (st1 := <[id := _]> st).
    pose proof (evolves_fire st id sg r El Es) as He1. fold st1 in He1.
    apply (fold_left_preserves
             (fun st' => (signal_aborted st' m = true ->
                          signal_reason st' m = Some defaultAbortReason)
                         /\ evolves st1 st')).
    + intros a [l once] [HRa Hea].
      split; [|eapply evolves_trans; [exact Hea|apply evolves_dispatch_step]].
      unfold dispatch_step. cbn [fst snd].
      destruct (registered a id l) eqn:Er; [|exact HRa].
      apply registered_iff in Er.
      set (st'' := if once then removeEventListener a id l else a).
      assert (He'' : evolves a st'')
        by (subst st''; destruct once; [apply evolves_removeEventListener|apply evolves_refl]).
      assert (HR'' : signal_aborted st'' m = true ->
                     signal_reason st'' m = Some defaultAbortReason)
        by (subst st''; destruct once;
            rewrite ?signal_aborted_removeEventListener, ?signal_reason_removeEventListener;
            exact HRa).
      assert (Ho'' : onAbort_at_sources m false sources st'').
      { eapply onAbort_at_sources_evolves; [|exact Ho].
        eapply evolves_trans; [exact He1|]. eapply evolves_trans; eassumption. }
      destruct l as [t f|t f srcs].
      * apply IH; [exact Ho''| |exact HR''].
        destruct (decide (t = m)) as [->|Ht]; [right|left; exact Ht].
        assert (Hoa : onAbort_at_sources m false sources a).
        { eapply onAbort_at_sources_evolves; [|exact Ho].
          eapply evolves_trans; eassumption. }
        destruct (Hoa id f Er) as [-> _]. reflexivity.
      * rewrite signal_aborted_removeFromAll, signal_reason_removeFromAll. exact HR''.
    + split; [|apply evolves_refl]. unfold st1.
      rewrite signal_aborted_insert, signal_reason_insert by exact Hlt.
      rewrite !decide_False by exact Hid. exact HR.
Qed.

Lemma forwarded_evolves m (sources : list nat) (st st' : Store) :
  evolves st st' -> signal_aborted st' m = signal_aborted st m ->
  (signal_aborted st m = true ->
   exists s', s' ∈ sources /\ signal_aborted st s' = true
              /\ signal_reason st m = signal_reason st s') ->
  signal_aborted st' m = true ->
  exists s', s' ∈ sources /\ signal_aborted st' s' = true
             /\ signal_reason st' m = signal_reason st' s'.
Proof.
  intros (_ & _ & HA & _) Hsame HR Ha. rewrite Hsame in Ha.
  destruct (HR Ha) as (s' & Hs' & Hf & Hr). exists s'. split; [exact Hs'|].
  destruct (HA s' Hf) as [-> ->]. destruct (HA m Ha) as [_ ->]. split; [reflexivity|exact Hr].
Qed.

Lemma abort_keeps_forwarded_reason m sources : forall fuel (st : Store) id r,
  onAbort_at_sources m true sources st -> (m < length st)%nat -> id <> m ->
  (signal_aborted st m = true ->
   exists s', s' ∈ sources /\ signal_aborted st s' = true
              /\ signal_reason st m = signal_reason st s') ->
  signal_aborted (abort fuel st id r) m = true ->
  exists s', s' ∈ sources /\ signal_aborted (abort fuel st id r) s' = true
             /\ signal_reason (abort fuel st id r) m
                = signal_reason (abort fuel st id r) s'.
Proof.
  induction fuel as [|fuel IH]; intros st id r Ho Hm Hid HR; [exact HR|].
  rewrite abort_S. destruct (st !! id) as [sg|] eqn:El; [|exact HR].
  destruct (aborted sg) eqn:Es; [exact HR|].
  assert (Hlt : (id < length st)%nat) by (eapply lookup_lt_Some; exact El).
  set (st1 := <[id := _]> st).
  pose proof (evolves_fire st id sg r El Es) as He1. fold st1 in He1.
  assert (Hid1 : signal_aborted st1 id = true
                 /\ signal_reason st1 id = Some (default defaultAbortReason r)).
  { unfold st1. rewrite signal_aborted_insert, signal_reason_insert by exact Hlt.
    rewrite !decide_True by reflexivity. split; reflexivity. }
  apply (fold_left_preserves
           (fun st' => (signal_aborted st' m = true ->
                        exists s', s' ∈ sources /\ signal_aborted st' s' = true
                                   /\ signal_reason st' m = signal_reason st' s')
                       /\ evolves st1 st')).
  - intros a [l once] [HRa Hea].
    split; [|eapply evolves_trans; [exact Hea|apply evolves_dispatch_step]].
    unfold dispatch_step. cbn [fst snd].
    destruct (registered a id l) eqn:Er; [|exact HRa].
    apply registered_iff in Er.
    set (st'' := if once then removeEventListener a id l else a).
    assert (He'' : evolves a st'')
      by (subst st''; destruct once; [apply evolves_removeEventListener|apply evolves_refl]).
    assert (Hsame : signal_aborted st'' m = signal_aborted a m)
      by (subst st''; destruct once; rewrite ?signal_aborted_removeEventListener; reflexivity).
    pose proof (forwarded_evolves m sources a st'' He'' Hsame HRa) as HR''.
    assert (He1'' : evolves st1 st'') by (eapply evolves_trans; eassumption).
    assert (Ho'' : onAbort_at_sources m true sources st'').
    { eapply onAbort_at_sources_evolves; [|exact Ho].
      eapply evolves_trans; eassumption. }
    assert (Hm'' : (m < length st'')%nat).
    { destruct He1'' as (-> & _). destruct He1 as (-> & _). exact Hm. }
    destruct l as [t f|t f srcs].
    + destruct (decide (t = m)) as [->|Ht]; [|apply IH; assumption].
      assert (Hoa : onAbort_at_sources m true sources a).
      { eapply onAbort_at_sources_evolves; [|exact Ho]. eapply evolves_trans; eassumption. }
      destruct (Hoa id f Er) as [-> Hsrc].
      destruct (signal_aborted st'' m) eqn:Ea;
        [rewrite abort_fired by exact Ea; intros _; apply HR''; reflexivity|].
      destruct fuel as [|fuel]; [cbn [abort]; rewrite Ea; discriminate|].
      intros _. exists id. split; [exact Hsrc|].
      destruct He1'' as (_ & _ & HA & _). destruct (HA id (proj1 Hid1)) as [Hf Hr].
      destruct (abort_keeps_fired (S fuel) st'' m (st'' !! id ≫= reason) id Hf) as [Hf2 Hr2].
      split; [exact Hf2|].
      rewrite abort_reason by assumption. rewrite Hr2.
      change (st'' !! id ≫= reason) with (signal_reason st'' id).
      rewrite Hr, (proj2 Hid1). reflexivity.
    + apply (forwarded_evolves m sources st''); [apply evolves_removeFromAll| |exact HR''].
      apply signal_aborted_removeFromAll.
  - split; [|apply evolves_refl].
    apply (forwarded_evolves m sources st); [exact He1| |exact HR].
    unfold st1. rewrite signal_aborted_insert by exact Hlt.
    rewrite decide_False by exact Hid. reflexivity.
Qed.


(** ** The listeners a composition registers *)

Lemma addEventListener_bound (st : Store) id l once j l' :
  l' ∈ signal_listeners (addEventListener st id l once) j ->
  l' ∈ signal_listeners st j \/ (l' = l /\ j = id).
Proof.
  destruct (decide (id = j)) as [<-|Hne].
  - destruct (decide (id < length st)%nat) as [Hlt|Hge].
    + rewrite signal_listeners_addEventListener by exact Hlt.
      destruct (registered st id l); [auto|].
      intros Hin. apply elem_of_app in Hin as [Hin|Hin]; [auto|].
      apply list_elem_of_singleton in Hin. auto.
    + unfold addEventListener. destruct (registered st id l); [auto|].
      unfold signal_listeners, Store in *. rewrite list_lookup_alter_eq.
      rewrite (lookup_ge_None_2 st id) by lia. auto.
  - rewrite signal_listeners_addEventListener_ne by exact Hne. auto.
Qed.

Lemma compose_source_bound (st : Store) src m l once r j l' :
  l' ∈ signal_listeners
         (if signal_aborted st src then AbortController_abort st m r
          else addEventListener st src l once) j ->
  l' ∈ signal_listeners st j \/ (l' = l /\ j = src).
Proof.
  destruct (signal_aborted st src).
  - intros Hin. left. unfold AbortController_abort in Hin.
    apply abort_listeners_shrink in Hin. exact Hin.
  - apply addEventListener_bound.
Qed.

Lemma mergeAbortSignals_bound (st : Store) t u j l :
  l ∈ signal_listeners (Client.mergeAbortSignals t u st).2 j ->
  l ∈ signal_listeners st j
  \/ (l = OnAbort (length st) false /\ j ∈ t :: option_list u)
  \/ (l = Cleanup (length st) false (t :: option_list u) /\ j = length st).
Proof.
  rewrite mergeAbortSignals_eq. cbv zeta. cbn [snd]. intros Hin.
  apply addEventListener_bound in Hin as [Hin|Hin]; [|auto].
  assert (H1 : forall l', l' ∈ signal_listeners
      (if signal_aborted (AbortController_new st).2 t
       then AbortController_abort (AbortController_new st).2 (length st) None
       else addEventListener (AbortController_new st).2 t (OnAbort (length st) false) false) j ->
    l' ∈ signal_listeners st j \/ (l' = OnAbort (length st) false /\ j ∈ t :: option_list u)).
  { intros l' H. apply compose_source_bound in H as [H|[-> ->]].
    - rewrite signal_listeners_new in H. auto.
    - right. split; [reflexivity|]. apply elem_of_cons. auto. }
  destruct u as [u'|].
  - apply compose_source_bound in Hin as [Hin|[-> ->]].
    + destruct (H1 l Hin) as [H|H]; auto.
    + right. left. split; [reflexivity|].
      apply elem_of_cons. right. apply elem_of_cons. left. reflexivity.
  - destruct (H1 l Hin) as [H|H]; auto.
Qed.

Lemma mergeSignals_bound (st : Store) sources j l :
  l ∈ signal_listeners (Legacy.mergeSignals sources st).2 j ->
  l ∈ signal_listeners st j
  \/ (l = OnAbort (length st) true /\ j ∈ sources)
  \/ (l = Cleanup (length st) true sources /\ j = length st).
Proof.
  rewrite mergeSignals_eq. cbv zeta. cbn [snd].
  set (f := fun (st' : Store) (src : nat) => _).
  assert (H1 : forall done rest (s0 : Store) l',
    (forall l'', l'' ∈ signal_listeners s0 j ->
       l'' ∈ signal_listeners st j \/ (l'' = OnAbort (length st) true /\ j ∈ done)) ->
    l' ∈ signal_listeners (fold_left f rest s0) j ->
    l' ∈ signal_listeners st j
    \/ (l' = OnAbort (length st) true /\ j ∈ (done ++ rest)%list)).
  { intros done rest. revert done.
    induction rest as [|src rest IH]; intros done s0 l' H0 Hin; cbn [fold_left] in Hin.
    - rewrite app_nil_r. apply H0. exact Hin.
    - replace (done ++ src :: rest)%list with ((done ++ [src]) ++ rest)%list
        by (rewrite <- app_assoc; reflexivity).
      apply (IH (done ++ [src])%list (f s0 src)); [|exact Hin].
      intros l'' H. unfold f in H. apply compose_source_bound in H as [H|[-> ->]].
      + destruct (H0 l'' H) as [H'|[-> H']]; [auto|].
        right. split; [reflexivity|]. apply elem_of_app. auto.
      + right. split; [reflexivity|]. apply elem_of_app. right.
        apply list_elem_of_singleton. reflexivity. }
  assert (H2 : forall l', l' ∈ signal_listeners (fold_left f sources (AbortController_new st).2) j ->
    l' ∈ signal_listeners st j \/ (l' = OnAbort (length st) true /\ j ∈ sources)).
  { intros l' Hin. apply (H1 [] sources (AbortController_new st).2 l'); [|exact Hin].
    intros l''. rewrite signal_listeners_new. auto. }
  destruct (signal_aborted _ _); intros Hin.
  - apply (proj2 (proj2 (proj2 (evolves_removeFromAll _ _ _)))) in Hin.
    destruct (H2 l Hin); auto.
  - apply addEventListener_bound in Hin as [Hin|Hin]; [|auto].
    destruct (H2 l Hin); auto.
Qed.

Lemma closed_fresh (st : Store) j l f :
  closed st -> l ∈ signal_listeners st j ->
  l <> OnAbort (length st) f /\ forall srcs, l <> Cleanup (length st) f srcs.
Proof.
  intros Hc Hin. specialize (Hc j l Hin).
  split; [|intros srcs]; intros ->; cbn in Hc; lia.
Qed.


Lemma existsb_false_elem {A} (f : A -> bool) (l : list A) x :
  existsb f l = false -> x ∈ l -> f x = false.
Proof.
  intros He Hin. destruct (f x) eqn:Ef; [|reflexivity].
  assert (H : existsb f l = true).
  { apply existsb_exists. exists x. split; [apply list_elem_of_In; exact Hin|exact Ef]. }
  congruence.
Qed.

Lemma closed_unfired_store : closed unfired_store.
Proof.
  intros j l Hin. destruct j as [|[|j]]; cbn in Hin; apply elem_of_nil in Hin; contradiction.
Qed.

(** X10.  [mergeAbortSignals] on sources of a closed store, none of which
    has fired, followed by the abort of one of the sources with any reason:
    the source records the reason, the composed signal fires with the
    default reason and not with the reason of the source, and [onAbort] is
    registered on no source afterwards, whatever the other listeners of the
    store do during the dispatch. *)
Theorem X_mergeAbortSignals_fires (st : Store) (t : nat) (u : option nat)
    (src : nat) (r : option JsValue) :
  closed st ->
  (t < length st)%nat ->
  (forall u', u = Some u' -> (u' < length st)%nat) ->
  existsb (signal_aborted st) (t :: option_list u) = false ->
  src ∈ t :: option_list u ->
  signal_reason (AbortController_abort (Client.mergeAbortSignals t u st).2 src r) src
    = Some (default defaultAbortReason r)
  /\ signal_aborted (AbortController_abort (Client.mergeAbortSignals t u st).2 src r)
       (length st) = true
  /\ signal_reason (AbortController_abort (Client.mergeAbortSignals t u st).2 src r)
       (length st) = Some defaultAbortReason
  /\ forall s', s' ∈ t :: option_list u ->
       OnAbort (length st) false
         ∉ signal_listeners
             (AbortController_abort (Client.mergeAbortSignals t u st).2 src r) s'.
Proof.
  intros Hc Ht Hu Hex Hsrc.
  destruct (mergeAbortSignals_state_aux st t u Ht Hu) as (_ & Hlen & Hpre & Ha & _ & Hl & Hlm).
  rewrite mergeAbortSignals_fst in Ha, Hl, Hlm. rewrite Hex in Ha.
  set (st' := (Client.mergeAbortSignals t u st).2) in *.
  assert (Hv : (src < length st)%nat).
  { apply elem_of_cons in Hsrc as [->|Hsrc]; [exact Ht|].
    destruct u as [u'|]; [|apply elem_of_nil in Hsrc; contradiction].
    apply list_elem_of_singleton in Hsrc as ->. apply Hu. reflexivity. }
  assert (Hf : signal_aborted st src = false) by (eapply existsb_false_elem; eassumption).
  assert (Hf' : signal_aborted st' src = false) by (rewrite (proj1 (Hpre src Hv)); exact Hf).
  assert (Hlk : linked (length st) false (t :: option_list u) src st').
  { right. split; [exact Ha|]. split.
    - rewrite Hlm. apply list_elem_of_singleton. reflexivity.
    - apply Hl; assumption. }
  assert (Hh : cleanup_at_home (length st) st').
  { intros j f srcs Hin. apply mergeAbortSignals_bound in Hin as [Hin|[[Hin _]|[_ Hin]]].
    - destruct (closed_fresh st j _ f Hc Hin) as [_ H]. destruct (H srcs). reflexivity.
    - discriminate.
    - exact Hin. }
  assert (Ho : onAbort_at_sources (length st) false (t :: option_list u) st').
  { intros j f Hin. apply mergeAbortSignals_bound in Hin as [Hin|[[Hin Hj]|[Hin _]]].
    - destruct (closed_fresh st j _ f Hc Hin) as [H _]. destruct H. reflexivity.
    - injection Hin as ->. split; [reflexivity|exact Hj].
    - discriminate. }
  unfold AbortController_abort. rewrite Hlen.
  pose proof (unfired_le_length st') as Hun.
  destruct (abort_source_fires (length st) false (t :: option_list u) src ltac:(lia)
              (length st) st' r) as [Hm Hd]; try assumption; try lia.
  split; [apply abort_reason; [lia|exact Hf']|].
  split; [exact Hm|]. split; [|exact Hd].
  apply (abort_keeps_default_reason (length st) (t :: option_list u)); try assumption.
  - left. lia.
  - intros H. congruence.
Qed.

Lemma X_mergeAbortSignals_fires_witness :
  (closed unfired_store
   /\ (0 < length unfired_store)%nat
   /\ (forall u', Some 1%nat = Some u' -> (u' < length unfired_store)%nat)
   /\ existsb (signal_aborted unfired_store) [0%nat; 1%nat] = false
   /\ 1%nat ∈ [0%nat; 1%nat])
  /\ signal_reason
       (AbortController_abort (Client.mergeAbortSignals 0 (Some 1%nat) unfired_store).2 1
          (Some (JsString "stop"))) 1
     = Some (JsString "stop")
  /\ signal_aborted
       (AbortController_abort (Client.mergeAbortSignals 0 (Some 1%nat) unfired_store).2 1
          (Some (JsString "stop"))) 2 = true
  /\ signal_reason
       (AbortController_abort (Client.mergeAbortSignals 0 (Some 1%nat) unfired_store).2 1
          (Some (JsString "stop"))) 2
     = Some defaultAbortReason
  /\ forall s', s' ∈ [0%nat; 1%nat] ->
       OnAbort 2 false
         ∉ signal_listeners
             (AbortController_abort (Client.mergeAbortSignals 0 (Some 1%nat) unfired_store).2 1
                (Some (JsString "stop"))) s'.
Proof.
  assert (H0 : (0 < length unfired_store)%nat) by (cbn; lia).
  assert (H1 : forall u', Some 1%nat = Some u' -> (u' < length unfired_store)%nat)
    by (intros u' [= <-]; cbn; lia).
  assert (H2 : 1%nat ∈ [0%nat; 1%nat])
    by (apply elem_of_cons; right; apply elem_of_cons; left; reflexivity).
  split; [repeat split; [exact closed_unfired_store|exact H0|exact H1|exact H2]|].
  exact (X_mergeAbortSignals_fires unfired_store 0 (Some 1%nat) 1 (Some (JsString "stop"))
           closed_unfired_store H0 H1 eq_refl H2).
Defined.

(** X13.  [mergeSignals] on sources of a closed store, none of which has
    fired, followed by the abort of one of the sources with any reason: the
    source records the reason, the composed signal fires with the reason of
    a source that has fired, which is the reason given when no other source
    fired during the dispatch, and [onAbort] is registered on no source
    afterwards. *)
Theorem X_mergeSignals_fires (st : Store) (sources : list nat)
    (src : nat) (r : option JsValue) :
  closed st ->
  Forall (fun j => (j < length st)%nat) sources ->
  find (signal_aborted st) sources = None ->
  src ∈ sources ->
  signal_reason (AbortController_abort (Legacy.mergeSignals sources st).2 src r) src
    = Some (default defaultAbortReason r)
  /\ signal_aborted (AbortController_abort (Legacy.mergeSignals sources st).2 src r)
       (length st) = true
  /\ (exists s',
        s' ∈ sources
        /\ signal_aborted (AbortController_abort (Legacy.mergeSignals sources st).2 src r) s'
           = true
        /\ signal_reason (AbortController_abort (Legacy.mergeSignals sources st).2 src r)
             (length st)
           = signal_reason (AbortController_abort (Legacy.mergeSignals sources st).2 src r) s')
  /\ ((forall s', s' ∈ sources -> s' <> src ->
         signal_aborted (AbortController_abort (Legacy.mergeSignals sources st).2 src r) s'
         = false) ->
      signal_reason (AbortController_abort (Legacy.mergeSignals sources st).2 src r)
        (length st) = Some (default defaultAbortReason r))
  /\ forall s', s' ∈ sources ->
       OnAbort (length st) true
         ∉ signal_listeners (AbortController_abort (Legacy.mergeSignals sources st).2 src r) s'.
Proof.
  intros Hc Hv Hfind Hsrc.
  pose proof (mergeSignals_state_aux st sources Hv) as (_ & Hlen & Hpre & Hcase).
  rewrite Hfind in Hcase. destruct Hcase as (Ha & _ & Hl & Hlm).
  change (Legacy.mergeSignals sources st).1 with (length st) in Ha, Hl, Hlm.
  set (st' := (Legacy.mergeSignals sources st).2) in *.
  assert (Hsv : (src < length st)%nat).
  { rewrite Forall_forall in Hv. apply Hv. exact Hsrc. }
  assert (Hf : signal_aborted st src = false).
  { apply (find_none _ _ Hfind). apply list_elem_of_In. exact Hsrc. }
  assert (Hf' : signal_aborted st' src = false) by (rewrite (proj1 (Hpre src Hsv)); exact Hf).
  assert (Hlk : linked (length st) true sources src st').
  { right. split; [exact Ha|]. split.
    - rewrite Hlm. apply list_elem_of_singleton. reflexivity.
    - apply Hl; assumption. }
  assert (Hh : cleanup_at_home (length st) st').
  { intros j f srcs Hin. apply mergeSignals_bound in Hin as [Hin|[[Hin _]|[_ Hin]]].
    - destruct (closed_fresh st j _ f Hc Hin) as [_ H]. destruct (H srcs). reflexivity.
    - discriminate.
    - exact Hin. }
  assert (Ho : onAbort_at_sources (length st) true sources st').
  { intros j f Hin. apply mergeSignals_bound in Hin as [Hin|[[Hin Hj]|[Hin _]]].
    - destruct (closed_fresh st j _ f Hc Hin) as [H _]. destruct H. reflexivity.
    - injection Hin as ->. split; [reflexivity|exact Hj].
    - discriminate. }
  unfold AbortController_abort. rewrite Hlen.
  pose proof (unfired_le_length st') as Hun.
  destruct (abort_source_fires (length st) true sources src ltac:(lia)
              (length st) st' r) as [Hm Hd]; try assumption; try lia.
  assert (Hrs : signal_reason (abort (S (S (length st))) st' src r) src
                = Some (default defaultAbortReason r))
    by (apply abort_reason; [lia|exact Hf']).
  assert (Hex : exists s',
    s' ∈ sources
    /\ signal_aborted (abort (S (S (length st))) st' src r) s' = true
    /\ signal_reason (abort (S (S (length st))) st' src r) (length st)
       = signal_reason (abort (S (S (length st))) st' src r) s').
  { apply (abort_keeps_forwarded_reason (length st) sources); try assumption; try lia.
    intros H. congruence. }
  split; [exact Hrs|]. split; [exact Hm|]. split; [exact Hex|]. split; [|exact Hd].
  intros Honly. destruct Hex as (s' & Hs' & Hfs & Hrm).
  destruct (decide (s' = src)) as [->|Hne]; [congruence|].
  rewrite (Honly s' Hs' Hne) in Hfs. discriminate.
Qed.

Lemma X_mergeSignals_fires_witness :
  (closed unfired_store
   /\ Forall (fun j => (j < length unfired_store)%nat) [0%nat; 1%nat]
   /\ find (signal_aborted unfired_store) [0%nat; 1%nat] = None
   /\ 1%nat ∈ [0%nat; 1%nat])
  /\ signal_aborted
       (AbortController_abort (Legacy.mergeSignals [0%nat; 1%nat] unfired_store).2 1
          (Some (JsString "stop"))) 2 = true
  /\ exists s',
       s' ∈ [0%nat; 1%nat]
       /\ signal_aborted
            (AbortController_abort (Legacy.mergeSignals [0%nat; 1%nat] unfired_store).2 1
               (Some (JsString "stop"))) s' = true
       /\ signal_reason
            (AbortController_abort (Legacy.mergeSignals [0%nat; 1%nat] unfired_store).2 1
               (Some (JsString "stop"))) 2
          = signal_reason
              (AbortController_abort (Legacy.mergeSignals [0%nat; 1%nat] unfired_store).2 1
                 (Some (JsString "stop"))) s'.
Proof.
  assert (H0 : Forall (fun j => (j < length unfired_store)%nat) [0%nat; 1%nat])
    by (repeat constructor).
  assert (H2 : 1%nat ∈ [0%nat; 1%nat])
    by (apply elem_of_cons; right; apply elem_of_cons; left; reflexivity).
  split; [repeat split; [exact closed_unfired_store|exact H0|exact H2]|].
  destruct (X_mergeSignals_fires unfired_store [0%nat; 1%nat] 1 (Some (JsString "stop"))
              closed_unfired_store H0 eq_refl H2) as (_ & Hm & Hex & _).
  split; [exact Hm|exact Hex].
Defined.

(** ** [param] and [params] *)

Lemma getAll_append p k v name :
  Fluent.URLSearchParams_getAll (Fluent.URLSearchParams_append p k v) name
  = (Fluent.URLSearchParams_getAll p name ++ (if String.eqb k name then [v] else []))%list.
Proof.
  unfold Fluent.URLSearchParams_getAll, Fluent.URLSearchParams_append.
  rewrite List.filter_app, map_app. cbn. destruct (String.eqb k name); reflexivity.
Qed.

Lemma getAll_filter_other p k name :
  String.eqb k name = false ->
  Fluent.URLSearchParams_getAll (List.filter (fun e => negb (String.eqb e.1 k)) p) name
  = Fluent.URLSearchParams_getAll p name.
Proof.
  intros Hne. unfold Fluent.URLSearchParams_getAll. f_equal.
  induction p as [|[n v] p IH]; [reflexivity|]. cbn.
  destruct (String.eqb n k) eqn:Enk; cbn.
  - apply String.eqb_eq in Enk as ->. rewrite Hne. exact IH.
  - destruct (String.eqb n name); [f_equal|]; exact IH.
Qed.

Lemma getAll_filter_same p k :
  Fluent.URLSearchParams_getAll (List.filter (fun e => negb (String.eqb e.1 k)) p) k = [].
Proof.
  unfold Fluent.URLSearchParams_getAll.
  induction p as [|[n v] p IH]; [reflexivity|]. cbn.
  destruct (String.eqb n k) eqn:Enk; cbn; [exact IH|]. rewrite Enk. exact IH.
Qed.

Lemma getAll_set p k v name :
  Fluent.URLSearchParams_getAll (Fluent.URLSearchParams_set p k v) name
  = if String.eqb k name then [v] else Fluent.URLSearchParams_getAll p name.
Proof.
  pose proof (getAll_filter_same p) as Hsame.
  pose proof (getAll_filter_other p) as Hother.
  unfold Fluent.URLSearchParams_getAll in *.
  induction p as [|[n v0] p IH]; cbn [Fluent.URLSearchParams_set].
  - cbn. destruct (String.eqb k name); reflexivity.
  - destruct (String.eqb n k) eqn:Enk.
    + apply String.eqb_eq in Enk as ->. cbn [List.filter fst].
      destruct (String.eqb k name) eqn:Ek.
      * apply String.eqb_eq in Ek as ->. cbn [map snd]. f_equal.
        apply (getAll_filter_same p name).
      * apply (getAll_filter_other p k name Ek).
    + cbn [List.filter fst].
      assert (IH' : map snd (List.filter (fun e => String.eqb e.1 name)
                               (Fluent.URLSearchParams_set p k v))
                    = if String.eqb k name then [v]
                      else map snd (List.filter (fun e => String.eqb e.1 name) p)).
      { apply IH.
        - intros k0. apply (getAll_filter_same p k0).
        - intros k0 name0. apply (getAll_filter_other p k0 name0). }
      destruct (String.eqb n name) eqn:En.
      * apply String.eqb_eq in En as ->. rewrite String.eqb_sym, Enk in IH'.
        rewrite String.eqb_sym, Enk. cbn [map snd]. f_equal. exact IH'.
      * exact IH'.
Qed.

Lemma params_of_entries_params p values append :
  Fluent.params_of_entries p values append
  = Fluent.params p (map (fun e => (e.1, Fluent.String_of_scalar e.2)) values) append.
Proof.
  unfold Fluent.params_of_entries, Fluent.params. revert p.
  induction values as [|[k v] values IH]; intros p; [reflexivity|].
  cbn [fold_left map fst snd]. rewrite IH. reflexivity.
Qed.

Lemma last_cons_nonempty {A} (x : A) (l : list A) (y : A) :
  last l = Some y -> last (x :: l) = Some y.
Proof. destruct l as [|z l]; [discriminate|]. intros H. exact H. Qed.

Lemma last_None_nil {A} (l : list A) : last l = None -> l = [].
Proof.
  induction l as [|x l IH]; [reflexivity|]. destruct l as [|z l]; [discriminate|].
  intros H. specialize (IH H). discriminate.
Qed.

Lemma params_getAll init : forall p append name,
  Fluent.URLSearchParams_getAll (Fluent.params p init append) name
  = if Fluent.truthy append
    then (Fluent.URLSearchParams_getAll p name ++ Fluent.URLSearchParams_getAll init name)%list
    else match last_value init name with
         | Some v => [v]
         | None => Fluent.URLSearchParams_getAll p name
         end.
Proof.
  induction init as [|[k v] init IH]; intros p append name.
  - cbn. destruct (Fluent.truthy append); [rewrite app_nil_r|]; reflexivity.
  - change (Fluent.params p ((k, v) :: init) append)
      with (Fluent.params (Fluent.param p k (Fluent.ScalarString v) append) init append).
    rewrite IH. unfold Fluent.param. cbn [Fluent.String_of_scalar].
    destruct (Fluent.truthy append).
    + rewrite getAll_append, <- app_assoc. f_equal.
      unfold Fluent.URLSearchParams_getAll. cbn [List.filter fst].
      destruct (String.eqb k name); reflexivity.
    + rewrite getAll_set. unfold last_value, Fluent.URLSearchParams_getAll.
      cbn [List.filter fst].
      set (l := map snd (List.filter (fun e => String.eqb e.1 name) init)).
      destruct (String.eqb k name); [|reflexivity].
      cbn [map snd]. fold l.
      destruct (last l) as [y|] eqn:El.
      * rewrite (last_cons_nonempty v l y El). reflexivity.
      * apply last_None_nil in El. rewrite El. reflexivity.
Qed.

(** X20.  [params] calls [param] for every pair of [init] in order.  With
    [append] the values of a name are those the URL had followed by those of
    [init]; without it, a name that [init] gives one or more values is left
    with the last of them alone, and the other names keep their values.  The
    [params] of the result-returning variant is [params] on the stringified
    entries. *)
Theorem X_params_last_wins (p init : Fluent.URLSearchParams)
    (values : list (string * Fluent.Scalar)) (append : option bool) (name : string) :
  Fluent.URLSearchParams_getAll (Fluent.params p init append) name
  = (if Fluent.truthy append
     then (Fluent.URLSearchParams_getAll p name ++ Fluent.URLSearchParams_getAll init name)%list
     else match last_value init name with
          | Some v => [v]
          | None => Fluent.URLSearchParams_getAll p name
          end)
  /\ Fluent.params_of_entries p values append
     = Fluent.params p (map (fun e => (e.1, Fluent.String_of_scalar e.2)) values) append.
Proof. split; [apply params_getAll|apply params_of_entries_params]. Qed.

Example params_example :
  Fluent.params [("page", "1"); ("q", "x"); ("page", "2")] [("page", "3"); ("page", "4")] None
  = [("page", "4"); ("q", "x")]
  /\ Fluent.params [("page", "1")] [("page", "3"); ("page", "4")] (Some true)
     = [("page", "1"); ("page", "3"); ("page", "4")].
Proof. split; reflexivity. Qed.


(** ** [Headers] *)

Lemma same_name_refl a : Fluent.same_name a a = true.
Proof. unfold Fluent.same_name. apply String.eqb_refl. Qed.

Lemma same_name_sym a b : Fluent.same_name a b = Fluent.same_name b a.
Proof. unfold Fluent.same_name. apply String.eqb_sym. Qed.

Lemma same_name_trans a b c :
  Fluent.same_name a b = true -> Fluent.same_name a c = Fluent.same_name b c.
Proof. unfold Fluent.same_name. intros H. apply String.eqb_eq in H. rewrite H. reflexivity. Qed.

Lemma header_values_filter_same h k name :
  Fluent.same_name k name = true ->
  header_values (List.filter (fun e => negb (Fluent.same_name e.1 k)) h) name = [].
Proof.
  intros Hk. unfold header_values.
  induction h as [|[n v] h IH]; [reflexivity|]. cbn [List.filter fst].
  destruct (Fluent.same_name n k) eqn:En; cbn [negb]; [exact IH|].
  cbn [List.filter fst].
  assert (Hnn : Fluent.same_name n name = false)
    by (rewrite same_name_sym, <- (same_name_trans k name n Hk), same_name_sym; exact En).
  rewrite Hnn. exact IH.
Qed.

Lemma header_values_filter_other h k name :
  Fluent.same_name k name = false ->
  header_values (List.filter (fun e => negb (Fluent.same_name e.1 k)) h) name
  = header_values h name.
Proof.
  intros Hk. unfold header_values.
  induction h as [|[n v] h IH]; [reflexivity|]. cbn [List.filter fst].
  destruct (Fluent.same_name n k) eqn:En; cbn [negb].
  - rewrite (same_name_trans n k name En), Hk. exact IH.
  - cbn [List.filter fst]. destruct (Fluent.same_name n name); [cbn [map]; f_equal|]; exact IH.
Qed.

Lemma header_values_cons n v h name :
  header_values ((n, v) :: h) name
  = if Fluent.same_name n name then v :: header_values h name else header_values h name.
Proof.
  unfold header_values. cbn [List.filter fst].
  destruct (Fluent.same_name n name); reflexivity.
Qed.

Lemma header_values_set h k v name :
  header_values (Fluent.header_list_set h k v) name
  = if Fluent.same_name k name then [v] else header_values h name.
Proof.
  induction h as [|[n v0] h IH]; cbn [Fluent.header_list_set].
  - rewrite header_values_cons. reflexivity.
  - destruct (Fluent.same_name n k) eqn:En; rewrite !header_values_cons.
    + rewrite <- (same_name_trans n k name En).
      destruct (Fluent.same_name n name) eqn:Enn.
      * f_equal. apply header_values_filter_same.
        rewrite <- (same_name_trans n k name En). exact Enn.
      * apply header_values_filter_other.
        rewrite <- (same_name_trans n k name En). exact Enn.
    + rewrite IH. destruct (Fluent.same_name n name) eqn:Enn; [|reflexivity].
      assert (Hkn : Fluent.same_name k name = false)
        by (rewrite same_name_sym, <- (same_name_trans n name k Enn); exact En).
      rewrite Hkn. reflexivity.
Qed.

Lemma contains_values h name :
  Fluent.contains h name = match header_values h name with [] => false | _ => true end.
Proof.
  unfold Fluent.contains, header_values.
  induction h as [|[n v] h IH]; [reflexivity|]. cbn [existsb List.filter fst].
  destruct (Fluent.same_name n name); [reflexivity|exact IH].
Qed.

Lemma contains_set h k v name :
  Fluent.contains (Fluent.header_list_set h k v) name
  = Fluent.same_name k name || Fluent.contains h name.
Proof.
  rewrite !contains_values, header_values_set.
  destruct (Fluent.same_name k name); reflexivity.
Qed.

Lemma Headers_get_values h name :
  Fluent.isHeaderName name = true ->
  Fluent.Headers_get h name
  = Some (match header_values h name with
          | [] => None
          | vs => Some (JS.join ", " vs)
          end).
Proof.
  intros Hn. unfold Fluent.Headers_get. rewrite Hn, contains_values.
  fold (header_values h name). destruct (header_values h name); reflexivity.
Qed.

(** ** Values that are always valid *)

Lemma stripTrailing_id s :
  Fluent.all_chars (fun c => negb (Fluent.isHttpWhitespace c)) s = true ->
  Fluent.stripTrailing s = s.
Proof.
  induction s as [|c s IH]; [reflexivity|]. cbn [Fluent.all_chars Fluent.stripTrailing].
  intros H. apply andb_true_iff in H as [Hc Hs]. rewrite (IH Hs).
  destruct s; [|reflexivity]. apply negb_true_iff in Hc. rewrite Hc. reflexivity.
Qed.

Lemma stripLeading_id s :
  Fluent.all_chars (fun c => negb (Fluent.isHttpWhitespace c)) s = true ->
  Fluent.stripLeading s = s.
Proof.
  destruct s as [|c s]; [reflexivity|]. cbn [Fluent.all_chars Fluent.stripLeading].
  intros H. apply andb_true_iff in H as [Hc Hs]. apply negb_true_iff in Hc.
  rewrite Hc. reflexivity.
Qed.

Lemma all_chars_impl (f g : ascii -> bool) s :
  (forall c, f c = true -> g c = true) ->
  Fluent.all_chars f s = true -> Fluent.all_chars g s = true.
Proof.
  intros Hfg. induction s as [|c s IH]; [reflexivity|]. cbn [Fluent.all_chars].
  intros H. apply andb_true_iff in H as [Hc Hs]. rewrite (Hfg c Hc), (IH Hs). reflexivity.
Qed.

Lemma all_chars_app (f : ascii -> bool) s1 s2 :
  Fluent.all_chars f (s1 ++ s2) = Fluent.all_chars f s1 && Fluent.all_chars f s2.
Proof.
  induction s1 as [|c s1 IH]; [reflexivity|].
  rewrite append_cons. cbn [Fluent.all_chars]. rewrite IH, andb_assoc. reflexivity.
Qed.

(** The characters of a stringified integer: the digits and the sign. *)
Lemma all_chars_uint (f : ascii -> bool) d :
  Forall (fun c => f c = true) ["0"; "1"; "2"; "3"; "4"; "5"; "6"; "7"; "8"; "9"]%char ->
  Fluent.all_chars f (NilEmpty.string_of_uint d) = true.
Proof.
  intros Hf. repeat (apply Forall_cons in Hf as [? Hf]).
  induction d; cbn [NilEmpty.string_of_uint Fluent.all_chars]; rewrite ?IHd;
    try reflexivity; rewrite andb_true_r; assumption.
Qed.

Lemma all_chars_String_of (f : ascii -> bool) n :
  Forall (fun c => f c = true) ["-"; "0"; "1"; "2"; "3"; "4"; "5"; "6"; "7"; "8"; "9"]%char ->
  Fluent.all_chars f (JS.String_of n) = true.
Proof.
  intros Hf. apply Forall_cons in Hf as [Hminus Hf].
  pose proof (all_chars_uint f) as Hd.
  assert (H0 : f "0"%char = true) by (apply Forall_cons in Hf as [? _]; assumption).
  unfold JS.String_of, NilZero.string_of_int, NilZero.string_of_uint.
  destruct (Z.to_int n) as [d|d]; destruct d; cbn [Fluent.all_chars];
    rewrite ?Hminus, ?H0; try reflexivity;
    match goal with
    | |- context [NilEmpty.string_of_uint ?d] =>
        pose proof (Hd d Hf) as H; cbn [NilEmpty.string_of_uint Fluent.all_chars] in H
    end; try exact H.
Qed.


Lemma number_value n :
  Fluent.normalize (JS.String_of n) = JS.String_of n
  /\ Fluent.isHeaderValue (JS.String_of n) = true.
Proof.
  split.
  - unfold Fluent.normalize.
    assert (H : Fluent.all_chars (fun c => negb (Fluent.isHttpWhitespace c)) (JS.String_of n)
                = true)
      by (apply all_chars_String_of; repeat constructor).
    rewrite (stripTrailing_id _ H). apply stripLeading_id. exact H.
  - unfold Fluent.isHeaderValue. apply all_chars_String_of. repeat constructor.
Qed.

Lemma Headers_set_valid h name value :
  Fluent.isHeaderName name = true ->
  Fluent.isHeaderValue (Fluent.normalize value) = true ->
  Fluent.Headers_set h name value
  = Some (Fluent.header_list_set h name (Fluent.normalize value)).
Proof. intros Hn Hv. unfold Fluent.Headers_set. rewrite Hn, Hv. reflexivity. Qed.

Lemma Headers_set_number h name n :
  Fluent.isHeaderName name = true ->
  Fluent.Headers_set h name (JS.String_of n)
  = Some (Fluent.header_list_set h name (JS.String_of n)).
Proof.
  intros Hn. destruct (number_value n) as [H1 H2].
  rewrite Headers_set_valid; rewrite ?H1; auto.
Qed.

(** ** [body] *)

Lemma utf8_length_bounds s :
  JS.strlen s <= utf8_length s
  /\ (JS.strlen s = utf8_length s <-> Fluent.all_chars isAscii s = true).
Proof.
  unfold JS.strlen. induction s as [|c s [IH1 IH2]]; [cbn; split; [lia|tauto]|].
  cbn [String.length utf8_length Fluent.all_chars]. unfold isAscii at 1.
  rewrite Nat2Z.inj_succ. destruct (N_of_ascii c <? 128)%N; cbn [andb].
  - split; [lia|]. rewrite <- IH2. lia.
  - split; [lia|]. split; [lia|discriminate].
Qed.

(** The headers [body] leaves for a string, or for a value sent as JSON
    text. *)
Lemma body_text_headers (h : Fluent.Headers) (text default_type : string) :
  Fluent.isHeaderValue (Fluent.normalize default_type) = true ->
  exists h',
    (h1 ← Fluent.Headers_set h "content-length" (JS.String_of (JS.strlen text));
     has ← Fluent.Headers_has h1 "content-type";
     (if negb has then Fluent.Headers_set h1 "content-type" default_type else Some h1))
    = Some h'
    /\ header_values h' "content-length" = [JS.String_of (JS.strlen text)]
    /\ header_values h' "content-type"
       = match header_values h "content-type" with
         | [] => [Fluent.normalize default_type]
         | vs => vs
         end
    /\ forall name, Fluent.contains h name = true -> Fluent.contains h' name = true.
Proof.
  intros Hd. rewrite Headers_set_number by reflexivity. cbn [mbind option_bind].
  unfold Fluent.Headers_has. cbn [Fluent.isHeaderName]. 
  change (Fluent.isHeaderName "content-type") with true. cbv iota. cbn [mbind option_bind].
  rewrite contains_set. change (Fluent.same_name "content-length" "content-type") with false.
  cbn [orb]. rewrite contains_values.
  destruct (header_values h "content-type") as [|v vs] eqn:Ev; cbn [negb].
  - rewrite Headers_set_valid by (try reflexivity; exact Hd). eexists. split; [reflexivity|].
    rewrite !header_values_set.
    change (Fluent.same_name "content-type" "content-length") with false.
    change (Fluent.same_name "content-length" "content-length") with true.
    change (Fluent.same_name "content-type" "content-type") with true.
    change (Fluent.same_name "content-length" "content-type") with false.
    cbv iota. repeat split.
    intros name Hc. rewrite !contains_set, Hc, !orb_true_r. reflexivity.
  - eexists. split; [reflexivity|]. rewrite !header_values_set.
    change (Fluent.same_name "content-length" "content-length") with true.
    change (Fluent.same_name "content-length" "content-type") with false.
    cbv iota. rewrite Ev. repeat split.
    intros name Hc. rewrite !contains_set, Hc, !orb_true_r. reflexivity.
Qed.

Lemma body_text (b : Fluent.Builder) (text : string) (json : bool) :
  exists b',
    Fluent.body b (if json then Fluent.JSONValue text else Fluent.StringValue text) = Some b'
    /\ Fluent.b_body b' = Some (Fluent.StringValue text)
    /\ header_values (Fluent.b_headers b') "content-length" = [JS.String_of (JS.strlen text)]
    /\ header_values (Fluent.b_headers b') "content-type"
       = match header_values (Fluent.b_headers b) "content-type" with
         | [] => [if json then "application/json;charset=utf-8"
                  else "text/plain;charset=utf-8"]
         | vs => vs
         end
    /\ forall name,
         Fluent.contains (Fluent.b_headers b) name = true ->
         Fluent.contains (Fluent.b_headers b') name = true.
Proof.
  destruct json.
  - destruct (body_text_headers (Fluent.b_headers b) text "application/json;charset=utf-8"
                eq_refl) as (h' & Hh & H1 & H2 & H3).
    exists (Fluent.mkBuilder (Some (Fluent.StringValue text)) h').
    split; [|repeat split; assumption].
    unfold Fluent.body.
    destruct (Fluent.Headers_set _ "content-length" _) as [h1|]; [|discriminate].
    cbn [mbind option_bind] in *.
    destruct (Fluent.Headers_has h1 "content-type") as [has|]; [|discriminate].
    cbn [mbind option_bind] in *. rewrite Hh. reflexivity.
  - destruct (body_text_headers (Fluent.b_headers b) text "text/plain;charset=utf-8"
                eq_refl) as (h' & Hh & H1 & H2 & H3).
    exists (Fluent.mkBuilder (Some (Fluent.StringValue text)) h').
    split; [|repeat split; assumption].
    unfold Fluent.body.
    destruct (Fluent.Headers_set _ "content-length" _) as [h1|]; [|discriminate].
    cbn [mbind option_bind] in *.
    destruct (Fluent.Headers_has h1 "content-type") as [has|]; [|discriminate].
    cbn [mbind option_bind] in *. rewrite Hh. reflexivity.
Qed.


(** X21.  [body] on a string never throws.  On a value sent as JSON it
    throws when [JSON.stringify] throws or returns [undefined]; when
    [JSON.stringify] returns a text, [body] does not throw and treats the
    text as it treats a string.  It stores the text, sets [content-length]
    to the number of code units of the text, and keeps the content type the
    headers have, set in any letter case; without one it sets the default of
    the kind of body.  The number of code units is at most the number of
    bytes of the UTF-8 encoding of the text, and equal to it exactly when
    the text is ASCII. *)
Theorem X_body_text (b : Fluent.Builder) (text : string) (json : bool) (e : JsValue) :
  (exists b',
     Fluent.body b (if json then Fluent.JSONValue text else Fluent.StringValue text) = Some b'
     /\ Fluent.b_body b' = Some (Fluent.StringValue text)
     /\ Fluent.Headers_get (Fluent.b_headers b') "content-length"
        = Some (Some (JS.String_of (JS.strlen text)))
     /\ Fluent.Headers_get (Fluent.b_headers b') "content-type"
        = Some (Some (match header_values (Fluent.b_headers b) "content-type" with
                      | [] => if json then "application/json;charset=utf-8"
                              else "text/plain;charset=utf-8"
                      | vs => JS.join ", " vs
                      end))
     /\ JS.strlen text <= utf8_length text
     /\ (JS.strlen text = utf8_length text <-> Fluent.all_chars isAscii text = true))
  /\ Fluent.body b (Fluent.UnserializableValue e) = None
  /\ Fluent.body b Fluent.UndefinedValue = None.
Proof.
  split; [|split; reflexivity].
  destruct (body_text b text json) as (b' & Hb & Hbody & Hcl & Hct & _).
  exists b'. split; [exact Hb|]. split; [exact Hbody|].
  rewrite !Headers_get_values by reflexivity. rewrite Hcl, Hct.
  split; [reflexivity|]. split; [|apply utf8_length_bounds].
  destruct (header_values (Fluent.b_headers b) "content-type"); reflexivity.
Qed.

Lemma isTchar_toLower c : Fluent.isTchar (Fluent.toLower c) = Fluent.isTchar c.
Proof.
  destruct c as [[] [] [] [] [] [] [] []]; reflexivity.
Qed.

Lemma isHeaderName_lower s :
  Fluent.isHeaderName (Fluent.byteLowercase s) = Fluent.isHeaderName s.
Proof.
  unfold Fluent.isHeaderName. f_equal.
  - destruct s; reflexivity.
  - induction s as [|c s IH]; [reflexivity|].
    cbn [Fluent.byteLowercase Fluent.all_chars]. rewrite isTchar_toLower, IH. reflexivity.
Qed.

Lemma same_name_isHeaderName a b :
  Fluent.same_name a b = true -> Fluent.isHeaderName a = Fluent.isHeaderName b.
Proof.
  unfold Fluent.same_name. intros H. apply String.eqb_eq in H.
  rewrite <- (isHeaderName_lower a), <- (isHeaderName_lower b), H. reflexivity.
Qed.

(** X22.  A content type set with [header], in any letter case and
    without [append], and a text body set with [body]: both calls succeed in
    either order, and in either order [content-type] reads as the normalized
    value given to [header] and [content-length] as the number of code units
    of the text. *)
Theorem X_content_type_order (b : Fluent.Builder) (key x text : string) (json : bool) :
  Fluent.same_name key "content-type" = true ->
  Fluent.isHeaderValue (Fluent.normalize x) = true ->
  exists b1 b2 b3 b4,
    Fluent.header b key (Fluent.ScalarString x) None = Some b1
    /\ Fluent.body b1 (if json then Fluent.JSONValue text else Fluent.StringValue text)
       = Some b2
    /\ Fluent.body b (if json then Fluent.JSONValue text else Fluent.StringValue text)
       = Some b3
    /\ Fluent.header b3 key (Fluent.ScalarString x) None = Some b4
    /\ Fluent.Headers_get (Fluent.b_headers b2) "content-type"
       = Some (Some (Fluent.normalize x))
    /\ Fluent.Headers_get (Fluent.b_headers b4) "content-type"
       = Some (Some (Fluent.normalize x))
    /\ Fluent.Headers_get (Fluent.b_headers b2) "content-length"
       = Some (Some (JS.String_of (JS.strlen text)))
    /\ Fluent.Headers_get (Fluent.b_headers b4) "content-length"
       = Some (Some (JS.String_of (JS.strlen text))).
Proof.
  intros Hk Hx.
  assert (Hn : Fluent.isHeaderName key = true)
    by (rewrite (same_name_isHeaderName key "content-type" Hk); reflexivity).
  assert (Hkl : Fluent.same_name key "content-length" = false).
  { rewrite (same_name_trans key "content-type" "content-length" Hk). reflexivity. }
  assert (Hh : forall b0, Fluent.header b0 key (Fluent.ScalarString x) None
                 = Some (Fluent.mkBuilder (Fluent.b_body b0)
                           (Fluent.header_list_set (Fluent.b_headers b0) key
                              (Fluent.normalize x)))).
  { intros b0. unfold Fluent.header. cbn [Fluent.truthy default Fluent.String_of_scalar].
    rewrite Headers_set_valid by assumption. reflexivity. }
  eexists. destruct (body_text (Fluent.mkBuilder (Fluent.b_body b)
                       (Fluent.header_list_set (Fluent.b_headers b) key (Fluent.normalize x)))
                       text json) as (b2 & Hb2 & _ & Hcl2 & Hct2 & _).
  destruct (body_text b text json) as (b3 & Hb3 & _ & Hcl3 & _).
  exists b2, b3. eexists.
  split; [apply Hh|]. split; [exact Hb2|]. split; [exact Hb3|]. split; [apply Hh|].
  rewrite !Headers_get_values by reflexivity. cbn [Fluent.b_headers] in *.
  rewrite header_values_set, Hk in Hct2. rewrite Hct2, Hcl2.
  rewrite !header_values_set, Hk, Hkl, Hcl3. repeat split.
Qed.

Lemma X_content_type_order_witness :
  (Fluent.same_name "Content-Type" "content-type" = true
   /\ Fluent.isHeaderValue (Fluent.normalize " application/xml ") = true)
  /\ exists b1 b2 b3 b4,
       Fluent.header (Fluent.mkBuilder None []) "Content-Type"
         (Fluent.ScalarString " application/xml ") None = Some b1
       /\ Fluent.body b1 (Fluent.StringValue "<a/>") = Some b2
       /\ Fluent.body (Fluent.mkBuilder None []) (Fluent.StringValue "<a/>") = Some b3
       /\ Fluent.header b3 "Content-Type" (Fluent.ScalarString " application/xml ") None
          = Some b4
       /\ Fluent.Headers_get (Fluent.b_headers b2) "content-type"
          = Some (Some (Fluent.normalize " application/xml "))
       /\ Fluent.Headers_get (Fluent.b_headers b4) "content-type"
          = Some (Some (Fluent.normalize " application/xml "))
       /\ Fluent.Headers_get (Fluent.b_headers b2) "content-length"
          = Some (Some (JS.String_of (JS.strlen "<a/>")))
       /\ Fluent.Headers_get (Fluent.b_headers b4) "content-length"
          = Some (Some (JS.String_of (JS.strlen "<a/>"))).
Proof.
  split; [split; reflexivity|].
  exact (X_content_type_order (Fluent.mkBuilder None []) "Content-Type" " application/xml "
           "<a/>" false eq_refl eq_refl).
Defined.

Example content_type_order_example :
  (b1 ← Fluent.header (Fluent.mkBuilder None []) "Content-Type"
          (Fluent.ScalarString "application/xml") None;
   Fluent.body b1 (Fluent.StringValue "<a/>"))
  = Some (Fluent.mkBuilder (Some (Fluent.StringValue "<a/>"))
            [("Content-Type", "application/xml"); ("content-length", "4")])
  /\ (b1 ← Fluent.body (Fluent.mkBuilder None []) (Fluent.StringValue "<a/>");
      Fluent.header b1 "Content-Type" (Fluent.ScalarString "application/xml") (Some true))
     = Some (Fluent.mkBuilder (Some (Fluent.StringValue "<a/>"))
               [("content-length", "4"); ("content-type", "text/plain;charset=utf-8");
                ("content-type", "application/xml")]).
Proof. split; reflexivity. Qed.

Lemma Headers_set_inv h name value h' :
  Fluent.Headers_set h name value = Some h' ->
  h' = Fluent.header_list_set h name (Fluent.normalize value).
Proof.
  unfold Fluent.Headers_set. destruct (_ && _); [|discriminate]. intros [= <-]. reflexivity.
Qed.

(** X23.  [body] removes no header: every name the headers contain is
    contained afterwards.  For a [ReadableStream], a [FormData] or a
    [URLSearchParams] the value is stored and [content-length] reads as it
    did before the call, so the length of an earlier body stays. *)
Theorem X_body_keeps_headers (b b' : Fluent.Builder) (value : Fluent.BodyValue) :
  Fluent.body b value = Some b' ->
  (forall name,
     Fluent.contains (Fluent.b_headers b) name = true ->
     Fluent.contains (Fluent.b_headers b') name = true)
  /\ match value with
     | Fluent.ReadableStreamValue | Fluent.FormDataValue | Fluent.URLSearchParamsValue _ =>
         Fluent.b_body b' = Some value
         /\ Fluent.Headers_get (Fluent.b_headers b') "content-length"
            = Fluent.Headers_get (Fluent.b_headers b) "content-length"
     | _ => True
     end.
Proof.
  destruct value as [n|n ty| | |es|text|text|e|]; unfold Fluent.body.
  - destruct (Fluent.Headers_set _ _ _) as [h1|] eqn:E1; [|discriminate].
    apply Headers_set_inv in E1 as ->. intros [= <-]. cbn [Fluent.b_headers].
    split; [|exact I]. intros name Hc. rewrite contains_set, Hc, orb_true_r. reflexivity.
  - destruct (Fluent.Headers_set _ "content-length" _) as [h1|] eqn:E1; [|discriminate].
    apply Headers_set_inv in E1 as ->. cbn [mbind option_bind].
    destruct (Fluent.Headers_set _ "content-type" _) as [h2|] eqn:E2; [|discriminate].
    apply Headers_set_inv in E2 as ->. intros [= <-]. cbn [Fluent.b_headers].
    split; [|exact I]. intros name Hc. rewrite !contains_set, Hc, !orb_true_r. reflexivity.
  - intros [= <-]. repeat split. auto.
  - intros [= <-]. repeat split. auto.
  - destruct (Fluent.Headers_set _ _ _) as [h1|] eqn:E1; [|discriminate].
    apply Headers_set_inv in E1 as ->. intros [= <-]. cbn [Fluent.b_headers Fluent.b_body].
    split; [|split; [reflexivity|]].
    + intros name Hc. rewrite contains_set, Hc, orb_true_r. reflexivity.
    + rewrite !Headers_get_values by reflexivity. rewrite header_values_set. reflexivity.
  - intros Hb. destruct (body_text b text false) as (b0 & Hb0 & _ & _ & _ & Hk).
    cbv iota in Hb0. unfold Fluent.body in Hb0. rewrite Hb0 in Hb. injection Hb as <-.
    split; [exact Hk|exact I].
  - intros Hb. destruct (body_text b text true) as (b0 & Hb0 & _ & _ & _ & Hk).
    cbv iota in Hb0. unfold Fluent.body in Hb0. rewrite Hb0 in Hb. injection Hb as <-.
    split; [exact Hk|exact I].
  - discriminate.
  - discriminate.
Qed.

Lemma X_body_keeps_headers_witness :
  Fluent.body
    (Fluent.mkBuilder (Some (Fluent.StringValue "abc"))
       [("content-length", "3"); ("content-type", "text/plain;charset=utf-8")])
    Fluent.ReadableStreamValue
  = Some (Fluent.mkBuilder (Some Fluent.ReadableStreamValue)
            [("content-length", "3"); ("content-type", "text/plain;charset=utf-8")])
  /\ Fluent.b_body
       (Fluent.mkBuilder (Some Fluent.ReadableStreamValue)
          [("content-length", "3"); ("content-type", "text/plain;charset=utf-8")])
     = Some Fluent.ReadableStreamValue
  /\ Fluent.Headers_get [("content-length", "3"); ("content-type", "text/plain;charset=utf-8")]
       "content-length"
     = Fluent.Headers_get
         [("content-length", "3"); ("content-type", "text/plain;charset=utf-8")]
         "content-length".
Proof.
  split; [reflexivity|].
  exact (proj2 (X_body_keeps_headers
                  (Fluent.mkBuilder (Some (Fluent.StringValue "abc"))
                     [("content-length", "3"); ("content-type", "text/plain;charset=utf-8")])
                  (Fluent.mkBuilder (Some Fluent.ReadableStreamValue)
                     [("content-length", "3"); ("content-type", "text/plain;charset=utf-8")])
                  Fluent.ReadableStreamValue eq_refl)).
Defined.


(** ** [headers] *)

Lemma header_values_append h k v name :
  header_values (Fluent.header_list_append h k v) name
  = (header_values h name ++ (if Fluent.same_name k name then [v] else []))%list.
Proof.
  unfold Fluent.header_list_append, header_values.
  rewrite List.filter_app, map_app. f_equal. cbn [List.filter fst].
  destruct (List.find _ h) as [e|] eqn:Ef; [|destruct (Fluent.same_name k name); reflexivity].
  apply List.find_some in Ef as [_ He].
  rewrite (same_name_trans e.1 k name He).
  destruct (Fluent.same_name k name); reflexivity.
Qed.

Lemma headers_values (values : list (string * Fluent.Scalar)) (append : option bool) :
  Forall (fun e => Fluent.isHeaderName e.1 = true
                   /\ Fluent.isHeaderValue (Fluent.normalize (Fluent.String_of_scalar e.2))
                      = true) values ->
  forall b, exists b',
    Fluent.headers b values append = Some b'
    /\ Fluent.b_body b' = Fluent.b_body b
    /\ forall name,
         header_values (Fluent.b_headers b') name
         = if Fluent.truthy append
           then (header_values (Fluent.b_headers b) name ++ given_values values name)%list
           else match last (given_values values name) with
                | Some v => [v]
                | None => header_values (Fluent.b_headers b) name
                end.
Proof.
  induction values as [|[k v] values IH]; intros Hv b.
  - exists b. split; [reflexivity|]. split; [reflexivity|]. intros name.
    cbn. destruct (Fluent.truthy append); [rewrite app_nil_r|]; reflexivity.
  - apply Forall_cons in Hv as [[Hn Hval] Hv]. cbn [fst snd] in Hn, Hval.
    unfold Fluent.headers. cbn [fold_left fst snd mbind option_bind].
    assert (Hh : Fluent.header b k v append
                 = Some (Fluent.mkBuilder (Fluent.b_body b)
                           (if Fluent.truthy append
                            then Fluent.header_list_append (Fluent.b_headers b) k
                                   (Fluent.normalize (Fluent.String_of_scalar v))
                            else Fluent.header_list_set (Fluent.b_headers b) k
                                   (Fluent.normalize (Fluent.String_of_scalar v))))).
    { unfold Fluent.header, Fluent.Headers_append, Fluent.Headers_set.
      rewrite Hn, Hval. destruct (Fluent.truthy append); reflexivity. }
    rewrite Hh. destruct (IH Hv (Fluent.mkBuilder (Fluent.b_body b)
                           (if Fluent.truthy append
                            then Fluent.header_list_append (Fluent.b_headers b) k
                                   (Fluent.normalize (Fluent.String_of_scalar v))
                            else Fluent.header_list_set (Fluent.b_headers b) k
                                   (Fluent.normalize (Fluent.String_of_scalar v)))))
      as (b' & Hb' & Hbody & Hvals).
    exists b'. split; [exact Hb'|]. split; [exact Hbody|]. intros name.
    rewrite Hvals. cbn [Fluent.b_headers]. unfold given_values. cbn [List.filter fst].
    set (l := map _ (List.filter (fun e => Fluent.same_name e.1 name) values)).
    destruct (Fluent.truthy append).
    + rewrite header_values_append, <- app_assoc. f_equal.
      destruct (Fluent.same_name k name); reflexivity.
    + rewrite header_values_set. destruct (Fluent.same_name k name); [|reflexivity].
      cbn [map snd]. fold l.
      destruct (last l) as [y|] eqn:El.
      * rewrite (last_cons_nonempty _ l y El). reflexivity.
      * apply last_None_nil in El. rewrite El. reflexivity.
Qed.

(** X24.  The [headers] of the result-returning variant, on entries whose
    names and values are valid, never throws and leaves the body alone.
    With [append] the values of a header are those it had followed by those
    the entries give its name, in any letter case; without it, a header
    whose name the entries give, in any letter case, is left with the last
    of their values alone, and the other headers keep their values. *)
Theorem X_headers_last_wins (b : Fluent.Builder) (values : list (string * Fluent.Scalar))
    (append : option bool) :
  Forall (fun e => Fluent.isHeaderName e.1 = true
                   /\ Fluent.isHeaderValue (Fluent.normalize (Fluent.String_of_scalar e.2))
                      = true) values ->
  exists b',
    Fluent.headers b values append = Some b'
    /\ Fluent.b_body b' = Fluent.b_body b
    /\ forall name,
         header_values (Fluent.b_headers b') name
         = if Fluent.truthy append
           then (header_values (Fluent.b_headers b) name ++ given_values values name)%list
           else match last (given_values values name) with
                | Some v => [v]
                | None => header_values (Fluent.b_headers b) name
                end.
Proof. intros Hv. apply headers_values. exact Hv. Qed.

Lemma X_headers_last_wins_witness :
  Forall (fun e => Fluent.isHeaderName e.1 = true
                   /\ Fluent.isHeaderValue (Fluent.normalize (Fluent.String_of_scalar e.2))
                      = true)
    [("Accept", Fluent.ScalarString "text/html"); ("accept", Fluent.ScalarNumber 1)]
  /\ exists b',
       Fluent.headers (Fluent.mkBuilder None [("ACCEPT", "*/*")])
         [("Accept", Fluent.ScalarString "text/html"); ("accept", Fluent.ScalarNumber 1)] None
       = Some b'
       /\ Fluent.b_body b' = None
       /\ forall name,
            header_values (Fluent.b_headers b') name
            = match last (given_values
                            [("Accept", Fluent.ScalarString "text/html");
                             ("accept", Fluent.ScalarNumber 1)] name) with
              | Some v => [v]
              | None => header_values [("ACCEPT", "*/*")] name
              end.
Proof.
  assert (H : Forall (fun e => Fluent.isHeaderName e.1 = true
                   /\ Fluent.isHeaderValue (Fluent.normalize (Fluent.String_of_scalar e.2))
                      = true)
                [("Accept", Fluent.ScalarString "text/html"); ("accept", Fluent.ScalarNumber 1)])
    by (repeat constructor).
  split; [exact H|].
  exact (X_headers_last_wins (Fluent.mkBuilder None [("ACCEPT", "*/*")])
           [("Accept", Fluent.ScalarString "text/html"); ("accept", Fluent.ScalarNumber 1)]
           None H).
Defined.

Example headers_example :
  Fluent.headers (Fluent.mkBuilder None [("ACCEPT", "*/*")])
    [("Accept", Fluent.ScalarString "text/html"); ("accept", Fluent.ScalarNumber 1)] None
  = Some (Fluent.mkBuilder None [("ACCEPT", "1")]).
Proof. reflexivity. Qed.
